(** * Arc-standard dependency parsing: the transition system of [parser.py]

    A shallow embedding of [PartialParse] (the configuration and its
    transitions), of the dependant queries, of the training oracle
    [get_oracle] and of the batched driver [minibatch_parse], followed by
    the properties established about them.

    Python integers are modelled by [Z], Python lists by [list] in Python
    order (the top of the stack is the LAST element), [str or None] by
    [option string].  Methods of [PartialParse] run in a small state and
    exception monad over the object's attributes: a raise returns the state
    as it is at the point of the raise, so that what a failed call leaves
    behind is observable. *)

From Stdlib Require Import ZArith List String Bool Lia Permutation Arith Sorted.
Import ListNotations.

Local Open Scope Z_scope.

(** ** Python list primitives *)

Module Py.

(** [l[i]] index resolution: a negative index counts from the end; the
    result is the position, or [None] when Python raises IndexError. *)
Definition norm_index (len i : Z) : option nat :=
  let j := if i <? 0 then i + len else i in
  if (0 <=? j) && (j <? len) then Some (Z.to_nat j) else None.

Definition len {A : Type} (l : list A) : Z := Z.of_nat (List.length l).

(** [l[i]] *)
Definition getitem {A : Type} (l : list A) (i : Z) : option A :=
  match norm_index (len l) i with
  | Some k => nth_error l k
  | None => None
  end.

Fixpoint remove_at {A : Type} (k : nat) (l : list A) : list A :=
  match l, k with
  | [], _ => []
  | _ :: t, O => t
  | x :: t, S k' => x :: remove_at k' t
  end.

(** [del l[i]] *)
Definition delitem {A : Type} (l : list A) (i : Z) : option (list A) :=
  match norm_index (len l) i with
  | Some k => Some (remove_at k l)
  | None => None
  end.

(** [l[0:b]] : a negative bound counts from the end, and slices clip. *)
Definition slice_to {A : Type} (l : list A) (b : Z) : list A :=
  if b <? 0 then firstn (Z.to_nat (len l + b)) l
  else firstn (Z.to_nat b) l.

End Py.

(** ** Exceptions and the method monad *)

Inductive exn : Type :=
| ValueError (msg : string)
| IndexError
| TypeError.

Inductive outcome (A : Type) : Type :=
| Return (a : A)
| Raise (e : exn).
Arguments Return {A} a.
Arguments Raise {A} e.

(** An arc [(idx_head, idx_dep, deprel)]. *)
Definition arc : Type := Z * Z * option string.

Definition arc_head (a : arc) : Z := fst (fst a).
Definition arc_dep (a : arc) : Z := snd (fst a).
Definition arc_deprel (a : arc) : option string := snd a.

(** The quadruple (sentence, stack, next, arcs).  [sentence] includes the
    root pair [(None, root_tag)] at index 0. *)
Record PartialParse : Type := mkPartialParse {
  sentence : list (option string * string);
  stack : list Z;
  next : Z;
  arcs : list arc
}.

Definition left_arc_id : Z := 0.
Definition right_arc_id : Z := 1.
Definition shift_id : Z := 2.
Definition root_tag : string := "TOP"%string.

(** [PartialParse.__init__] *)
Definition init (s : list (string * string)) : PartialParse :=
  {| sentence := (None, root_tag) :: map (fun wt => (Some (fst wt), snd wt)) s;
     stack := [0];
     next := 1;
     arcs := [] |}.

Definition M (A : Type) : Type := PartialParse -> outcome A * PartialParse.

Definition ret {A : Type} (a : A) : M A := fun pp => (Return a, pp).

Definition bind {A B : Type} (m : M A) (k : A -> M B) : M B :=
  fun pp =>
    match m pp with
    | (Return a, pp') => k a pp'
    | (Raise e, pp') => (Raise e, pp')
    end.

Definition raise {A : Type} (e : exn) : M A := fun pp => (Raise e, pp).

Declare Scope meth_scope.
Delimit Scope meth_scope with meth.
Notation "x <- m ;; k" := (bind m (fun x => k))
  (at level 61, m at next level, right associativity) : meth_scope.
Notation "m ;;; k" := (bind m (fun _ => k))
  (at level 61, right associativity) : meth_scope.

Local Open Scope meth_scope.

(** Attribute reads and writes. *)
Definition len_sentence : M Z := fun pp => (Return (Py.len (sentence pp)), pp).
Definition len_stack : M Z := fun pp => (Return (Py.len (stack pp)), pp).
Definition get_next : M Z := fun pp => (Return (next pp), pp).
Definition get_arcs : M (list arc) := fun pp => (Return (arcs pp), pp).

(** [self.stack[i]] *)
Definition stack_at (i : Z) : M Z :=
  fun pp =>
    match Py.getitem (stack pp) i with
    | Some x => (Return x, pp)
    | None => (Raise IndexError, pp)
    end.

(** [self.arcs.append(a)] *)
Definition arcs_append (a : arc) : M unit :=
  fun pp =>
    (Return tt,
     {| sentence := sentence pp; stack := stack pp; next := next pp;
        arcs := arcs pp ++ [a] |}).

(** [del self.stack[i]] *)
Definition stack_del (i : Z) : M unit :=
  fun pp =>
    match Py.delitem (stack pp) i with
    | Some st =>
        (Return tt,
         {| sentence := sentence pp; stack := st; next := next pp;
            arcs := arcs pp |})
    | None => (Raise IndexError, pp)
    end.

(** [self.stack.append(x)] *)
Definition stack_append (x : Z) : M unit :=
  fun pp =>
    (Return tt,
     {| sentence := sentence pp; stack := stack pp ++ [x]; next := next pp;
        arcs := arcs pp |}).

(** [self.next = x] *)
Definition set_next (x : Z) : M unit :=
  fun pp =>
    (Return tt,
     {| sentence := sentence pp; stack := stack pp; next := x;
        arcs := arcs pp |}).

(** ** The transition system *)

(** [PartialParse.complete] (a property: it is evaluated on the object). *)
Definition complete : M bool :=
  nx <- get_next ;;
  ls <- len_sentence ;;
  if nx =? ls then
    n <- len_stack ;;
    if n =? 1 then
      s0 <- stack_at 0 ;;
      if s0 =? 0 then ret true else ret false
    else ret false
  else ret false.

(** [PartialParse.parse_step] *)
Definition parse_step (transition_id : Z) (deprel : option string) : M unit :=
  if transition_id =? left_arc_id then
    n <- len_stack ;;
    if n <? 3 then raise (ValueError "Illegal Left Arc")
    else
      top <- stack_at (-1) ;;
      second <- stack_at (-2) ;;
      arcs_append (top, second, deprel) ;;;
      stack_del (-2)
  else if transition_id =? right_arc_id then
    n <- len_stack ;;
    if n <? 2 then raise (ValueError "Illegal Left Arc")
    else
      second <- stack_at (-2) ;;
      top <- stack_at (-1) ;;
      arcs_append (second, top, deprel) ;;;
      stack_del (-1)
  else if transition_id =? shift_id then
    nx <- get_next ;;
    ls <- len_sentence ;;
    if nx =? ls then raise (ValueError "Illegal Shift")
    else
      nx' <- get_next ;;
      stack_append nx' ;;;
      nx'' <- get_next ;;
      set_next (nx'' + 1)
  else raise (ValueError "Unknown transition").

(** [PartialParse.parse]: reapply [parse_step] for every pair, then return
    the arcs. *)
Fixpoint parse (td_pairs : list (Z * option string)) : M (list arc) :=
  match td_pairs with
  | [] => get_arcs
  | (transition_id, deprel) :: rest =>
      parse_step transition_id deprel ;;; parse rest
  end.

(** ** Dependant queries *)

(** The loop body shared by the two queries: scan [l], collecting the
    dependants of the arcs headed by [sentence_idx]; [count] is the number
    collected so far; stop when [n] is truthy and [count == n]. *)
Fixpoint scan_deps (sentence_idx : Z) (n : option Z) (count : Z)
    (l : list arc) : list Z :=
  match l with
  | [] => []
  | a :: rest =>
      if arc_head a =? sentence_idx then
        let count' := count + 1 in
        let stop :=
          match n with
          | Some k => negb (k =? 0) && (count' =? k)
          | None => false
          end in
        if stop then [arc_dep a]
        else arc_dep a :: scan_deps sentence_idx n count' rest
      else scan_deps sentence_idx n count rest
  end.

(** [PartialParse.get_n_leftmost_deps] *)
Definition get_n_leftmost_deps (sentence_idx : Z) (n : option Z) : M (list Z) :=
  match n with
  | Some 0 => ret []
  | _ =>
      l <- get_arcs ;;
      ret (scan_deps sentence_idx n 0 l)
  end.

(** [PartialParse.get_n_rightmost_deps] *)
Definition get_n_rightmost_deps (sentence_idx : Z) (n : option Z) : M (list Z) :=
  match n with
  | Some 0 => ret []
  | _ =>
      l <- get_arcs ;;
      ret (scan_deps sentence_idx n 0 (rev l))
  end.

(** ** The gold dependency graph

    [nltk]'s [DependencyGraph] is external to the repository; what the
    oracle reads of it is modelled here.  [graph.nodes] is a dictionary from
    addresses to node records that yields a fresh node (address [None], no
    dependants) at a key it does not hold; a node's ['deps'] is a dictionary
    from relation labels to lists of dependant indices, iterated in
    insertion order. *)

Record node : Type := mkNode {
  address : option Z;
  head : option Z;
  deps : list (string * list Z)
}.

Definition DependencyGraph : Type := list node.

Definition default_node : node :=
  {| address := None; head := None; deps := [] |}.

(** [graph.nodes[i]] *)
Definition graph_nodes (graph : DependencyGraph) (i : Z) : node :=
  if i <? 0 then default_node else nth (Z.to_nat i) graph default_node.

(** The two nested loops of [is_left_dep] and [is_right_dep]: the first
    relation, in iteration order, whose list holds [dep_node]. *)
Fixpoint find_deprel (items : list (string * list Z)) (dep_node : Z)
  : bool * option string :=
  match items with
  | [] => (false, None)
  | (deprel, ds) :: rest =>
      if existsb (fun dep => dep =? dep_node) ds then (true, Some deprel)
      else find_deprel rest dep_node
  end.

(** Comparing an index with an address that is [None] is a TypeError. *)
Definition is_left_dep (head_node : node) (dep_node : Z)
  : outcome (bool * option string) :=
  match address head_node with
  | None => Raise TypeError
  | Some a =>
      if dep_node >? a then Return (false, None)
      else Return (find_deprel (deps head_node) dep_node)
  end.

Definition is_right_dep (head_node : node) (dep_node : Z)
  : outcome (bool * option string) :=
  match address head_node with
  | None => Raise TypeError
  | Some a =>
      if dep_node <? a then Return (false, None)
      else Return (find_deprel (deps head_node) dep_node)
  end.

(** [get_deps]: the chain of all the lists held by the node's [deps]. *)
Definition get_deps (n : node) : list Z := List.concat (map snd (deps n)).

(** The generator's filter is evaluated once per dependant, so a node
    without dependants never compares. *)
Definition filter_deps (cmp : Z -> Z -> bool) (n : node) : outcome (list Z) :=
  match get_deps n with
  | [] => Return []
  | ds =>
      match address n with
      | None => Raise TypeError
      | Some a => Return (filter (fun dep => cmp dep a) ds)
      end
  end.

Definition get_left_deps (n : node) : outcome (list Z) := filter_deps Z.ltb n.
Definition get_right_deps (n : node) : outcome (list Z) := filter_deps Z.gtb n.

Definition lift {A : Type} (o : outcome A) : M A := fun pp => (o, pp).

(** ** The oracle *)

(** [PartialParse.get_oracle] *)
Definition get_oracle (graph : DependencyGraph) : M (Z * option string) :=
  c <- complete ;;
  if c then raise (ValueError "PartialParse already completed")
  else
    n <- len_stack ;;
    if n =? 1 then ret (shift_id, None)
    else if n =? 2 then
      nx <- get_next ;;
      ls <- len_sentence ;;
      if nx =? ls then
        s0 <- stack_at 0 ;;
        s1 <- stack_at (-1) ;;
        r <- lift (is_right_dep (graph_nodes graph s0) s1) ;;
        if negb (fst r)
        then raise (ValueError "This should be the last right arc (ROOT)")
        else ret (right_arc_id, snd r)
      else ret (shift_id, None)
    else
      top <- stack_at (-1) ;;
      second <- stack_at (-2) ;;
      l <- lift (is_left_dep (graph_nodes graph top) second) ;;
      second' <- stack_at (-2) ;;
      top' <- stack_at (-1) ;;
      r <- lift (is_right_dep (graph_nodes graph second') top') ;;
      if fst l then ret (left_arc_id, snd l)
      else if fst r then
        top'' <- stack_at (-1) ;;
        all_right_deps <- lift (get_right_deps (graph_nodes graph top'')) ;;
        nx <- get_next ;;
        if existsb (fun right_dep => right_dep >=? nx) all_right_deps
        then ret (shift_id, None)
        else ret (right_arc_id, snd r)
      else ret (shift_id, None).

(** The loop of [test_oracle] and of [oracle_test.py]:
    [while not pp.complete: t, d = pp.get_oracle(graph);
     transition_ids.append(t); pp.parse_step(t, d)].
    [None] is fuel exhaustion; a raise ends the loop. *)
Fixpoint oracle_loop (fuel : nat) (graph : DependencyGraph)
    (transition_ids : list Z) (pp : PartialParse)
  : option (outcome (list Z) * PartialParse) :=
  match fuel with
  | O => None
  | S fuel' =>
      match complete pp with
      | (Raise e, pp1) => Some (Raise e, pp1)
      | (Return true, pp1) => Some (Return transition_ids, pp1)
      | (Return false, pp1) =>
          match get_oracle graph pp1 with
          | (Raise e, pp2) => Some (Raise e, pp2)
          | (Return (transition_id, deprel), pp2) =>
              match parse_step transition_id deprel pp2 with
              | (Raise e, pp3) => Some (Raise e, pp3)
              | (Return _, pp3) =>
                  oracle_loop fuel' graph (transition_ids ++ [transition_id]) pp3
              end
          end
      end
  end.

(** The graph [DependencyGraph(graph_data)] of [test_oracle]: five words
    with heads 0, 3, 5, 3, 1 and relations ROOT, deprel_2 .. deprel_5. *)
Definition test_graph : DependencyGraph :=
  [ {| address := Some 0; head := None; deps := [("ROOT"%string, [1])] |};
    {| address := Some 1; head := Some 0; deps := [("deprel_5"%string, [5])] |};
    {| address := Some 2; head := Some 3; deps := [] |};
    {| address := Some 3; head := Some 5;
       deps := [("deprel_2"%string, [2]); ("deprel_4"%string, [4])] |};
    {| address := Some 4; head := Some 3; deps := [] |};
    {| address := Some 5; head := Some 1; deps := [("deprel_3"%string, [3])] |} ].

(** [get_sentence_from_graph(graph)] for [test_graph]. *)
Definition test_sentence : list (string * string) :=
  [ ("word_1", "tag_1"); ("word_2", "tag_2"); ("word_3", "tag_3");
    ("word_4", "tag_4"); ("word_5", "tag_5") ]%string.

(** A three-word tree in which every word depends on the word before it
    and the word under ROOT carries the label ['root']. *)
Definition chain_graph : DependencyGraph :=
  [ {| address := Some 0; head := None; deps := [("root"%string, [1])] |};
    {| address := Some 1; head := Some 0; deps := [("a"%string, [2])] |};
    {| address := Some 2; head := Some 1; deps := [("b"%string, [3])] |};
    {| address := Some 3; head := Some 2; deps := [] |} ].

Definition chain_sentence : list (string * string) :=
  [ ("w1", "t"); ("w2", "t"); ("w3", "t") ]%string.

(** ** The batched driver *)

Definition td_pair : Type := Z * option string.

(** [model.predict]: one proposal per member of the minibatch it is shown
    (the model is a black box; nothing forces the lengths to agree). *)
Definition Model : Type := list PartialParse -> list td_pair.

(** The [PartialParse] objects live in [partial_parses], in input order;
    [unfinished_parses] and [minibatch] hold references to them, modelled
    as positions in that store. *)
Definition store_get (store : list PartialParse) (r : nat) : PartialParse :=
  nth r store (init []).

Fixpoint store_set (store : list PartialParse) (r : nat) (pp : PartialParse)
  : list PartialParse :=
  match store, r with
  | [], _ => []
  | _ :: t, O => pp :: t
  | x :: t, S r' => x :: store_set t r' pp
  end.

(** The body of [for i in range(len(minibatch))], for the members from
    position [i] on: only ValueError is caught, and the completion test
    follows the [try] statement on both of its exits. *)
Fixpoint batch_pass (minibatch : list nat) (td_pairs : list td_pair) (i : Z)
    (to_del : list Z) (store : list PartialParse)
  : outcome (list Z) * list PartialParse :=
  match minibatch with
  | [] => (Return to_del, store)
  | r :: rest =>
      match Py.getitem td_pairs i with
      | None => (Raise IndexError, store)
      | Some td =>
          match parse_step (fst td) (snd td) (store_get store r) with
          | (Raise IndexError, pp1) => (Raise IndexError, store_set store r pp1)
          | (Raise TypeError, pp1) => (Raise TypeError, store_set store r pp1)
          | (res, pp1) =>
              let to_del1 :=
                match res with
                | Raise (ValueError _) => to_del ++ [i]
                | _ => to_del
                end in
              match complete pp1 with
              | (Raise e, pp2) => (Raise e, store_set store r pp2)
              | (Return c, pp2) =>
                  let to_del2 := if c then to_del1 ++ [i] else to_del1 in
                  batch_pass rest td_pairs (i + 1) to_del2 (store_set store r pp2)
              end
          end
      end
  end.

(** [for i in reversed(to_del): del unfinished_parses[i]], given the
    already reversed list. *)
Fixpoint delete_marked (marked : list Z) (unfinished_parses : list nat)
  : option (list nat) :=
  match marked with
  | [] => Some unfinished_parses
  | i :: rest =>
      match Py.delitem unfinished_parses i with
      | Some u => delete_marked rest u
      | None => None
      end
  end.

(** The [while len(unfinished_parses)] loop.  When the minibatch is the
    list [unfinished_parses] itself rather than a slice of it, the alias is
    harmless: the list is only modified after the [for] loop. *)
Fixpoint minibatch_loop (fuel : nat) (model : Model) (batch_size : Z)
    (unfinished_parses : list nat) (store : list PartialParse)
  : option (outcome unit * list PartialParse) :=
  match fuel with
  | O => None
  | S fuel' =>
      if Py.len unfinished_parses =? 0 then Some (Return tt, store)
      else
        let minibatch :=
          if Py.len unfinished_parses <? batch_size then unfinished_parses
          else Py.slice_to unfinished_parses batch_size in
        let td_pairs := model (map (store_get store) minibatch) in
        match batch_pass minibatch td_pairs 0 [] store with
        | (Raise e, store1) => Some (Raise e, store1)
        | (Return to_del, store1) =>
            match delete_marked (rev to_del) unfinished_parses with
            | None => Some (Raise IndexError, store1)
            | Some u => minibatch_loop fuel' model batch_size u store1
            end
        end
  end.

(** [minibatch_parse]; [None] is fuel exhaustion. *)
Definition minibatch_parse (fuel : nat) (sentences : list (list (string * string)))
    (model : Model) (batch_size : Z) : option (outcome (list (list arc))) :=
  let partial_parses := map init sentences in
  let unfinished_parses := seq 0 (List.length partial_parses) in
  match minibatch_loop fuel model batch_size unfinished_parses partial_parses with
  | None => None
  | Some (Raise e, _) => Some (Raise e)
  | Some (Return _, store) => Some (Return (map arcs store))
  end.

(** ** The projectivity check of [oracle_test.py] *)

(** [is_inside(range_tuple, number)].  The tuples of [graph_arcs] are read at
    items 0 and 1 only, the two ends of an arc. *)
Definition is_inside (range_tuple : arc) (number : Z) : bool :=
  if (number <? arc_dep range_tuple) && (number >? arc_head range_tuple) then true
  else if (number >? arc_dep range_tuple) && (number <? arc_head range_tuple)
       then true
       else false.

(** The four tests of the inner loop body of [is_non_proj], on
    [graph_arcs[i]] and [graph_arcs[j]]. *)
Definition non_proj_pair (ai aj : arc) : bool :=
  if is_inside ai (arc_head aj) && negb (is_inside ai (arc_dep aj)) then true
  else if is_inside ai (arc_dep aj) && negb (is_inside ai (arc_head aj)) then true
  else if is_inside aj (arc_head ai) && negb (is_inside aj (arc_dep ai)) then true
  else if is_inside aj (arc_dep ai) && negb (is_inside aj (arc_head ai)) then true
  else false.

(** [is_non_proj(graph_arcs)]: [i] runs over the list and [j] over the
    positions from [i] on, [i] itself included. *)
Fixpoint is_non_proj (graph_arcs : list arc) : bool :=
  match graph_arcs with
  | [] => false
  | ai :: rest =>
      if existsb (non_proj_pair ai) (ai :: rest) then true else is_non_proj rest
  end.

(** ** [DummyModel] *)

(** [word == 'left'] for a word of the sentence ([None] is the root's). *)
Definition is_left_word (w : option string) : bool :=
  match w with
  | Some x => String.eqb x "left"
  | None => false
  end.

(** The body of the loop of [DummyModel.predict], for one parse;
    [pp.sentence[1]] raises IndexError on a sentence without words. *)
Definition predict_one (pp : PartialParse) : outcome td_pair :=
  if next pp <? Py.len (sentence pp) then Return (shift_id, Some "deprel"%string)
  else
    match Py.getitem (sentence pp) 1 with
    | None => Raise IndexError
    | Some wt =>
        if is_left_word (fst wt) && negb (Py.len (stack pp) =? 2)
        then Return (left_arc_id, Some "deprel"%string)
        else Return (right_arc_id, Some "deprel"%string)
    end.

(** [DummyModel.predict] *)
Fixpoint predict (partial_parses : list PartialParse) : outcome (list td_pair) :=
  match partial_parses with
  | [] => Return []
  | pp :: rest =>
      match predict_one pp with
      | Raise e => Raise e
      | Return td =>
          match predict rest with
          | Raise e => Raise e
          | Return tds => Return (td :: tds)
          end
      end
  end.

(** ** Runs of the state machine *)

(** [steps pp tds pp']: applying the pairs [tds] in order with
    [PartialParse.parse] succeeds and takes [pp] to [pp']. *)
Definition steps (pp : PartialParse) (tds : list td_pair) (pp' : PartialParse)
  : Prop :=
  parse tds pp = (Return (arcs pp'), pp').

(** A configuration of the machine for sentence [s]: one that successful
    transitions reach from the initial configuration. *)
Definition configuration (s : list (string * string)) (pp : PartialParse)
  : Prop :=
  exists tds, steps (init s) tds pp.

Definition is_shift (td : td_pair) : bool := fst td =? shift_id.
Definition is_arc_op (td : td_pair) : bool :=
  (fst td =? left_arc_id) || (fst td =? right_arc_id).

Definition count_if {A : Type} (f : A -> bool) (l : list A) : nat :=
  List.length (filter f l).

(** The sentence indices [1..n]. *)
Definition word_indices (n : nat) : list Z := map Z.of_nat (seq 1 n).

(** ** Configuration invariants (section 3 of the specification) *)

Definition in_range (pp : PartialParse) (i : Z) : Prop :=
  0 <= i < Py.len (sentence pp).

Definition inv_stack (pp : PartialParse) : Prop :=
  exists rest, stack pp = 0 :: rest.

Definition inv_frontier (pp : PartialParse) : Prop :=
  1 <= next pp <= Py.len (sentence pp).

(** Every index in the stack and in the arcs is a sentence index. *)
Definition inv_indices (pp : PartialParse) : Prop :=
  (forall i, In i (stack pp) -> in_range pp i) /\
  (forall a, In a (arcs pp) -> in_range pp (arc_head a) /\ in_range pp (arc_dep a)).

(** The third invariant as the specification words it: the frontier too
    lies in [[0, len(sentence))]. *)
Definition inv_indices_as_stated (pp : PartialParse) : Prop :=
  inv_indices pp /\ in_range pp (next pp).

(** ** The gold tree as the oracle's contract sees it *)

(** The arcs the graph records: one per dependant in each node's [deps]. *)
Definition node_arcs (h : Z) (n : node) : list arc :=
  flat_map (fun item => map (fun d => (h, d, Some (fst item))) (snd item))
           (deps n).

Definition gold_arcs (graph : DependencyGraph) : list arc :=
  flat_map (fun k => node_arcs (Z.of_nat k) (nth k graph default_node))
           (seq 0 (List.length graph)).

(** [graph] is reachable from [pp]: some run of successful transitions
    from [pp] ends complete with exactly the graph's arcs. *)
Definition gold_reachable (pp : PartialParse) (graph : DependencyGraph) : Prop :=
  exists tds pp',
    steps pp tds pp' /\
    complete pp' = (Return true, pp') /\
    (forall a, In a (arcs pp') <-> In a (gold_arcs graph)).

(** The graph is consistent with a sentence of [n] entries (root
    included): one node per index, stored under its own address, and the
    head fields agree with the dependant lists. *)
Definition lists_dependant (graph : DependencyGraph) (h d : Z) : bool :=
  existsb (fun item => existsb (fun dep => dep =? d) (snd item))
          (deps (graph_nodes graph h)).

Definition consistent_at (graph : DependencyGraph) (h d : Z) : bool :=
  Bool.eqb (lists_dependant graph h d)
           (match head (graph_nodes graph d) with
            | Some x => x =? h
            | None => false
            end).

Definition indices (n : nat) : list Z := map Z.of_nat (seq 0 n).

Definition wf_graph (graph : DependencyGraph) (n : nat) : bool :=
  (List.length graph =? n)%nat &&
  forallb (fun i => match address (graph_nodes graph i) with
                    | Some a => a =? i
                    | None => false
                    end) (indices n) &&
  forallb (fun h => forallb (consistent_at graph h) (indices n)) (indices n).

(** ** The decision procedure of section 4.2, as the specification words it *)

Module Spec.

(** "gold records [h] as head of [d]" *)
Definition records_head (graph : DependencyGraph) (h d : Z) : bool :=
  match head (graph_nodes graph d) with
  | Some x => x =? h
  | None => false
  end.

(** The relation label the gold tree records between [h] and its
    dependant [d]: the label of the arc from [h] to [d] in the arc set of
    the tree. *)
Definition gold_label (graph : DependencyGraph) (h d : Z) : option string :=
  match find (fun a => (arc_head a =? h) && (arc_dep a =? d)) (gold_arcs graph) with
  | Some a => arc_deprel a
  | None => None
  end.

(** "[top] still has some gold dependent with sentence index >= the
    current frontier": some index from the frontier on has [top] as its
    recorded head. *)
Definition has_pending_dependent (graph : DependencyGraph) (top frontier : Z)
  : bool :=
  existsb (fun d => (frontier <=? d) && records_head graph top d)
          (indices (List.length graph)).

Definition buffer_empty (pp : PartialParse) : bool :=
  Py.len (sentence pp) <=? next pp.

(** Step 3: the stack holds at least two words above ROOT. *)
Definition decide_pair (pp : PartialParse) (graph : DependencyGraph)
    (top second : Z) : Z * option string :=
  if records_head graph top second
  then (left_arc_id, gold_label graph top second)
  else if records_head graph second top
  then
    if has_pending_dependent graph top (next pp)
    then (shift_id, None)
    else (right_arc_id, gold_label graph second top)
  else (shift_id, None).

Definition oracle_decision (pp : PartialParse) (graph : DependencyGraph)
  : Z * option string :=
  match stack pp with
  | [0] => (shift_id, None)
  | [0; w] =>
      if buffer_empty pp then (right_arc_id, gold_label graph 0 w)
      else (shift_id, None)
  | _ =>
      match rev (stack pp) with
      | top :: second :: _ => decide_pair pp graph top second
      | _ => (shift_id, None)
      end
  end.

End Spec.

(** ** The decision of the code in closed form

    What [get_oracle] computes on a stack that starts with ROOT, written
    with the lookups the code performs: the label its scan of the dependant
    lists finds, and its look-ahead over [get_right_deps]. *)

Definition found_label (graph : DependencyGraph) (h d : Z) : option string :=
  snd (find_deprel (deps (graph_nodes graph h)) d).

Definition scans_pending (graph : DependencyGraph) (top frontier : Z) : bool :=
  existsb (fun d => frontier <=? d) (get_deps (graph_nodes graph top)).

Definition scanned_pair (pp : PartialParse) (graph : DependencyGraph)
    (top second : Z) : Z * option string :=
  if Spec.records_head graph top second
  then (left_arc_id, found_label graph top second)
  else if Spec.records_head graph second top
  then
    if scans_pending graph top (next pp)
    then (shift_id, None)
    else (right_arc_id, found_label graph second top)
  else (shift_id, None).

Definition scanned_decision (pp : PartialParse) (graph : DependencyGraph)
  : Z * option string :=
  match stack pp with
  | [0] => (shift_id, None)
  | [0; w] =>
      if Spec.buffer_empty pp then (right_arc_id, found_label graph 0 w)
      else (shift_id, None)
  | _ =>
      match rev (stack pp) with
      | top :: second :: _ => scanned_pair pp graph top second
      | _ => (shift_id, None)
      end
  end.


(** ** Auxiliary notions used in the statements and proofs *)

(** Unfold the attribute accesses of a method body. *)
Ltac unfold_meth :=
  unfold bind, ret, raise, lift, len_stack, len_sentence, get_next, get_arcs,
    stack_at, arcs_append, stack_del, stack_append, set_next;
  cbn [stack next arcs sentence fst snd].

(** The object after a shift, and after an arc operation that leaves the
    stack [st] and appends the arc [a]. *)
Definition shifted (pp : PartialParse) : PartialParse :=
  {| sentence := sentence pp; stack := stack pp ++ [next pp];
     next := next pp + 1; arcs := arcs pp |}.

Definition reduced (pp : PartialParse) (st : list Z) (a : arc) : PartialParse :=
  {| sentence := sentence pp; stack := st; next := next pp;
     arcs := arcs pp ++ [a] |}.

(** What a transition did, read off its outcome. *)
Inductive transition : PartialParse -> td_pair -> PartialParse -> Prop :=
| T_shift pp deprel :
    next pp <> Py.len (sentence pp) ->
    transition pp (shift_id, deprel) (shifted pp)
| T_left pp deprel rest second top :
    stack pp = rest ++ [second; top] -> rest <> [] ->
    transition pp (left_arc_id, deprel)
               (reduced pp (rest ++ [top]) (top, second, deprel))
| T_right pp deprel rest second top :
    stack pp = rest ++ [second; top] ->
    transition pp (right_arc_id, deprel)
               (reduced pp (rest ++ [second]) (second, top, deprel)).

(** The violated preconditions of section 4.1. *)
Definition illegal (transition_id : Z) (pp : PartialParse) : Prop :=
  (transition_id = left_arc_id /\ Py.len (stack pp) < 3) \/
  (transition_id = right_arc_id /\ Py.len (stack pp) < 2) \/
  (transition_id = shift_id /\ next pp = Py.len (sentence pp)) \/
  (transition_id <> left_arc_id /\ transition_id <> right_arc_id /\
   transition_id <> shift_id).

(** The words that are on the stack (above its bottom entry) or already
    attached as dependants. *)
Definition placed (pp : PartialParse) : list Z :=
  tl (stack pp) ++ map arc_dep (arcs pp).

(** [[a, a+1, ..., a+k-1]] *)
Definition zrange (a : Z) (k : nat) : list Z :=
  map (fun i => a + Z.of_nat i) (seq 0 k).

(** Strictly decreasing below a bound; read on the reversed stack it says
    that the stack increases towards its top and stays below the frontier. *)
Fixpoint descending (bound : Z) (l : list Z) : Prop :=
  match l with
  | [] => True
  | x :: rest => x < bound /\ descending x rest
  end.

(** The stack increases towards its top and lies below the frontier. *)
Definition inv_order (pp : PartialParse) : Prop :=
  descending (next pp) (rev (stack pp)).

(** What holds of every configuration reached from an initial one. *)
Record invariants (pp : PartialParse) : Prop := {
  invs_stack : inv_stack pp;
  invs_frontier : inv_frontier pp;
  invs_indices : inv_indices pp;
  invs_order : inv_order pp
}.

(** The dependants of the arcs of [l] headed by [i], in the order of [l]. *)
Definition deps_of (i : Z) (l : list arc) : list Z :=
  map arc_dep (filter (fun a => arc_head a =? i) l).

(** A model that proposes the same pair for every member of the batch. *)
Definition constant_model (td : td_pair) : Model :=
  fun partial_parses => map (fun _ => td) partial_parses.

(** A model like [DummyModel], for right arcs only: shift while the buffer
    is not empty, then right-arc. *)
Definition shift_then_right (pp : PartialParse) : td_pair :=
  if next pp <? Py.len (sentence pp) then (shift_id, Some "deprel"%string)
  else (right_arc_id, Some "deprel"%string).

(** One member of a minibatch, as the loop body treats a parse that was not
    complete before: the parse after the attempt, and whether it is marked
    for removal. *)
Definition advance (td : td_pair) (pp : PartialParse) : PartialParse * bool :=
  match parse_step (fst td) (snd td) pp with
  | (Return _, pp') =>
      (pp', match complete pp' with (Return c, _) => c | _ => false end)
  | (Raise _, pp') => (pp', true)
  end.

(** One pass over a minibatch whose members were not complete: the marks,
    member by member, and the store after the pass. *)
Fixpoint pass_result (minibatch : list nat) (tds : list td_pair)
    (store : list PartialParse) : list bool * list PartialParse :=
  match minibatch, tds with
  | r :: minibatch', td :: tds' =>
      let (ms, store') :=
        pass_result minibatch' tds'
                    (store_set store r (fst (advance td (store_get store r)))) in
      (snd (advance td (store_get store r)) :: ms, store')
  | _, _ => ([], store)
  end.

(** The positions, from [i] on, that carry a mark. *)
Fixpoint positions_of (marks : list bool) (i : Z) : list Z :=
  match marks with
  | [] => []
  | m :: marks' => (if m then [i] else []) ++ positions_of marks' (i + 1)
  end.

(** The members that carry no mark. *)
Fixpoint unmarked (l : list nat) (marks : list bool) : list nat :=
  match l, marks with
  | r :: l', m :: marks' =>
      if m then unmarked l' marks' else r :: unmarked l' marks'
  | _, _ => []
  end.

(** The run of one parse alone under the decision function [f]: apply what
    [f] proposes until a proposal is illegal or the parse is complete. *)
Inductive finishes (f : PartialParse -> td_pair)
  : PartialParse -> PartialParse -> Prop :=
| F_stuck pp e pp' :
    parse_step (fst (f pp)) (snd (f pp)) pp = (Raise e, pp') ->
    finishes f pp pp'
| F_done pp pp' :
    parse_step (fst (f pp)) (snd (f pp)) pp = (Return tt, pp') ->
    complete pp' = (Return true, pp') ->
    finishes f pp pp'
| F_step pp pp' q :
    parse_step (fst (f pp)) (snd (f pp)) pp = (Return tt, pp') ->
    complete pp' = (Return false, pp') ->
    finishes f pp' q ->
    finishes f pp q.

(** What is left to do on a parse: two per word in the buffer (a shift and
    an arc) and one per stack entry. *)
Definition potential (pp : PartialParse) : nat :=
  Z.to_nat (2 * (Py.len (sentence pp) - next pp) + Py.len (stack pp)).

(** The measure that every pass of the driver decreases. *)
Definition workload (store : list PartialParse) (unfinished_parses : list nat)
  : nat :=
  list_sum (map (fun r => S (potential (store_get store r))) unfinished_parses).

(** The reference [r] is valid and its parse is not complete. *)
Definition open_in (store : list PartialParse) (r : nat) : Prop :=
  (r < List.length store)%nat /\
  complete (store_get store r) = (Return false, store_get store r).

(** ** Notions used in the further properties *)

(** The labels of the arc operations of a list of pairs, in order. *)
Definition arc_labels (tds : list td_pair) : list (option string) :=
  map snd (filter is_arc_op tds).

(** The two ends of an arc, the lower one first. *)
Definition arc_lo (a : arc) : Z := Z.min (arc_head a) (arc_dep a).

Definition arc_hi (a : arc) : Z := Z.max (arc_head a) (arc_dep a).

(** [x] lies strictly between the two ends of [a]. *)
Definition under_arc (a : arc) (x : Z) : Prop := arc_lo a < x < arc_hi a.

(** Two arcs cross: exactly one end of each lies strictly between the ends
    of the other. *)
Definition crosses (a b : arc) : Prop :=
  (arc_lo a < arc_lo b /\ arc_lo b < arc_hi a /\ arc_hi a < arc_hi b) \/
  (arc_lo b < arc_lo a /\ arc_lo a < arc_hi b /\ arc_hi b < arc_hi a).

(** The shape of the arcs of a configuration: heads below the frontier, no
    stack entry under an arc, no two arcs crossing. *)
Record arcs_shape (pp : PartialParse) : Prop := {
  as_ends : forall a, In a (arcs pp) ->
                      0 <= arc_head a < next pp /\ arc_head a <> arc_dep a;
  as_free : forall a x, In a (arcs pp) -> In x (stack pp) -> ~ under_arc a x;
  as_cross : forall a b, In a (arcs pp) -> In b (arcs pp) -> ~ crosses a b
}.

(** The dependants of [i] to its right, in creation order. *)
Definition right_deps_of (i : Z) (l : list arc) : list Z :=
  filter (fun d => i <? d) (deps_of i l).

(** The dependants of [i] to its left, in creation order. *)
Definition left_deps_of (i : Z) (l : list arc) : list Z :=
  filter (fun d => d <? i) (deps_of i l).

(** A method that leaves the object as it found it, whatever it returns. *)
Definition reads {A : Type} (m : M A) : Prop := forall pp, snd (m pp) = pp.

(** A run in which every transition is the oracle's answer. *)
Inductive oracle_steps (graph : DependencyGraph)
  : PartialParse -> list td_pair -> PartialParse -> Prop :=
| OS_nil pp : oracle_steps graph pp [] pp
| OS_cons pp td pp1 tds pp2 :
    get_oracle graph pp = (Return td, pp) ->
    parse_step (fst td) (snd td) pp = (Return tt, pp1) ->
    oracle_steps graph pp1 tds pp2 ->
    oracle_steps graph pp (td :: tds) pp2.

(** Exactly one end of [b] lies strictly between the ends of [a]. *)
Definition straddles (a b : arc) : Prop :=
  (under_arc a (arc_head b) /\ ~ under_arc a (arc_dep b)) \/
  (under_arc a (arc_dep b) /\ ~ under_arc a (arc_head b)).

(** What [predict] proposes for a parse, where it proposes something. *)
Definition dummy_decision (pp : PartialParse) : td_pair :=
  match predict_one pp with
  | Return td => td
  | Raise _ => (shift_id, None)
  end.

(** The sentence of the parse has a word. *)
Definition has_word (pp : PartialParse) : Prop := 2 <= Py.len (sentence pp).

(** The arcs [(k-1, k), ..., (1, 2), (0, 1)]. *)
Fixpoint right_chain (k : nat) : list arc :=
  match k with
  | O => []
  | S k' => (Z.of_nat k', Z.of_nat k, Some "deprel"%string) :: right_chain k'
  end.

(** The arcs [(n, k), ..., (n, 1), (0, n)]. *)
Fixpoint left_chain (n : Z) (k : nat) : list arc :=
  match k with
  | O => [(0, n, Some "deprel"%string)]
  | S k' => (n, Z.of_nat k, Some "deprel"%string) :: left_chain n k'
  end.

(** The arcs that [DummyModel] leads to on a sentence, in creation order. *)
Definition dummy_arcs (s : list (string * string)) : list arc :=
  match s with
  | [] => []
  | wt :: _ =>
      if String.eqb (fst wt) "left"
      then left_chain (Z.of_nat (List.length s)) (List.length s - 1)
      else right_chain (List.length s)
  end.

(** Two objects that differ at most in the order of their arcs. *)
Definition same_but_arcs (q q2 : PartialParse) : Prop :=
  sentence q2 = sentence q /\ stack q2 = stack q /\ next q2 = next q /\
  (forall a, In a (arcs q2) <-> In a (arcs q)).

(** The parse [r] after a pass in which the proposal for the parse of
    reference [r] is [h r], and whether it stays among the unfinished ones. *)
Definition after_ref (h : nat -> td_pair) (store : list PartialParse) (r : nat)
  : PartialParse :=
  fst (advance (h r) (store_get store r)).

Definition stays_ref (h : nat -> td_pair) (store : list PartialParse) (r : nat)
  : bool :=
  negb (snd (advance (h r) (store_get store r))).

(** * Properties *)

(** ** Python list primitives on a list with a known end *)

Section PyLists.

Context {A : Type}.

Lemma len_app (l1 l2 : list A) : Py.len (l1 ++ l2) = Py.len l1 + Py.len l2.
Proof. unfold Py.len. rewrite length_app. lia. Qed.

Lemma len_nonneg (l : list A) : 0 <= Py.len l.
Proof. unfold Py.len. lia. Qed.

Lemma norm_index_neg (n k : Z) :
  0 < k <= n -> Py.norm_index n (- k) = Some (Z.to_nat (n - k)).
Proof.
  intros H. unfold Py.norm_index.
  destruct (Z.ltb_spec (- k) 0); [|lia].
  destruct (Z.leb_spec 0 (- k + n)); [|lia].
  destruct (Z.ltb_spec (- k + n) n); [|lia].
  simpl. f_equal. f_equal. lia.
Qed.

Lemma norm_index_neg_out (n k : Z) :
  0 <= n < k -> Py.norm_index n (- k) = None.
Proof.
  intros H. unfold Py.norm_index.
  destruct (Z.ltb_spec (- k) 0); [|lia].
  destruct (Z.leb_spec 0 (- k + n)); [lia|]. reflexivity.
Qed.

Lemma getitem_last (l : list A) (x : A) : Py.getitem (l ++ [x]) (-1) = Some x.
Proof.
  unfold Py.getitem. rewrite (norm_index_neg _ 1).
  - rewrite len_app. unfold Py.len. simpl.
    replace (Z.to_nat (Z.of_nat (List.length l) + 1 - 1)) with (List.length l) by lia.
    rewrite nth_error_app2 by lia. rewrite Nat.sub_diag. reflexivity.
  - rewrite len_app. pose proof (len_nonneg l). unfold Py.len at 2. simpl. lia.
Qed.

Lemma getitem_second (l : list A) (x y : A) :
  Py.getitem (l ++ [x; y]) (-2) = Some x.
Proof.
  unfold Py.getitem. rewrite (norm_index_neg _ 2).
  - rewrite len_app. unfold Py.len. simpl.
    replace (Z.to_nat (Z.of_nat (List.length l) + 2 - 2)) with (List.length l) by lia.
    rewrite nth_error_app2 by lia. rewrite Nat.sub_diag. reflexivity.
  - rewrite len_app. pose proof (len_nonneg l). unfold Py.len at 2. simpl. lia.
Qed.

Lemma remove_at_app (l r : list A) (x : A) :
  Py.remove_at (List.length l) (l ++ x :: r) = l ++ r.
Proof. induction l as [|a l IH]; simpl; [reflexivity | now rewrite IH]. Qed.

Lemma delitem_last (l : list A) (x : A) : Py.delitem (l ++ [x]) (-1) = Some l.
Proof.
  unfold Py.delitem. rewrite (norm_index_neg _ 1).
  - rewrite len_app. unfold Py.len. simpl.
    replace (Z.to_nat (Z.of_nat (List.length l) + 1 - 1)) with (List.length l) by lia.
    rewrite remove_at_app. now rewrite app_nil_r.
  - rewrite len_app. pose proof (len_nonneg l). unfold Py.len at 2. simpl. lia.
Qed.

Lemma delitem_second (l : list A) (x y : A) :
  Py.delitem (l ++ [x; y]) (-2) = Some (l ++ [y]).
Proof.
  unfold Py.delitem. rewrite (norm_index_neg _ 2).
  - rewrite len_app. unfold Py.len. simpl.
    replace (Z.to_nat (Z.of_nat (List.length l) + 2 - 2)) with (List.length l) by lia.
    now rewrite remove_at_app.
  - rewrite len_app. pose proof (len_nonneg l). unfold Py.len at 2. simpl. lia.
Qed.

(** A list of at least one (two) elements, split at its end. *)
Lemma split_last (l : list A) :
  1 <= Py.len l -> exists r t, l = r ++ [t].
Proof.
  intros H. destruct (exists_last (l := l)) as (r & t & ->).
  - intros ->. unfold Py.len in H. simpl in H. lia.
  - eauto.
Qed.

Lemma split_last2 (l : list A) :
  2 <= Py.len l -> exists r s t, l = r ++ [s; t].
Proof.
  intros H. destruct (split_last l) as (r' & t & ->); [lia|].
  rewrite len_app in H. unfold Py.len at 2 in H. simpl in H.
  destruct (split_last r') as (r & s & ->); [lia|].
  exists r, s, t. now rewrite <- app_assoc.
Qed.

Lemma getitem_zero (x : A) (l : list A) : Py.getitem (x :: l) 0 = Some x.
Proof.
  unfold Py.getitem, Py.norm_index, Py.len. simpl.
  destruct (Z.ltb_spec 0 (Z.pos (Pos.of_succ_nat (List.length l)))); [|lia].
  reflexivity.
Qed.

End PyLists.

(** ** One transition *)

Lemma parse_step_shift_ok (pp : PartialParse) (deprel : option string) :
  next pp <> Py.len (sentence pp) ->
  parse_step shift_id deprel pp = (Return tt, shifted pp).
Proof.
  intros H. unfold parse_step. cbn [Z.eqb Pos.eqb shift_id left_arc_id right_arc_id].
  unfold_meth. destruct (Z.eqb_spec (next pp) (Py.len (sentence pp))); [contradiction|].
  reflexivity.
Qed.

Lemma parse_step_shift_fail (pp : PartialParse) (deprel : option string) :
  next pp = Py.len (sentence pp) ->
  parse_step shift_id deprel pp = (Raise (ValueError "Illegal Shift"), pp).
Proof.
  intros H. unfold parse_step. cbn [Z.eqb Pos.eqb shift_id left_arc_id right_arc_id].
  unfold_meth. rewrite H, Z.eqb_refl. reflexivity.
Qed.

Lemma parse_step_left_ok (pp : PartialParse) (deprel : option string)
    (rest : list Z) (second top : Z) :
  stack pp = rest ++ [second; top] -> rest <> [] ->
  parse_step left_arc_id deprel pp =
  (Return tt, reduced pp (rest ++ [top]) (top, second, deprel)).
Proof.
  intros H Hr. unfold parse_step. cbn [Z.eqb left_arc_id].
  unfold_meth.
  destruct (Z.ltb_spec (Py.len (stack pp)) 3) as [Hl|Hl].
  - rewrite H, len_app in Hl. destruct rest; [contradiction|].
    unfold Py.len in Hl. simpl in Hl. lia.
  - cbv beta. rewrite H.
    replace (rest ++ [second; top]) with ((rest ++ [second]) ++ [top])
      by now rewrite <- app_assoc.
    rewrite getitem_last. cbv beta iota. rewrite H, getitem_second.
    cbv beta iota. rewrite H, delitem_second. reflexivity.
Qed.

Lemma parse_step_left_fail (pp : PartialParse) (deprel : option string) :
  Py.len (stack pp) < 3 ->
  parse_step left_arc_id deprel pp = (Raise (ValueError "Illegal Left Arc"), pp).
Proof.
  intros H. unfold parse_step. cbn [Z.eqb left_arc_id]. unfold_meth.
  destruct (Z.ltb_spec (Py.len (stack pp)) 3); [reflexivity | lia].
Qed.

Lemma parse_step_right_ok (pp : PartialParse) (deprel : option string)
    (rest : list Z) (second top : Z) :
  stack pp = rest ++ [second; top] ->
  parse_step right_arc_id deprel pp =
  (Return tt, reduced pp (rest ++ [second]) (second, top, deprel)).
Proof.
  intros H. unfold parse_step. cbn [Z.eqb Pos.eqb left_arc_id right_arc_id].
  unfold_meth.
  destruct (Z.ltb_spec (Py.len (stack pp)) 2) as [Hl|Hl].
  - rewrite H, len_app in Hl. pose proof (len_nonneg rest).
    unfold Py.len at 2 in Hl. simpl in Hl. lia.
  - assert (H' : stack pp = (rest ++ [second]) ++ [top])
      by now rewrite <- app_assoc.
    cbv beta. rewrite H, getitem_second. cbv beta iota.
    rewrite H', getitem_last. cbv beta iota.
    rewrite H', delitem_last. reflexivity.
Qed.

Lemma parse_step_right_fail (pp : PartialParse) (deprel : option string) :
  Py.len (stack pp) < 2 ->
  parse_step right_arc_id deprel pp = (Raise (ValueError "Illegal Left Arc"), pp).
Proof.
  intros H. unfold parse_step. cbn [Z.eqb Pos.eqb left_arc_id right_arc_id]. unfold_meth.
  destruct (Z.ltb_spec (Py.len (stack pp)) 2); [reflexivity | lia].
Qed.

Lemma parse_step_unknown (pp : PartialParse) (tid : Z) (deprel : option string) :
  tid <> left_arc_id -> tid <> right_arc_id -> tid <> shift_id ->
  parse_step tid deprel pp = (Raise (ValueError "Unknown transition"), pp).
Proof.
  intros H0 H1 H2. unfold parse_step.
  destruct (Z.eqb_spec tid left_arc_id); [contradiction|].
  destruct (Z.eqb_spec tid right_arc_id); [contradiction|].
  destruct (Z.eqb_spec tid shift_id); [contradiction|].
  reflexivity.
Qed.

Lemma id_cases (tid : Z) :
  tid = left_arc_id \/ tid = right_arc_id \/ tid = shift_id \/
  (tid <> left_arc_id /\ tid <> right_arc_id /\ tid <> shift_id).
Proof. unfold left_arc_id, right_arc_id, shift_id. lia. Qed.

Lemma parse_step_inv (pp pp' : PartialParse) (tid : Z) (deprel : option string)
    (u : unit) :
  parse_step tid deprel pp = (Return u, pp') -> transition pp (tid, deprel) pp'.
Proof.
  intros H.
  destruct (id_cases tid) as [-> | [-> | [-> | (H0 & H1 & H2)]]].
  - destruct (Z.lt_ge_cases (Py.len (stack pp)) 3) as [Hl|Hl].
    + rewrite parse_step_left_fail in H by assumption. discriminate.
    + destruct (split_last2 (stack pp)) as (r & s & t & Hs); [lia|].
      assert (Hr : r <> []).
      { intros ->. rewrite Hs in Hl. unfold Py.len in Hl. simpl in Hl. lia. }
      rewrite (parse_step_left_ok _ _ _ _ _ Hs Hr) in H.
      destruct u. injection H as <-. now constructor.
  - destruct (Z.lt_ge_cases (Py.len (stack pp)) 2) as [Hl|Hl].
    + rewrite parse_step_right_fail in H by assumption. discriminate.
    + destruct (split_last2 (stack pp)) as (r & s & t & Hs); [lia|].
      rewrite (parse_step_right_ok _ _ _ _ _ Hs) in H.
      destruct u. injection H as <-. now constructor.
  - destruct (Z.eq_dec (next pp) (Py.len (sentence pp))) as [He|He].
    + rewrite parse_step_shift_fail in H by assumption. discriminate.
    + rewrite parse_step_shift_ok in H by assumption.
      destruct u. injection H as <-. now constructor.
  - rewrite parse_step_unknown in H by assumption. discriminate.
Qed.

Lemma transition_parse_step (pp pp' : PartialParse) (td : td_pair) :
  transition pp td pp' -> parse_step (fst td) (snd td) pp = (Return tt, pp').
Proof.
  intros H. destruct H; cbn [fst snd].
  - now apply parse_step_shift_ok.
  - now apply parse_step_left_ok.
  - now apply parse_step_right_ok.
Qed.

(** A raise of [parse_step] is a ValueError and leaves the object as it was. *)
Lemma parse_step_raise_inv (pp pp' : PartialParse) (tid : Z)
    (deprel : option string) (e : exn) :
  parse_step tid deprel pp = (Raise e, pp') ->
  pp' = pp /\ exists msg, e = ValueError msg.
Proof.
  intros H.
  destruct (id_cases tid) as [-> | [-> | [-> | (H0 & H1 & H2)]]].
  - destruct (Z.lt_ge_cases (Py.len (stack pp)) 3) as [Hl|Hl].
    + rewrite parse_step_left_fail in H by assumption.
      injection H as <- <-. eauto.
    + destruct (split_last2 (stack pp)) as (r & s & t & Hs); [lia|].
      assert (Hr : r <> []).
      { intros ->. rewrite Hs in Hl. unfold Py.len in Hl. simpl in Hl. lia. }
      rewrite (parse_step_left_ok _ _ _ _ _ Hs Hr) in H. discriminate.
  - destruct (Z.lt_ge_cases (Py.len (stack pp)) 2) as [Hl|Hl].
    + rewrite parse_step_right_fail in H by assumption.
      injection H as <- <-. eauto.
    + destruct (split_last2 (stack pp)) as (r & s & t & Hs); [lia|].
      rewrite (parse_step_right_ok _ _ _ _ _ Hs) in H. discriminate.
  - destruct (Z.eq_dec (next pp) (Py.len (sentence pp))) as [He|He].
    + rewrite parse_step_shift_fail in H by assumption.
      injection H as <- <-. eauto.
    + rewrite parse_step_shift_ok in H by assumption. discriminate.
  - rewrite parse_step_unknown in H by assumption.
    injection H as <- <-. eauto.
Qed.

(** ** Completion *)

Lemma complete_value (pp : PartialParse) :
  complete pp =
  (Return ((next pp =? Py.len (sentence pp)) &&
           (Py.len (stack pp) =? 1) &&
           match stack pp with x :: _ => x =? 0 | [] => false end), pp).
Proof.
  unfold complete. unfold_meth.
  destruct (next pp =? Py.len (sentence pp)); [|reflexivity].
  destruct (stack pp) as [|x l] eqn:Hs.
  - reflexivity.
  - destruct (Py.len (x :: l) =? 1); [|reflexivity].
    cbv beta. rewrite Hs, getitem_zero.
    destruct (x =? 0); reflexivity.
Qed.

Lemma complete_spec (pp : PartialParse) :
  exists b : bool,
    complete pp = (Return b, pp) /\
    (b = true <-> next pp = Py.len (sentence pp) /\ stack pp = [0]).
Proof.
  eexists. split; [apply complete_value|].
  destruct (Z.eqb_spec (next pp) (Py.len (sentence pp))) as [Hn|Hn]; cbn [andb].
  - destruct (stack pp) as [|x [|y l]]; unfold Py.len; cbn [List.length].
    + split; [discriminate | intros [_ H]; discriminate].
    + change (Z.of_nat 1 =? 1) with true. cbn [andb].
      destruct (Z.eqb_spec x 0) as [->|Hx].
      * tauto.
      * split; [discriminate | intros [_ H]; congruence].
    + destruct (Z.eqb_spec (Z.of_nat (S (S (List.length l)))) 1); [lia|].
      split; [discriminate | intros [_ H]; discriminate].
  - split; [discriminate | tauto].
Qed.

Lemma complete_true_iff (pp : PartialParse) :
  complete pp = (Return true, pp) <->
  next pp = Py.len (sentence pp) /\ stack pp = [0].
Proof.
  destruct (complete_spec pp) as (b & Hc & Hb). rewrite Hc. split.
  - intros H. apply Hb. congruence.
  - intros H. apply Hb in H. now subst.
Qed.

(** C9: [complete] returns true exactly when [next == len(sentence)] and the
    stack is [[0]]; evaluating it raises nothing and leaves the stack, the
    frontier and the arcs (the whole object) as they were. *)
Theorem complete_iff_pure (pp : PartialParse) :
  exists b : bool,
    complete pp = (Return b, pp) /\
    (b = true <-> next pp = Py.len (sentence pp) /\ stack pp = [0]).
Proof. apply complete_spec. Qed.

(** ** What a transition does, and when it fails *)

(** C3: under its precondition each transition has exactly the tabulated
    effect: shift pushes the frontier and increments it; left-arc appends
    [(stack[-1], stack[-2], label)] and deletes [stack[-2]]; right-arc appends
    [(stack[-2], stack[-1], label)] and deletes [stack[-1]]; the other
    attributes are unchanged, and shift does not look at its label. *)
Theorem parse_step_effect (pp : PartialParse) (deprel : option string) :
  (next pp < Py.len (sentence pp) ->
   parse_step shift_id deprel pp =
   (Return tt,
    {| sentence := sentence pp; stack := stack pp ++ [next pp];
       next := next pp + 1; arcs := arcs pp |})) /\
  (3 <= Py.len (stack pp) ->
   exists rest second top,
     stack pp = rest ++ [second; top] /\
     Py.getitem (stack pp) (-1) = Some top /\
     Py.getitem (stack pp) (-2) = Some second /\
     parse_step left_arc_id deprel pp =
     (Return tt,
      {| sentence := sentence pp; stack := rest ++ [top];
         next := next pp; arcs := arcs pp ++ [(top, second, deprel)] |})) /\
  (2 <= Py.len (stack pp) ->
   exists rest second top,
     stack pp = rest ++ [second; top] /\
     Py.getitem (stack pp) (-1) = Some top /\
     Py.getitem (stack pp) (-2) = Some second /\
     parse_step right_arc_id deprel pp =
     (Return tt,
      {| sentence := sentence pp; stack := rest ++ [second];
         next := next pp; arcs := arcs pp ++ [(second, top, deprel)] |})) /\
  (forall deprel' : option string,
     parse_step shift_id deprel pp = parse_step shift_id deprel' pp).
Proof.
  assert (Hget : forall rest second top,
             stack pp = rest ++ [second; top] ->
             Py.getitem (stack pp) (-1) = Some top /\
             Py.getitem (stack pp) (-2) = Some second).
  { intros rest second top Hs. rewrite Hs. split.
    - replace (rest ++ [second; top]) with ((rest ++ [second]) ++ [top])
        by now rewrite <- app_assoc.
      apply getitem_last.
    - apply getitem_second. }
  split; [|split; [|split]].
  - intros H. apply parse_step_shift_ok. lia.
  - intros H. destruct (split_last2 (stack pp)) as (r & s & t & Hs); [lia|].
    exists r, s, t. destruct (Hget _ _ _ Hs) as [H1 H2].
    repeat split; try assumption.
    apply parse_step_left_ok; [assumption|].
    intros ->. rewrite Hs in H. unfold Py.len in H. simpl in H. lia.
  - intros H. destruct (split_last2 (stack pp)) as (r & s & t & Hs); [lia|].
    exists r, s, t. destruct (Hget _ _ _ Hs) as [H1 H2].
    repeat split; try assumption.
    now apply parse_step_right_ok.
  - intros deprel'.
    destruct (Z.eq_dec (next pp) (Py.len (sentence pp))) as [He|He].
    + now rewrite !parse_step_shift_fail.
    + now rewrite !parse_step_shift_ok.
Qed.

Lemma parse_step_outcome (pp : PartialParse) (tid : Z) (deprel : option string) :
  (illegal tid pp /\
   exists msg, parse_step tid deprel pp = (Raise (ValueError msg), pp)) \/
  (~ illegal tid pp /\
   exists pp', parse_step tid deprel pp = (Return tt, pp')).
Proof.
  unfold illegal.
  destruct (id_cases tid) as [-> | [-> | [-> | (H0 & H1 & H2)]]].
  - destruct (Z.lt_ge_cases (Py.len (stack pp)) 3) as [Hl|Hl].
    + left. split; [tauto|]. eexists. now apply parse_step_left_fail.
    + right. split.
      * unfold left_arc_id, right_arc_id, shift_id. lia.
      * destruct (split_last2 (stack pp)) as (r & s & t & Hs); [lia|].
        eexists. apply (parse_step_left_ok _ _ _ _ _ Hs).
        intros ->. rewrite Hs in Hl. unfold Py.len in Hl. simpl in Hl. lia.
  - destruct (Z.lt_ge_cases (Py.len (stack pp)) 2) as [Hl|Hl].
    + left. split; [tauto|]. eexists. now apply parse_step_right_fail.
    + right. split.
      * unfold left_arc_id, right_arc_id, shift_id. lia.
      * destruct (split_last2 (stack pp)) as (r & s & t & Hs); [lia|].
        eexists. apply (parse_step_right_ok _ _ _ _ _ Hs).
  - destruct (Z.eq_dec (next pp) (Py.len (sentence pp))) as [He|He].
    + left. split; [tauto|]. eexists. now apply parse_step_shift_fail.
    + right. split.
      * unfold left_arc_id, right_arc_id, shift_id. lia.
      * eexists. now apply parse_step_shift_ok.
  - left. split; [tauto|]. eexists. now apply parse_step_unknown.
Qed.

(** C4: [parse_step] raises exactly when the requested transition is
    illegal (left-arc with fewer than 3 stack entries, right-arc with fewer
    than 2, shift with [next == len(sentence)], or an identifier that is none
    of the three); what it raises is a ValueError; otherwise it succeeds and
    returns nothing. *)
Theorem parse_step_raises_iff (pp : PartialParse) (transition_id : Z)
    (deprel : option string) :
  ((exists e pp', parse_step transition_id deprel pp = (Raise e, pp')) <->
   illegal transition_id pp) /\
  (forall e pp', parse_step transition_id deprel pp = (Raise e, pp') ->
                 exists msg, e = ValueError msg) /\
  (~ illegal transition_id pp ->
   exists pp', parse_step transition_id deprel pp = (Return tt, pp')).
Proof.
  destruct (parse_step_outcome pp transition_id deprel)
    as [(Hi & msg & Hp) | (Hi & pp1 & Hp)].
  - repeat split.
    + intros _. exact Hi.
    + intros _. eauto.
    + intros e pp' H. rewrite Hp in H. injection H as <- _. eauto.
    + intros Hn. contradiction.
  - repeat split.
    + intros (e & pp' & H). rewrite Hp in H. discriminate.
    + intros H. contradiction.
    + intros e pp' H. rewrite Hp in H. discriminate.
    + intros _. eauto.
Qed.

(** C10: a failed [parse_step] is atomic: whenever it raises, the stack, the
    frontier and the arcs (the whole object) are what they were before the
    call. *)
Theorem parse_step_failure_atomic (pp pp' : PartialParse) (transition_id : Z)
    (deprel : option string) (e : exn) :
  parse_step transition_id deprel pp = (Raise e, pp') ->
  pp' = pp /\ stack pp' = stack pp /\ next pp' = next pp /\ arcs pp' = arcs pp.
Proof.
  intros H. apply parse_step_raise_inv in H. destruct H as [-> _]. tauto.
Qed.

Lemma parse_step_failure_atomic_witness :
  let pp := init [("a", "b")]%string in
  parse_step left_arc_id None pp = (Raise (ValueError "Illegal Left Arc"), pp) /\
  (pp = pp /\ stack pp = stack pp /\ next pp = next pp /\ arcs pp = arcs pp).
Proof.
  split; [reflexivity|].
  apply (parse_step_failure_atomic _ _ left_arc_id None
           (ValueError "Illegal Left Arc")).
  reflexivity.
Defined.

(** ** Runs *)

Lemma steps_nil (pp : PartialParse) : steps pp [] pp.
Proof. reflexivity. Qed.

Lemma steps_nil_inv (pp pp' : PartialParse) : steps pp [] pp' -> pp' = pp.
Proof. unfold steps. cbn. unfold get_arcs. congruence. Qed.

Lemma steps_cons (pp pp1 pp2 : PartialParse) (td : td_pair) (tds : list td_pair) :
  transition pp td pp1 -> steps pp1 tds pp2 -> steps pp (td :: tds) pp2.
Proof.
  intros Ht Hs. unfold steps in *. destruct td as [tid d]. cbn [parse].
  unfold bind. apply transition_parse_step in Ht. cbn [fst snd] in Ht.
  now rewrite Ht.
Qed.

Lemma steps_cons_inv (pp pp2 : PartialParse) (td : td_pair) (tds : list td_pair) :
  steps pp (td :: tds) pp2 ->
  exists pp1, transition pp td pp1 /\ steps pp1 tds pp2.
Proof.
  unfold steps. destruct td as [tid d]. cbn [parse]. unfold bind.
  destruct (parse_step tid d pp) as [[u|e] pp1] eqn:Hp; [|discriminate].
  intros H. exists pp1. split; [|exact H].
  now apply parse_step_inv in Hp.
Qed.

Lemma steps_app (pp pp1 pp2 : PartialParse) (tds1 tds2 : list td_pair) :
  steps pp tds1 pp1 -> steps pp1 tds2 pp2 -> steps pp (tds1 ++ tds2) pp2.
Proof.
  revert pp. induction tds1 as [|td tds1 IH]; intros pp H1 H2.
  - apply steps_nil_inv in H1. now subst.
  - apply steps_cons_inv in H1. destruct H1 as (pp' & Ht & H1).
    cbn [app]. eapply steps_cons; eauto.
Qed.

(** An invariant of single transitions holds along runs. *)
Lemma steps_invariant (P : PartialParse -> Prop) :
  (forall pp td pp', P pp -> transition pp td pp' -> P pp') ->
  forall tds pp pp', P pp -> steps pp tds pp' -> P pp'.
Proof.
  intros Hstep. induction tds as [|td tds IH]; intros pp pp' HP Hs.
  - apply steps_nil_inv in Hs. now subst.
  - apply steps_cons_inv in Hs. destruct Hs as (pp1 & Ht & Hs).
    eapply IH; [|exact Hs]. eapply Hstep; eauto.
Qed.

(** ** The configuration invariants *)

Lemma transition_sentence (pp pp' : PartialParse) (td : td_pair) :
  transition pp td pp' -> sentence pp' = sentence pp.
Proof. intros H. destruct H; reflexivity. Qed.

Lemma transition_inv_stack (pp pp' : PartialParse) (td : td_pair) :
  inv_stack pp -> transition pp td pp' -> inv_stack pp'.
Proof.
  intros (r0 & H0) Ht. unfold inv_stack. destruct Ht; cbn [stack shifted reduced].
  - rewrite H0. now exists (r0 ++ [next pp]).
  - destruct rest as [|x rest']; [contradiction|].
    rewrite H0 in H. cbn [app] in H. injection H as <- _.
    now exists (rest' ++ [top]).
  - destruct rest as [|x rest'].
    + rewrite H0 in H. cbn [app] in H. injection H as <- _. now exists [].
    + rewrite H0 in H. cbn [app] in H. injection H as <- _.
      now exists (rest' ++ [second]).
Qed.

Lemma transition_inv_frontier (pp pp' : PartialParse) (td : td_pair) :
  inv_frontier pp -> transition pp td pp' -> inv_frontier pp'.
Proof.
  unfold inv_frontier. intros H0 Ht.
  destruct Ht; cbn [next sentence shifted reduced]; lia.
Qed.

Lemma transition_inv_indices (pp pp' : PartialParse) (td : td_pair) :
  inv_frontier pp -> inv_indices pp -> transition pp td pp' -> inv_indices pp'.
Proof.
  unfold inv_frontier, inv_indices, in_range.
  intros Hf [Hst Har] Ht.
  destruct Ht; cbn [stack arcs next sentence shifted reduced].
  - split; [|exact Har].
    intros i Hi. apply in_app_or in Hi. destruct Hi as [Hi|[<-|[]]]; [auto|lia].
  - assert (Ht : 0 <= top < Py.len (sentence pp)).
    { apply Hst. rewrite H. apply in_or_app. right. simpl. tauto. }
    assert (Hs : 0 <= second < Py.len (sentence pp)).
    { apply Hst. rewrite H. apply in_or_app. right. simpl. tauto. }
    split.
    + intros i Hi. apply Hst. rewrite H. apply in_app_or in Hi.
      apply in_or_app. destruct Hi as [Hi|[<-|[]]]; [tauto|]. right. simpl. tauto.
    + intros a Ha. apply in_app_or in Ha. destruct Ha as [Ha|[<-|[]]]; [auto|].
      cbn. tauto.
  - assert (Ht : 0 <= top < Py.len (sentence pp)).
    { apply Hst. rewrite H. apply in_or_app. right. simpl. tauto. }
    assert (Hs : 0 <= second < Py.len (sentence pp)).
    { apply Hst. rewrite H. apply in_or_app. right. simpl. tauto. }
    split.
    + intros i Hi. apply Hst. rewrite H. apply in_app_or in Hi.
      apply in_or_app. destruct Hi as [Hi|[<-|[]]]; [tauto|]. right. simpl. tauto.
    + intros a Ha. apply in_app_or in Ha. destruct Ha as [Ha|[<-|[]]]; [auto|].
      cbn. tauto.
Qed.

(** C5 (amended): a successful transition preserves the invariants of the
    configuration: the stack is non-empty with [stack[0] == 0], the frontier
    lies in [[1, len(sentence)]], and every index in the stack and in the arcs
    lies in [[0, len(sentence))]; the sentence is not changed. *)
Theorem parse_step_preserves_invariants (pp pp' : PartialParse)
    (transition_id : Z) (deprel : option string) :
  inv_stack pp -> inv_frontier pp -> inv_indices pp ->
  parse_step transition_id deprel pp = (Return tt, pp') ->
  sentence pp' = sentence pp /\
  inv_stack pp' /\ inv_frontier pp' /\ inv_indices pp'.
Proof.
  intros Hs Hf Hi Hp. apply parse_step_inv in Hp.
  split; [eapply transition_sentence; eauto|].
  split; [eapply transition_inv_stack; eauto|].
  split; [eapply transition_inv_frontier; eauto|].
  eapply transition_inv_indices; eauto.
Qed.

Lemma init_invariants (s : list (string * string)) :
  inv_stack (init s) /\ inv_frontier (init s) /\ inv_indices (init s).
Proof.
  unfold inv_stack, inv_frontier, inv_indices, in_range, init, Py.len.
  cbn [stack next arcs sentence List.length].
  split; [now exists []|]. split; [lia|]. split.
  - intros i [<-|[]]. lia.
  - intros a [].
Qed.

Lemma parse_step_preserves_invariants_witness :
  let pp := init [("a", "b")]%string in
  let pp' := {| sentence := sentence pp; stack := [0; 1]; next := 2; arcs := [] |} in
  sentence pp' = sentence pp /\
  inv_stack pp' /\ inv_frontier pp' /\ inv_indices pp'.
Proof.
  cbv zeta.
  apply (parse_step_preserves_invariants (init [("a", "b")]%string) _ shift_id None).
  - apply init_invariants.
  - apply init_invariants.
  - apply init_invariants.
  - reflexivity.
Defined.

(** C5 as stated fails: the shift that empties the buffer of a one-word
    sentence leaves the frontier at [len(sentence)], outside
    [[0, len(sentence))], where the stated third invariant puts it. *)
Lemma invariants_as_stated_not_preserved :
  let pp := init [("a", "b")]%string in
  let pp' := {| sentence := sentence pp; stack := [0; 1]; next := 2; arcs := [] |} in
  (inv_stack pp /\ inv_frontier pp /\ inv_indices_as_stated pp) /\
  parse_step shift_id None pp = (Return tt, pp') /\
  (inv_indices_as_stated pp' -> False).
Proof.
  cbv zeta. split; [|split].
  - pose proof (init_invariants [("a", "b")]%string) as (H1 & H2 & H3).
    split; [exact H1|]. split; [exact H2|]. split; [exact H3|].
    unfold in_range, Py.len. cbn. lia.
  - reflexivity.
  - intros [_ H]. unfold in_range, Py.len in H. cbn in H. lia.
Qed.

(** ** Counting along a run *)

Lemma zrange_succ (a : Z) (k : nat) : zrange a (S k) = a :: zrange (a + 1) k.
Proof.
  unfold zrange. cbn [seq map]. f_equal; [lia|].
  rewrite <- seq_shift, map_map. apply map_ext. intros i. lia.
Qed.

Lemma zrange_words (k : nat) : zrange 1 k = word_indices k.
Proof.
  unfold zrange, word_indices. rewrite <- seq_shift, map_map.
  apply map_ext. intros i. lia.
Qed.

Lemma tl_app_nonempty {A : Type} (l1 l2 : list A) :
  l1 <> [] -> tl (l1 ++ l2) = tl l1 ++ l2.
Proof. destruct l1; [contradiction | reflexivity]. Qed.

Lemma count_if_cons {A : Type} (f : A -> bool) (x : A) (l : list A) :
  count_if f (x :: l) = ((if f x then 1 else 0) + count_if f l)%nat.
Proof. unfold count_if. cbn [filter]. destruct (f x); reflexivity. Qed.

(** One transition, as the counters see it. *)
Lemma transition_counts (pp pp' : PartialParse) (td : td_pair) :
  stack pp <> [] -> transition pp td pp' ->
  stack pp' <> [] /\
  ((is_shift td = true /\ is_arc_op td = false /\
    next pp' = next pp + 1 /\
    Py.len (stack pp') = Py.len (stack pp) + 1 /\
    List.length (arcs pp') = List.length (arcs pp) /\
    Permutation (placed pp') (next pp :: placed pp)) \/
   (is_shift td = false /\ is_arc_op td = true /\
    next pp' = next pp /\
    Py.len (stack pp') = Py.len (stack pp) - 1 /\
    List.length (arcs pp') = S (List.length (arcs pp)) /\
    Permutation (placed pp') (placed pp))).
Proof.
  intros Hne Ht. unfold placed.
  destruct Ht; cbn [stack next arcs shifted reduced].
  - split; [now destruct (stack pp)|]. left.
    repeat split.
    + rewrite len_app. reflexivity.
    + rewrite tl_app_nonempty by assumption. rewrite <- app_assoc.
      apply Permutation_sym.
      apply (Permutation_middle (tl (stack pp)) (map arc_dep (arcs pp)) (next pp)).
  - split; [now destruct rest|]. right.
    repeat split.
    + rewrite H, !len_app. unfold Py.len. simpl. lia.
    + rewrite length_app. simpl. lia.
    + rewrite H, !tl_app_nonempty by assumption.
      rewrite map_app. cbn [map arc_dep fst snd].
      rewrite <- !app_assoc. apply Permutation_app_head. cbn [app].
      apply Permutation_sym.
      change (second :: top :: map arc_dep (arcs pp))
        with ([second] ++ top :: map arc_dep (arcs pp)).
      etransitivity; [apply Permutation_app_comm|]. cbn [app].
      reflexivity.
  - split; [now destruct rest|]. right.
    repeat split.
    + rewrite H, !len_app. unfold Py.len. simpl. lia.
    + rewrite length_app. simpl. lia.
    + rewrite map_app. cbn [map arc_dep fst snd]. rewrite H.
      destruct rest as [|x rest'].
      * cbn [app tl]. apply Permutation_sym, Permutation_cons_append.
      * cbn [app tl]. rewrite <- !app_assoc. apply Permutation_app_head.
        cbn [app]. apply perm_skip.
        apply Permutation_sym, Permutation_cons_append.
Qed.

Lemma steps_counts (tds : list td_pair) :
  forall pp pp',
    stack pp <> [] -> steps pp tds pp' ->
    sentence pp' = sentence pp /\
    (count_if is_shift tds + count_if is_arc_op tds = List.length tds)%nat /\
    next pp' = next pp + Z.of_nat (count_if is_shift tds) /\
    Py.len (stack pp') =
      Py.len (stack pp) + Z.of_nat (count_if is_shift tds)
      - Z.of_nat (count_if is_arc_op tds) /\
    List.length (arcs pp') =
      (List.length (arcs pp) + count_if is_arc_op tds)%nat /\
    Permutation (placed pp')
                (placed pp ++ zrange (next pp) (count_if is_shift tds)).
Proof.
  induction tds as [|td tds IH]; intros pp pp' Hne Hs.
  - apply steps_nil_inv in Hs. subst pp'. unfold count_if, zrange. cbn.
    rewrite app_nil_r. repeat split; try lia. apply Permutation_refl.
  - apply steps_cons_inv in Hs. destruct Hs as (pp1 & Ht & Hs).
    pose proof (transition_sentence _ _ _ Ht) as Hsen.
    destruct (transition_counts _ _ _ Hne Ht) as [Hne1 Hc].
    destruct (IH _ _ Hne1 Hs) as (I1 & I2 & I3 & I4 & I5 & I6).
    rewrite !count_if_cons. cbn [List.length].
    destruct Hc as [(C1 & C2 & C3 & C4 & C5 & C6) | (C1 & C2 & C3 & C4 & C5 & C6)];
      rewrite C1, C2.
    + repeat split; try congruence; try lia.
      cbn [Nat.add]. rewrite zrange_succ.
      etransitivity; [exact I6|]. rewrite C3.
      etransitivity; [apply Permutation_app_tail; exact C6|].
      cbn [app]. apply Permutation_middle.
    + repeat split; try congruence; try lia.
      cbn [Nat.add]. etransitivity; [exact I6|]. rewrite C3.
      now apply Permutation_app_tail.
Qed.

Lemma word_indices_count (n : nat) (i : Z) :
  1 <= i <= Z.of_nat n -> count_occ Z.eq_dec (word_indices n) i = 1%nat.
Proof.
  intros H. apply NoDup_count_occ'.
  - unfold word_indices. apply Finite.Injective_map_NoDup.
    + intros x y. apply Nat2Z.inj.
    + apply seq_NoDup.
  - unfold word_indices. apply in_map_iff. exists (Z.to_nat i).
    split; [lia|]. apply in_seq. lia.
Qed.

(** C6: a run of successful transitions from the initial configuration of
    an [n]-word sentence to a complete configuration has [2n] transitions,
    [n] of them shifts and [n] arc operations, and ends with [n] arcs in
    which every index [1..n] is the dependant of exactly one arc. *)
Theorem complete_run_counts (s : list (string * string))
    (tds : list td_pair) (pp : PartialParse) :
  steps (init s) tds pp ->
  complete pp = (Return true, pp) ->
  List.length tds = (2 * List.length s)%nat /\
  count_if is_shift tds = List.length s /\
  count_if is_arc_op tds = List.length s /\
  List.length (arcs pp) = List.length s /\
  Permutation (map arc_dep (arcs pp)) (word_indices (List.length s)) /\
  (forall i, 1 <= i <= Z.of_nat (List.length s) ->
             count_occ Z.eq_dec (map arc_dep (arcs pp)) i = 1%nat).
Proof.
  intros Hs Hc. apply complete_true_iff in Hc. destruct Hc as [Hn Hst].
  assert (Hne : stack (init s) <> []) by discriminate.
  destruct (steps_counts tds _ _ Hne Hs) as (I1 & I2 & I3 & I4 & I5 & I6).
  rewrite I1 in Hn. rewrite Hst in I4.
  unfold init, Py.len in Hn, I3, I4, I5. cbn [sentence stack next arcs List.length] in *.
  rewrite length_map in Hn.
  assert (Hk : count_if is_shift tds = List.length s) by lia.
  assert (Ha : count_if is_arc_op tds = List.length s) by lia.
  assert (Hp : Permutation (map arc_dep (arcs pp)) (word_indices (List.length s))).
  { unfold placed in I6. rewrite Hst in I6. cbn [tl app init stack arcs map next] in I6.
    rewrite Hk, zrange_words in I6. exact I6. }
  repeat split; try lia; try assumption.
  intros i Hi. rewrite (Permutation_count_occ Z.eq_dec) in Hp.
  rewrite Hp. now apply word_indices_count.
Qed.

Lemma complete_run_counts_witness :
  let s := [("a", "b")]%string in
  let tds := [(shift_id, None); (right_arc_id, Some "r"%string)] in
  let pp := {| sentence := sentence (init s); stack := [0]; next := 2;
               arcs := [(0, 1, Some "r"%string)] |} in
  List.length tds = (2 * List.length s)%nat /\
  count_if is_shift tds = List.length s /\
  count_if is_arc_op tds = List.length s /\
  List.length (arcs pp) = List.length s /\
  Permutation (map arc_dep (arcs pp)) (word_indices (List.length s)) /\
  (forall i, 1 <= i <= Z.of_nat (List.length s) ->
             count_occ Z.eq_dec (map arc_dep (arcs pp)) i = 1%nat).
Proof.
  cbv zeta.
  apply (complete_run_counts [("a", "b")]%string
           [(shift_id, None); (right_arc_id, Some "r"%string)]);
    reflexivity.
Defined.

(** ** The oracle on the test sentence *)

(** C2: on the five-word sentence with gold heads (1->ROOT, 2->3, 3->5, 4->3,
    5->1), the loop that asks the oracle and applies its answer until the
    parse is complete ends, with the transitions shift, shift, shift,
    left-arc, shift, right-arc, shift, left-arc, right-arc, right-arc, and with
    the five gold arcs (here in creation order, and as a set). *)
Theorem oracle_round_trip (extra : nat) :
  exists pp,
    oracle_loop (11 + extra) test_graph [] (init test_sentence) =
      Some (Return [shift_id; shift_id; shift_id; left_arc_id; shift_id;
                    right_arc_id; shift_id; left_arc_id; right_arc_id;
                    right_arc_id], pp) /\
    complete pp = (Return true, pp) /\
    arcs pp = [(3, 2, Some "deprel_2"); (3, 4, Some "deprel_4");
               (5, 3, Some "deprel_3"); (1, 5, Some "deprel_5");
               (0, 1, Some "ROOT")]%string /\
    Permutation (arcs pp)
                [(0, 1, Some "ROOT"); (3, 2, Some "deprel_2");
                 (5, 3, Some "deprel_3"); (3, 4, Some "deprel_4");
                 (1, 5, Some "deprel_5")]%string /\
    (forall a, In a (arcs pp) <-> In a (gold_arcs test_graph)).
Proof.
  exists {| sentence := sentence (init test_sentence); stack := [0]; next := 6;
            arcs := [(3, 2, Some "deprel_2"); (3, 4, Some "deprel_4");
                     (5, 3, Some "deprel_3"); (1, 5, Some "deprel_5");
                     (0, 1, Some "ROOT")]%string |}.
  split; [vm_compute; reflexivity|]. split; [reflexivity|].
  split; [reflexivity|]. split.
  - cbn [arcs].
    apply Permutation_sym, Permutation_cons_app with (l1 := [_; _; _; _]) (l2 := []).
    cbn [app]. apply perm_skip.
    apply Permutation_cons_app with (l1 := [_]) (l2 := [_]). cbn [app].
    apply Permutation_refl.
  - intros a. change (gold_arcs test_graph) with
      [(0, 1, Some "ROOT"); (1, 5, Some "deprel_5"); (3, 2, Some "deprel_2");
       (3, 4, Some "deprel_4"); (5, 3, Some "deprel_3")]%string.
    cbn [arcs In]. tauto.
Qed.

(** ** More invariants of configurations *)

Lemma descending_weaken (a b : Z) (l : list Z) :
  a <= b -> descending a l -> descending b l.
Proof. destruct l; cbn; [tauto | intros H [H1 H2]; split; [lia | exact H2]]. Qed.

Lemma transition_inv_order (pp pp' : PartialParse) (td : td_pair) :
  inv_order pp -> transition pp td pp' -> inv_order pp'.
Proof.
  unfold inv_order. intros Hord Ht.
  destruct Ht as [pp d Hn | pp d rest second top Hst Hr | pp d rest second top Hst];
    cbn [stack next shifted reduced].
  - rewrite rev_app_distr. cbn. split; [lia | exact Hord].
  - rewrite Hst in Hord. rewrite rev_app_distr in *. cbn in *.
    destruct Hord as (Ha & Hb & Hc). split; [exact Ha|].
    eapply descending_weaken; [|exact Hc]. lia.
  - rewrite Hst in Hord. rewrite rev_app_distr in *. cbn in *.
    destruct Hord as (Ha & Hb & Hc). split; [lia | exact Hc].
Qed.

Lemma configuration_invariants (s : list (string * string)) (pp : PartialParse) :
  configuration s pp -> invariants pp.
Proof.
  intros [tds Hs]. revert Hs. apply steps_invariant.
  - intros p td p' [I1 I2 I3 I4] Ht. constructor.
    + eapply transition_inv_stack; eauto.
    + eapply transition_inv_frontier; eauto.
    + eapply transition_inv_indices; eauto.
    + eapply transition_inv_order; eauto.
  - destruct (init_invariants s) as (I1 & I2 & I3). constructor; try assumption.
    unfold inv_order. cbn. lia.
Qed.

Lemma transition_arcs_grow (pp pp' : PartialParse) (td : td_pair) (a : arc) :
  transition pp td pp' -> In a (arcs pp) -> In a (arcs pp').
Proof.
  intros Ht Ha. destruct Ht; cbn [arcs shifted reduced];
    [assumption | apply in_or_app; now left | apply in_or_app; now left].
Qed.

Lemma steps_arcs_grow (tds : list td_pair) (pp pp' : PartialParse) (a : arc) :
  steps pp tds pp' -> In a (arcs pp) -> In a (arcs pp').
Proof.
  intros Hs Ha. revert Hs. revert pp' . revert Ha. revert pp.
  induction tds as [|td tds IH]; intros pp Ha pp' Hs.
  - apply steps_nil_inv in Hs. now subst.
  - apply steps_cons_inv in Hs. destruct Hs as (pp1 & Ht & Hs).
    eapply IH; [|exact Hs]. eapply transition_arcs_grow; eauto.
Qed.

(** ** Reading the gold graph *)

Lemma find_deprel_true (items : list (string * list Z)) (d : Z) :
  fst (find_deprel items d) = true <->
  exists item, In item items /\ In d (snd item).
Proof.
  induction items as [|[l ds] items IH]; cbn [find_deprel].
  - cbn. split; [discriminate | intros (i & [] & _)].
  - destruct (existsb (fun dep => dep =? d) ds) eqn:He.
    + cbn [fst]. split; [intros _ | reflexivity].
      apply existsb_exists in He. destruct He as (x & Hx & Hxd).
      apply Z.eqb_eq in Hxd. subst x. exists (l, ds). cbn. tauto.
    + rewrite IH. split.
      * intros (i & Hi & Hd). exists i. cbn. tauto.
      * intros (i & [<- | Hi] & Hd).
        -- cbn [snd] in Hd. exfalso.
           assert (Ht : existsb (fun dep => dep =? d) ds = true).
           { apply existsb_exists. exists d. split; [exact Hd | apply Z.eqb_refl]. }
           congruence.
        -- eauto.
Qed.

Lemma find_deprel_fst (items : list (string * list Z)) (d : Z) :
  fst (find_deprel items d) =
  existsb (fun item => existsb (fun dep => dep =? d) (snd item)) items.
Proof.
  induction items as [|[l ds] items IH]; [reflexivity|].
  cbn [find_deprel existsb snd].
  destruct (existsb (fun dep => dep =? d) ds); [reflexivity | exact IH].
Qed.

Lemma gold_arcs_inv (graph : DependencyGraph) (h d : Z) (l : option string) :
  In (h, d, l) (gold_arcs graph) ->
  0 <= h /\ fst (find_deprel (deps (graph_nodes graph h)) d) = true.
Proof.
  unfold gold_arcs, node_arcs. intros H.
  apply in_flat_map in H. destruct H as (k & Hk & H).
  apply in_flat_map in H. destruct H as (item & Hi & H).
  apply in_map_iff in H. destruct H as (d' & Heq & Hd).
  injection Heq as <- <- _. split; [lia|].
  apply find_deprel_true. exists item. split; [|exact Hd].
  unfold graph_nodes. destruct (Z.ltb_spec (Z.of_nat k) 0); [lia|].
  now rewrite Nat2Z.id.
Qed.

Lemma get_deps_in (n : node) (d : Z) :
  In d (get_deps n) <-> exists item, In item (deps n) /\ In d (snd item).
Proof.
  unfold get_deps. rewrite in_concat. split.
  - intros (ds & Hds & Hd). apply in_map_iff in Hds.
    destruct Hds as (item & <- & Hi). eauto.
  - intros (item & Hi & Hd). exists (snd item). split; [|exact Hd].
    apply in_map_iff. eauto.
Qed.

Lemma node_arc_gold (graph : DependencyGraph) (h d : Z) (lbl : string)
    (ds : list Z) :
  In (lbl, ds) (deps (graph_nodes graph h)) -> In d ds ->
  In (h, d, Some lbl) (gold_arcs graph).
Proof.
  intros Hi Hd. unfold graph_nodes in Hi.
  destruct (Z.ltb_spec h 0) as [Hneg | Hpos]; [destruct Hi|].
  destruct (Nat.lt_ge_cases (Z.to_nat h) (List.length graph)) as [Hlt | Hge].
  - unfold gold_arcs. apply in_flat_map. exists (Z.to_nat h).
    split; [apply in_seq; lia|].
    unfold node_arcs. apply in_flat_map. exists (lbl, ds).
    split; [exact Hi|]. apply in_map_iff. exists d. cbn [fst snd].
    split; [|exact Hd]. f_equal. f_equal. lia.
  - rewrite nth_overflow in Hi by assumption. destruct Hi.
Qed.

Lemma indices_in (n : nat) (i : Z) : In i (indices n) <-> 0 <= i < Z.of_nat n.
Proof.
  unfold indices. rewrite in_map_iff. split.
  - intros (k & <- & Hk). apply in_seq in Hk. lia.
  - intros H. exists (Z.to_nat i). split; [lia|]. apply in_seq. lia.
Qed.

Lemma wf_graph_address (graph : DependencyGraph) (n : nat) (i : Z) :
  wf_graph graph n = true -> 0 <= i < Z.of_nat n ->
  address (graph_nodes graph i) = Some i.
Proof.
  unfold wf_graph. intros H Hi.
  apply andb_prop in H. destruct H as [H _].
  apply andb_prop in H. destruct H as [_ H].
  rewrite forallb_forall in H. specialize (H i (proj2 (indices_in n i) Hi)).
  destruct (address (graph_nodes graph i)); [|discriminate].
  apply Z.eqb_eq in H. now subst.
Qed.

Lemma wf_graph_consistent (graph : DependencyGraph) (n : nat) (h d : Z) :
  wf_graph graph n = true -> 0 <= h < Z.of_nat n -> 0 <= d < Z.of_nat n ->
  fst (find_deprel (deps (graph_nodes graph h)) d) = Spec.records_head graph h d.
Proof.
  unfold wf_graph. intros H Hh Hd.
  apply andb_prop in H. destruct H as [_ H].
  rewrite forallb_forall in H. specialize (H h (proj2 (indices_in n h) Hh)).
  rewrite forallb_forall in H. specialize (H d (proj2 (indices_in n d) Hd)).
  unfold consistent_at in H. apply eqb_prop in H.
  rewrite find_deprel_fst. exact H.
Qed.

Lemma existsb_filter_above (t nx : Z) (ds : list Z) :
  t < nx ->
  existsb (fun right_dep => right_dep >=? nx) (filter (fun dep => dep >? t) ds) =
  existsb (fun d => nx <=? d) ds.
Proof.
  intros H. induction ds as [|x ds IH]; [reflexivity|].
  cbn [filter existsb]. destruct (Z.gtb_spec x t) as [Hx|Hx].
  - cbn [existsb]. rewrite IH. f_equal.
    rewrite Z.geb_leb. reflexivity.
  - rewrite IH. destruct (Z.leb_spec nx x); [lia | reflexivity].
Qed.

(** ** The oracle against the decision procedure *)

Lemma get_oracle_complete (graph : DependencyGraph) (pp : PartialParse) :
  complete pp = (Return true, pp) ->
  get_oracle graph pp =
  (Raise (ValueError "PartialParse already completed"), pp).
Proof. intros H. unfold get_oracle, bind. now rewrite H. Qed.

Lemma get_oracle_root_only (graph : DependencyGraph) (pp : PartialParse) :
  complete pp = (Return false, pp) -> stack pp = [0] ->
  get_oracle graph pp = (Return (scanned_decision pp graph), pp).
Proof.
  intros Hc Hs. unfold get_oracle. unfold bind at 1. rewrite Hc.
  unfold_meth. unfold scanned_decision. rewrite Hs. reflexivity.
Qed.

Lemma get_oracle_one_word (graph : DependencyGraph) (pp : PartialParse) (w : Z) :
  complete pp = (Return false, pp) -> stack pp = [0; w] ->
  inv_frontier pp -> 0 <= w ->
  address (graph_nodes graph 0) = Some 0 ->
  (next pp = Py.len (sentence pp) ->
   fst (find_deprel (deps (graph_nodes graph 0)) w) = true) ->
  get_oracle graph pp = (Return (scanned_decision pp graph), pp).
Proof.
  intros Hc Hs Hf Hw Ha Hroot. unfold get_oracle. unfold bind at 1. rewrite Hc.
  unfold_meth. unfold scanned_decision, Spec.buffer_empty. rewrite Hs.
  change (Py.len [0; w] =? 1) with false.
  change (Py.len [0; w] =? 2) with true. cbv beta iota.
  unfold inv_frontier in Hf.
  destruct (Z.eqb_spec (next pp) (Py.len (sentence pp))) as [He|He].
  - destruct (Z.leb_spec (Py.len (sentence pp)) (next pp)); [|lia].
    cbv beta. rewrite Hs, getitem_zero. cbv beta iota.
    rewrite Hs. change [0; w] with ([0] ++ [w]). rewrite getitem_last.
    cbv beta iota. unfold is_right_dep. rewrite Ha.
    destruct (Z.ltb_spec w 0); [lia|].
    unfold found_label. rewrite (Hroot He). reflexivity.
  - destruct (Z.leb_spec (Py.len (sentence pp)) (next pp)); [lia|]. reflexivity.
Qed.

Lemma get_oracle_pair (graph : DependencyGraph) (pp : PartialParse)
    (rest : list Z) (second top : Z) :
  complete pp = (Return false, pp) ->
  stack pp = rest ++ [second; top] -> rest <> [] ->
  second < top < next pp ->
  address (graph_nodes graph top) = Some top ->
  address (graph_nodes graph second) = Some second ->
  fst (find_deprel (deps (graph_nodes graph top)) second) =
    Spec.records_head graph top second ->
  fst (find_deprel (deps (graph_nodes graph second)) top) =
    Spec.records_head graph second top ->
  get_oracle graph pp = (Return (scanned_pair pp graph top second), pp).
Proof.
  intros Hc Hs Hr Hlt Hat Has Hl Hrt.
  assert (Hs' : stack pp = (rest ++ [second]) ++ [top])
    by now rewrite <- app_assoc.
  assert (Hlen : 3 <= Py.len (stack pp)).
  { rewrite Hs, len_app. destruct rest; [contradiction|].
    unfold Py.len. cbn [List.length]. lia. }
  unfold get_oracle. unfold bind at 1. rewrite Hc. unfold_meth.
  destruct (Z.eqb_spec (Py.len (stack pp)) 1); [lia|].
  destruct (Z.eqb_spec (Py.len (stack pp)) 2); [lia|].
  cbv beta. rewrite Hs', getitem_last. cbv beta iota.
  rewrite Hs, getitem_second. cbv beta iota.
  unfold is_left_dep. rewrite Hat.
  destruct (Z.gtb_spec second top); [lia|].
  rewrite Hs, getitem_second. cbv beta iota.
  rewrite Hs', getitem_last. cbv beta iota.
  unfold is_right_dep. rewrite Has.
  destruct (Z.ltb_spec top second); [lia|].
  unfold scanned_pair, found_label. rewrite <- Hl, <- Hrt.
  destruct (fst (find_deprel (deps (graph_nodes graph top)) second)); [reflexivity|].
  destruct (fst (find_deprel (deps (graph_nodes graph second)) top)); [|reflexivity].
  rewrite Hs', getitem_last. cbv beta iota.
  unfold get_right_deps, filter_deps, scans_pending.
  destruct (get_deps (graph_nodes graph top)) as [|d ds] eqn:Hd.
  - reflexivity.
  - rewrite Hat. rewrite existsb_filter_above by lia.
    destruct (existsb (fun d0 => next pp <=? d0) (d :: ds)); reflexivity.
Qed.

Lemma two_entries (rest : list Z) (w second top : Z) :
  [0; w] = rest ++ [second; top] -> rest = [] /\ second = 0 /\ top = w.
Proof.
  destruct rest as [|x [|y rest']]; cbn.
  - intros H. injection H as <- <-. tauto.
  - discriminate.
  - intros H. injection H as _ _ H. destruct rest'; discriminate.
Qed.

(** With ROOT and one word on the stack and an empty buffer, the only
    transition that can lead anywhere is the right-arc from ROOT, so a graph
    that is reachable records that word under ROOT. *)
Lemma last_right_arc (graph : DependencyGraph) (pp : PartialParse) (w : Z) :
  stack pp = [0; w] -> next pp = Py.len (sentence pp) ->
  gold_reachable pp graph ->
  fst (find_deprel (deps (graph_nodes graph 0)) w) = true.
Proof.
  intros Hs Hn (tds & pp' & Hsteps & Hcomp & Harcs).
  destruct tds as [|td tds].
  - apply steps_nil_inv in Hsteps. subst pp'.
    apply complete_true_iff in Hcomp. destruct Hcomp as [_ Hc]. congruence.
  - apply steps_cons_inv in Hsteps. destruct Hsteps as (pp1 & Ht & Hsteps).
    inversion Ht as [p d Hne | p d rest second top Hst Hr
                     | p d rest second top Hst]; subst.
    + contradiction.
    + rewrite Hs in Hst. apply two_entries in Hst. destruct Hst as [-> _].
      contradiction.
    + rewrite Hs in Hst. apply two_entries in Hst. destruct Hst as (-> & -> & ->).
      assert (Hin : In (0, w, d) (arcs pp')).
      { eapply steps_arcs_grow; [exact Hsteps|].
        cbn [arcs reduced]. apply in_or_app. right. cbn. tauto. }
      apply Harcs in Hin. now apply gold_arcs_inv in Hin.
Qed.

Lemma get_oracle_decision (graph : DependencyGraph) (pp : PartialParse) :
  invariants pp ->
  wf_graph graph (List.length (sentence pp)) = true ->
  gold_reachable pp graph ->
  complete pp = (Return false, pp) ->
  get_oracle graph pp = (Return (scanned_decision pp graph), pp).
Proof.
  intros [Ist Ifr Iin Ior] Hwf Hg Hc.
  destruct Ist as [rest Hs]. destruct Iin as [Iin _].
  unfold inv_frontier in Ifr. unfold in_range, Py.len in Iin.
  destruct rest as [|w [|b l]].
  - now apply get_oracle_root_only.
  - apply (get_oracle_one_word graph pp w Hc Hs).
    + exact Ifr.
    + apply Iin. rewrite Hs. cbn. tauto.
    + apply (wf_graph_address _ _ _ Hwf). unfold Py.len in Ifr. lia.
    + intros Hn. eapply last_right_arc; eauto.
  - destruct (split_last2 (stack pp)) as (r & s & t & Hs2).
    { rewrite Hs. unfold Py.len. cbn [List.length]. lia. }
    assert (Hr : r <> []).
    { intros ->. rewrite Hs in Hs2. discriminate. }
    assert (Hin_s : In s (stack pp))
      by (rewrite Hs2; apply in_or_app; right; cbn; tauto).
    assert (Hin_t : In t (stack pp))
      by (rewrite Hs2; apply in_or_app; right; cbn; tauto).
    apply Iin in Hin_s. apply Iin in Hin_t.
    unfold inv_order in Ior. rewrite Hs2, rev_app_distr in Ior. cbn in Ior.
    destruct Ior as (Ht & Hst & _).
    assert (Hd : scanned_decision pp graph = scanned_pair pp graph t s).
    { unfold scanned_decision. rewrite Hs at 1. cbv iota.
      rewrite Hs2, rev_app_distr. reflexivity. }
    rewrite Hd. apply (get_oracle_pair graph pp r s t Hc Hs2 Hr).
    + lia.
    + now apply (wf_graph_address _ _ _ Hwf).
    + now apply (wf_graph_address _ _ _ Hwf).
    + now apply (wf_graph_consistent _ _ _ _ Hwf).
    + now apply (wf_graph_consistent _ _ _ _ Hwf).
Qed.

(** ** The lookups of the code against the gold tree's own data

    The label that the scan of the dependant lists finds is the label of
    the tree's arc, and the look-ahead over [get_right_deps] agrees with the
    head fields of the words still in the buffer. *)

Lemma find_app_first {A : Type} (p : A -> bool) (l1 l2 : list A) :
  find p (l1 ++ l2) =
  match find p l1 with
  | Some a => Some a
  | None => find p l2
  end.
Proof.
  induction l1 as [|a l1 IH]; [reflexivity|].
  cbn [app find]. destruct (p a); [reflexivity | exact IH].
Qed.

Lemma find_all_false {A : Type} (p : A -> bool) (l : list A) :
  (forall x, In x l -> p x = false) -> find p l = None.
Proof.
  induction l as [|a l IH]; intros H; [reflexivity|].
  cbn [find]. rewrite (H a (or_introl eq_refl)). apply IH.
  intros x Hx. apply H. now right.
Qed.

Lemma find_item_arcs (h d : Z) (lbl : string) (ds : list Z) :
  find (fun a => (arc_head a =? h) && (arc_dep a =? d))
       (map (fun d' => (h, d', Some lbl)) ds) =
  if existsb (fun dep => dep =? d) ds then Some (h, d, Some lbl) else None.
Proof.
  induction ds as [|x ds IH]; [reflexivity|].
  cbn [map find existsb]. unfold arc_head at 1, arc_dep at 1. cbn [fst snd].
  rewrite Z.eqb_refl. cbn [andb].
  destruct (Z.eqb_spec x d) as [-> | _]; [reflexivity|]. cbn [orb]. exact IH.
Qed.

Lemma find_node_arcs (h d : Z) (n : node) :
  match find (fun a => (arc_head a =? h) && (arc_dep a =? d)) (node_arcs h n) with
  | Some a => arc_deprel a
  | None => None
  end = snd (find_deprel (deps n) d).
Proof.
  unfold node_arcs. induction (deps n) as [|[lbl ds] items IH]; [reflexivity|].
  cbn [flat_map find_deprel fst snd]. rewrite find_app_first, find_item_arcs.
  destruct (existsb (fun dep => dep =? d) ds); [reflexivity | exact IH].
Qed.

Lemma find_other_node (h d k : Z) (n : node) :
  k <> h ->
  find (fun a => (arc_head a =? h) && (arc_dep a =? d)) (node_arcs k n) = None.
Proof.
  intros Hk. apply find_all_false. intros x Hx. unfold node_arcs in Hx.
  apply in_flat_map in Hx. destruct Hx as (item & _ & Hx).
  apply in_map_iff in Hx. destruct Hx as (d' & <- & _).
  unfold arc_head. cbn [fst snd]. destruct (Z.eqb_spec k h); [contradiction|].
  reflexivity.
Qed.

Lemma find_gold_arcs (graph : DependencyGraph) (h d : Z) (ks : list nat) :
  match find (fun a => (arc_head a =? h) && (arc_dep a =? d))
             (flat_map (fun k => node_arcs (Z.of_nat k) (nth k graph default_node))
                       ks) with
  | Some a => arc_deprel a
  | None => None
  end =
  if existsb (fun k => Z.of_nat k =? h) ks
  then snd (find_deprel (deps (graph_nodes graph h)) d)
  else None.
Proof.
  induction ks as [|k ks IH]; [reflexivity|].
  cbn [flat_map existsb]. rewrite find_app_first.
  destruct (Z.eqb_spec (Z.of_nat k) h) as [He | Hne]; cbn [orb].
  - assert (Hn : graph_nodes graph h = nth k graph default_node).
    { unfold graph_nodes. destruct (Z.ltb_spec h 0); [lia|].
      f_equal. lia. }
    rewrite Hn. pose proof (find_node_arcs h d (nth k graph default_node)) as Hf.
    rewrite He.
    destruct (find (fun a => (arc_head a =? h) && (arc_dep a =? d))
                   (node_arcs h (nth k graph default_node))) as [a|].
    + exact Hf.
    + rewrite IH, <- Hf, Hn, <- Hf.
      now destruct (existsb (fun k0 => Z.of_nat k0 =? h) ks).
  - rewrite find_other_node by assumption. exact IH.
Qed.

Lemma found_label_gold (graph : DependencyGraph) (h d : Z) :
  found_label graph h d = Spec.gold_label graph h d.
Proof.
  unfold found_label, Spec.gold_label, gold_arcs. rewrite find_gold_arcs.
  destruct (existsb (fun k => Z.of_nat k =? h) (seq 0 (List.length graph))) eqn:He;
    [reflexivity|].
  assert (Hd : graph_nodes graph h = default_node).
  { unfold graph_nodes. destruct (Z.ltb_spec h 0); [reflexivity|].
    apply nth_overflow.
    destruct (Nat.lt_ge_cases (Z.to_nat h) (List.length graph)) as [Hlt | Hge];
      [|exact Hge].
    assert (Ht : existsb (fun k => Z.of_nat k =? h) (seq 0 (List.length graph)) = true).
    { apply existsb_exists. exists (Z.to_nat h).
      split; [apply in_seq; lia | apply Z.eqb_eq; lia]. }
    congruence. }
  rewrite Hd. reflexivity.
Qed.

Lemma wf_graph_length (graph : DependencyGraph) (n : nat) :
  wf_graph graph n = true -> List.length graph = n.
Proof.
  unfold wf_graph. intros H.
  apply andb_prop in H. destruct H as [H _].
  apply andb_prop in H. destruct H as [H _]. now apply Nat.eqb_eq.
Qed.

Lemma steps_invariants (tds : list td_pair) (pp pp' : PartialParse) :
  invariants pp -> steps pp tds pp' -> invariants pp'.
Proof.
  apply (steps_invariant invariants).
  intros p td p' [I1 I2 I3 I4] Ht. constructor.
  - eapply transition_inv_stack; eauto.
  - eapply transition_inv_frontier; eauto.
  - eapply transition_inv_indices; eauto.
  - eapply transition_inv_order; eauto.
Qed.

Lemma steps_keep_sentence (tds : list td_pair) (pp pp' : PartialParse) :
  steps pp tds pp' -> sentence pp' = sentence pp.
Proof.
  apply (steps_invariant (fun q => sentence q = sentence pp)); [|reflexivity].
  intros p td p' Hp Ht. now rewrite (transition_sentence _ _ _ Ht).
Qed.

Lemma gold_dependants_in_range (pp : PartialParse) (graph : DependencyGraph)
    (a : arc) :
  invariants pp -> gold_reachable pp graph -> In a (gold_arcs graph) ->
  0 <= arc_dep a < Py.len (sentence pp).
Proof.
  intros Hinv (tds & pp' & Hs & _ & Harcs) Ha.
  pose proof (steps_invariants _ _ _ Hinv Hs) as [_ _ [_ Hin] _].
  apply Harcs in Ha. destruct (Hin _ Ha) as [_ Hd]. unfold in_range in Hd.
  now rewrite (steps_keep_sentence _ _ _ Hs) in Hd.
Qed.

Lemma scans_pending_gold (pp : PartialParse) (graph : DependencyGraph) (top : Z) :
  invariants pp ->
  wf_graph graph (List.length (sentence pp)) = true ->
  gold_reachable pp graph ->
  In top (stack pp) ->
  scans_pending graph top (next pp) =
  Spec.has_pending_dependent graph top (next pp).
Proof.
  intros Hinv Hwf Hg Htop.
  pose proof (wf_graph_length _ _ Hwf) as Hlen.
  pose proof (invs_indices _ Hinv) as [Hstk _].
  apply Hstk in Htop. unfold in_range, Py.len in Htop.
  unfold scans_pending, Spec.has_pending_dependent. rewrite Hlen.
  apply eq_true_iff_eq. rewrite !existsb_exists. split.
  - intros (d & Hd & Hle). exists d.
    apply get_deps_in in Hd. destruct Hd as ([lbl ds] & Hitem & Hds).
    pose proof (node_arc_gold _ _ _ _ _ Hitem Hds) as Hga.
    pose proof (gold_dependants_in_range pp graph _ Hinv Hg Hga) as Hr.
    unfold arc_dep, Py.len in Hr. cbn [fst snd] in Hr.
    split; [apply indices_in; lia|]. rewrite Hle. cbn [andb].
    rewrite <- (wf_graph_consistent _ _ _ _ Hwf) by lia.
    apply find_deprel_true. exists (lbl, ds). auto.
  - intros (d & Hd & Hb). apply indices_in in Hd.
    apply andb_prop in Hb. destruct Hb as [Hle Hrec].
    exists d. split; [|exact Hle].
    rewrite <- (wf_graph_consistent _ _ _ _ Hwf) in Hrec by lia.
    apply find_deprel_true in Hrec. now apply get_deps_in.
Qed.

Lemma scanned_decision_spec (pp : PartialParse) (graph : DependencyGraph) :
  invariants pp ->
  wf_graph graph (List.length (sentence pp)) = true ->
  gold_reachable pp graph ->
  scanned_decision pp graph = Spec.oracle_decision pp graph.
Proof.
  intros Hinv Hwf Hg.
  assert (Hpair : forall top second,
             In top (stack pp) ->
             scanned_pair pp graph top second =
             Spec.decide_pair pp graph top second).
  { intros top second Htop. unfold scanned_pair, Spec.decide_pair.
    now rewrite !found_label_gold, (scans_pending_gold pp graph top Hinv Hwf Hg Htop). }
  pose proof (invs_stack _ Hinv) as [rest Hst].
  unfold scanned_decision, Spec.oracle_decision.
  destruct rest as [|w [|b l]].
  - rewrite Hst. reflexivity.
  - rewrite Hst. now rewrite found_label_gold.
  - remember (rev (stack pp)) as rs eqn:Hrev. rewrite Hst. cbv iota.
    destruct rs as [|top [|second r]]; try reflexivity.
    apply Hpair. apply in_rev. rewrite <- Hrev. now left.
Qed.

(** C1: for a configuration [pp] of the machine and a graph that is
    consistent with the sentence and reachable from [pp], [get_oracle] raises
    exactly when [pp] is complete; the completion test comes before any look at
    the graph (on a complete [pp] the same error comes out whatever the graph
    is); and otherwise it returns the pair of the decision procedure of section
    4.2, leaving [pp] as it was. *)
Theorem get_oracle_correct (s : list (string * string)) (pp : PartialParse)
    (graph : DependencyGraph) :
  configuration s pp ->
  wf_graph graph (List.length (sentence pp)) = true ->
  gold_reachable pp graph ->
  ((exists e pp', get_oracle graph pp = (Raise e, pp')) <->
   complete pp = (Return true, pp)) /\
  (forall graph' : DependencyGraph,
     complete pp = (Return true, pp) ->
     get_oracle graph' pp =
     (Raise (ValueError "PartialParse already completed"), pp)) /\
  (complete pp = (Return false, pp) ->
   get_oracle graph pp = (Return (Spec.oracle_decision pp graph), pp)).
Proof.
  intros Hconf Hwf Hg. apply configuration_invariants in Hconf.
  split; [|split].
  - split.
    + intros (e & pp' & He).
      destruct (complete_spec pp) as ([|] & Hc & _); [exact Hc|].
      rewrite (get_oracle_decision graph pp Hconf Hwf Hg Hc) in He. discriminate.
    + intros Hc. do 2 eexists. now apply get_oracle_complete.
  - intros graph' Hc. now apply get_oracle_complete.
  - intros Hc. rewrite <- (scanned_decision_spec pp graph Hconf Hwf Hg).
    now apply get_oracle_decision.
Qed.

Lemma get_oracle_correct_witness :
  let pp := {| sentence := sentence (init chain_sentence); stack := [0; 1; 2];
               next := 3; arcs := [] |} in
  let pp' := {| sentence := sentence (init chain_sentence); stack := [0; 1];
                next := 4;
                arcs := [(2, 3, Some "b"); (1, 2, Some "a")]%string |} in
  (Spec.oracle_decision pp chain_graph = (shift_id, None) /\
   ((exists e q, get_oracle chain_graph pp = (Raise e, q)) <->
    complete pp = (Return true, pp)) /\
   (forall graph' : DependencyGraph,
      complete pp = (Return true, pp) ->
      get_oracle graph' pp =
      (Raise (ValueError "PartialParse already completed"), pp)) /\
   (complete pp = (Return false, pp) ->
    get_oracle chain_graph pp = (Return (Spec.oracle_decision pp chain_graph), pp))) /\
  (Spec.oracle_decision pp' chain_graph = (right_arc_id, Some "root"%string) /\
   ((exists e q, get_oracle chain_graph pp' = (Raise e, q)) <->
    complete pp' = (Return true, pp')) /\
   (forall graph' : DependencyGraph,
      complete pp' = (Return true, pp') ->
      get_oracle graph' pp' =
      (Raise (ValueError "PartialParse already completed"), pp')) /\
   (complete pp' = (Return false, pp') ->
    get_oracle chain_graph pp' =
    (Return (Spec.oracle_decision pp' chain_graph), pp'))).
Proof.
  cbv zeta.
  assert (Hgold : forall a,
             In a [(2, 3, Some "b"); (1, 2, Some "a"); (0, 1, Some "root")]%string <->
             In a (gold_arcs chain_graph)).
  { intros a. change (gold_arcs chain_graph) with
      [(0, 1, Some "root"); (1, 2, Some "a"); (2, 3, Some "b")]%string.
    cbn [In]. tauto. }
  split.
  - split; [reflexivity|].
    apply (get_oracle_correct chain_sentence).
    + exists [(shift_id, None); (shift_id, None)]. reflexivity.
    + reflexivity.
    + exists [(shift_id, None); (right_arc_id, Some "b"); (right_arc_id, Some "a");
              (right_arc_id, Some "root")]%string.
      exists {| sentence := sentence (init chain_sentence); stack := [0]; next := 4;
                arcs := [(2, 3, Some "b"); (1, 2, Some "a");
                         (0, 1, Some "root")]%string |}.
      split; [reflexivity|]. split; [reflexivity | exact Hgold].
  - split; [reflexivity|].
    apply (get_oracle_correct chain_sentence).
    + exists [(shift_id, None); (shift_id, None); (shift_id, None);
              (right_arc_id, Some "b"); (right_arc_id, Some "a")]%string.
      reflexivity.
    + reflexivity.
    + exists [(right_arc_id, Some "root"%string)].
      exists {| sentence := sentence (init chain_sentence); stack := [0]; next := 4;
                arcs := [(2, 3, Some "b"); (1, 2, Some "a");
                         (0, 1, Some "root")]%string |}.
      split; [reflexivity|]. split; [reflexivity | exact Hgold].
Defined.

(** ** The dependant queries *)

Lemma scan_deps_all (i c : Z) (l : list arc) :
  scan_deps i None c l = deps_of i l.
Proof.
  revert c. induction l as [|a l IH]; intros c; [reflexivity|].
  unfold deps_of in *. cbn [scan_deps filter].
  destruct (arc_head a =? i); cbn [map]; now rewrite IH.
Qed.

Lemma scan_deps_first (i k c : Z) (l : list arc) :
  0 <= c < k ->
  scan_deps i (Some k) c l = firstn (Z.to_nat (k - c)) (deps_of i l).
Proof.
  revert c. induction l as [|a l IH]; intros c Hc.
  - cbn. now rewrite firstn_nil.
  - unfold deps_of in *. cbn [scan_deps filter].
    destruct (arc_head a =? i); cbn [map]; [|now apply IH].
    destruct (Z.eqb_spec k 0); [lia|]. cbn [negb andb].
    destruct (Z.eqb_spec (c + 1) k) as [He|He].
    + replace (Z.to_nat (k - c)) with 1%nat by lia. reflexivity.
    + replace (Z.to_nat (k - c)) with (S (Z.to_nat (k - (c + 1)))) by lia.
      cbn [firstn]. f_equal. apply IH. lia.
Qed.

Lemma scan_deps_negative (i k c : Z) (l : list arc) :
  k < 0 -> 0 <= c -> scan_deps i (Some k) c l = deps_of i l.
Proof.
  intros Hk. revert c. induction l as [|a l IH]; intros c Hc; [reflexivity|].
  unfold deps_of in *. cbn [scan_deps filter].
  destruct (arc_head a =? i); cbn [map]; [|now apply IH].
  destruct (Z.eqb_spec (c + 1) k); [lia|]. rewrite andb_false_r.
  f_equal. apply IH. lia.
Qed.

(** What the two queries compute: the first [n] dependants of [i] met when
    the arcs are scanned in creation order (leftmost) or in reverse creation
    order (rightmost); all of them when [n] is [None] (or negative); nothing
    when [n] is 0.  The object is left as it was. *)
Lemma get_n_leftmost_deps_value (pp : PartialParse) (i : Z) (n : option Z) :
  get_n_leftmost_deps i n pp =
  (Return match n with
          | None => deps_of i (arcs pp)
          | Some k => if k <? 0 then deps_of i (arcs pp)
                      else firstn (Z.to_nat k) (deps_of i (arcs pp))
          end, pp).
Proof.
  destruct n as [k|]; [|cbn; unfold_meth; now rewrite scan_deps_all].
  destruct (Z.ltb_spec k 0) as [Hk|Hk].
  - destruct k; try lia. cbn. unfold_meth. now rewrite scan_deps_negative by lia.
  - destruct (Z.eq_dec k 0) as [->|Hz]; [reflexivity|].
    destruct k; try lia. cbn. unfold_meth.
    rewrite scan_deps_first by lia. now rewrite Z.sub_0_r.
Qed.

Lemma get_n_rightmost_deps_value (pp : PartialParse) (i : Z) (n : option Z) :
  get_n_rightmost_deps i n pp =
  (Return match n with
          | None => deps_of i (rev (arcs pp))
          | Some k => if k <? 0 then deps_of i (rev (arcs pp))
                      else firstn (Z.to_nat k) (deps_of i (rev (arcs pp)))
          end, pp).
Proof.
  destruct n as [k|]; [|cbn; unfold_meth; now rewrite scan_deps_all].
  destruct (Z.ltb_spec k 0) as [Hk|Hk].
  - destruct k; try lia. cbn. unfold_meth. now rewrite scan_deps_negative by lia.
  - destruct (Z.eq_dec k 0) as [->|Hz]; [reflexivity|].
    destruct k; try lia. cbn. unfold_meth.
    rewrite scan_deps_first by lia. now rewrite Z.sub_0_r.
Qed.

(** C8, at a configuration where it fails: after shift, shift, shift,
    left-arc, left-arc on a three-word sentence, word 3 has the left
    dependants 2 and 1, created in that order.  [get_n_leftmost_deps(3)]
    answers [[2, 1]] and, for [n = 1], [[2]], though the leftmost dependant is
    1; [get_n_rightmost_deps(3)] answers [[1, 2]] and, for [n = 1], [[1]],
    though the rightmost is 2. *)
Theorem deps_queries_follow_creation_order :
  let s := [("a", "t"); ("b", "t"); ("c", "t")]%string in
  let pp := {| sentence := sentence (init s); stack := [0; 3]; next := 4;
               arcs := [(3, 2, Some "x"%string); (3, 1, Some "y"%string)] |} in
  parse [(shift_id, None); (shift_id, None); (shift_id, None);
         (left_arc_id, Some "x"%string); (left_arc_id, Some "y"%string)]
        (init s) = (Return (arcs pp), pp) /\
  get_n_leftmost_deps 3 None pp = (Return [2; 1], pp) /\
  get_n_leftmost_deps 3 (Some 1) pp = (Return [2], pp) /\
  get_n_rightmost_deps 3 None pp = (Return [1; 2], pp) /\
  get_n_rightmost_deps 3 (Some 1) pp = (Return [1], pp).
Proof. cbv zeta. repeat split. Qed.

(** ** The batched driver on an empty sentence *)

Lemma parse_step_on_complete (pp : PartialParse) (tid : Z) (deprel : option string) :
  complete pp = (Return true, pp) ->
  exists msg, parse_step tid deprel pp = (Raise (ValueError msg), pp).
Proof.
  intros Hc. apply complete_true_iff in Hc. destruct Hc as [Hn Hs].
  destruct (parse_step_outcome pp tid deprel) as [[_ H] | [Hi _]]; [exact H|].
  exfalso. apply Hi. unfold illegal. rewrite Hs. unfold Py.len. cbn [List.length].
  destruct (id_cases tid) as [-> | [-> | [-> | H]]]; [left | right; left | right; right; left | tauto];
    (split; [reflexivity | try lia; try assumption]).
Qed.

(** C7, at an input where it fails.  A sentence without words starts
    complete: whatever the model proposes is illegal, the [except] clause marks
    the parse, and the completion test that follows marks it a second time.
    Alone in its batch, the second deletion raises IndexError to the caller;
    with a neighbour, the second deletion removes the neighbour, whose arcs
    stop where they were (here: none, where parsing it alone yields its
    arc). *)
Theorem minibatch_parse_empty_sentence (td : td_pair) (fuel : nat) :
  minibatch_parse (S fuel) [[]] (constant_model td) 1 = Some (Raise IndexError) /\
  minibatch_parse (2 + fuel) [[]; [("a", "t")]]%string (map shift_then_right) 2 =
    Some (Return [[]; []]) /\
  minibatch_parse (3 + fuel) [[("a", "t")]]%string (map shift_then_right) 2 =
    Some (Return [[(0, 1, Some "deprel"%string)]]).
Proof.
  split; [|split; reflexivity].
  destruct td as [tid d].
  destruct (parse_step_on_complete (init []) tid d) as [msg Hp]; [reflexivity|].
  unfold minibatch_parse. cbn [map List.length seq minibatch_loop].
  change (Py.len [0%nat] =? 0) with false.
  change (Py.len [0%nat] <? 1) with false. cbv iota.
  change (Py.slice_to [0%nat] 1) with [0%nat].
  cbn [map constant_model batch_pass].
  change (Py.getitem [(tid, d)] 0) with (Some (tid, d)).
  cbv iota. cbn [fst snd store_get nth]. rewrite Hp. reflexivity.
Qed.

(** ** The batched driver on sentences that have words

    With a batch size of at least 1 and a model that decides for each parse
    on its own (as [DummyModel] does), the driver ends without an error and
    leaves every parse where a run of that parse alone would leave it. *)

Lemma finishes_deterministic (f : PartialParse -> td_pair) (pp q1 q2 : PartialParse) :
  finishes f pp q1 -> finishes f pp q2 -> q1 = q2.
Proof.
  intros H1. revert q2.
  induction H1 as [pp e pp' Hp | pp pp' Hp Hc | pp pp' q Hp Hc Hf IH];
    intros q2 H2; inversion H2; subst; try congruence.
  - apply IH. congruence.
Qed.

Lemma store_set_length (store : list PartialParse) (r : nat) (pp : PartialParse) :
  List.length (store_set store r pp) = List.length store.
Proof.
  revert r. induction store as [|x store IH]; intros [|r]; cbn; auto.
Qed.

Lemma store_get_set_same (store : list PartialParse) (r : nat) (pp : PartialParse) :
  (r < List.length store)%nat -> store_get (store_set store r pp) r = pp.
Proof.
  unfold store_get. revert r.
  induction store as [|x store IH]; intros [|r] H; cbn in *; try lia; auto.
  apply IH. lia.
Qed.

Lemma store_get_set_other (store : list PartialParse) (r r' : nat)
    (pp : PartialParse) :
  r <> r' -> store_get (store_set store r pp) r' = store_get store r'.
Proof.
  unfold store_get. revert r r'.
  induction store as [|x store IH]; intros [|r] [|r'] H; cbn; auto; try congruence.
Qed.

Lemma getitem_at {A : Type} (pre post : list A) (x : A) :
  Py.getitem (pre ++ x :: post) (Z.of_nat (List.length pre)) = Some x.
Proof.
  unfold Py.getitem, Py.norm_index.
  destruct (Z.ltb_spec (Z.of_nat (List.length pre)) 0); [lia|].
  rewrite len_app. unfold Py.len. cbn [List.length].
  destruct (Z.leb_spec 0 (Z.of_nat (List.length pre))); [|lia].
  destruct (Z.ltb_spec (Z.of_nat (List.length pre))
              (Z.of_nat (List.length pre) + Z.of_nat (S (List.length post)))); [|lia].
  cbn [andb]. rewrite Nat2Z.id, nth_error_app2 by lia.
  now rewrite Nat.sub_diag.
Qed.

Lemma delitem_at {A : Type} (pre post : list A) (x : A) :
  Py.delitem (pre ++ x :: post) (Z.of_nat (List.length pre)) = Some (pre ++ post).
Proof.
  unfold Py.delitem, Py.norm_index.
  destruct (Z.ltb_spec (Z.of_nat (List.length pre)) 0); [lia|].
  rewrite len_app. unfold Py.len. cbn [List.length].
  destruct (Z.leb_spec 0 (Z.of_nat (List.length pre))); [|lia].
  destruct (Z.ltb_spec (Z.of_nat (List.length pre))
              (Z.of_nat (List.length pre) + Z.of_nat (S (List.length post)))); [|lia].
  cbn [andb]. now rewrite Nat2Z.id, remove_at_app.
Qed.

Lemma advance_open (td : td_pair) (pp : PartialParse) :
  complete pp = (Return false, pp) ->
  (exists msg,
      parse_step (fst td) (snd td) pp = (Raise (ValueError msg), pp) /\
      advance td pp = (pp, true)) \/
  (exists pp' c,
      parse_step (fst td) (snd td) pp = (Return tt, pp') /\
      complete pp' = (Return c, pp') /\
      advance td pp = (pp', c)).
Proof.
  intros Hc. unfold advance.
  destruct (parse_step_outcome pp (fst td) (snd td))
    as [(_ & msg & Hp) | (_ & pp' & Hp)]; rewrite Hp.
  - left. eauto.
  - right. destruct (complete_spec pp') as (c & Hc' & _).
    exists pp', c. rewrite Hc'. auto.
Qed.

Lemma batch_pass_spec (minibatch : list nat) :
  forall (tds pre : list td_pair) (to_del : list Z) (store : list PartialParse),
    List.length tds = List.length minibatch ->
    NoDup minibatch ->
    (forall r, In r minibatch -> open_in store r) ->
    batch_pass minibatch (pre ++ tds) (Z.of_nat (List.length pre)) to_del store =
    (Return (to_del ++ positions_of (fst (pass_result minibatch tds store))
                                    (Z.of_nat (List.length pre))),
     snd (pass_result minibatch tds store)).
Proof.
  induction minibatch as [|r mb IH]; intros tds pre to_del store Hlen Hnd Hopen.
  - cbn. now rewrite app_nil_r.
  - destruct tds as [|td tds]; [discriminate|].
    cbn [batch_pass pass_result]. rewrite getitem_at.
    destruct (Hopen r (or_introl eq_refl)) as [Hr Hc].
    inversion Hnd as [|? ? Hnotin Hnd']. subst.
    assert (Hlen' : List.length tds = List.length mb)
      by (cbn [List.length] in Hlen; lia).
    assert (Hrec : forall pp1 r',
               In r' mb -> open_in (store_set store r pp1) r').
    { intros pp1 r' Hr'. destruct (Hopen r' (or_intror Hr')) as [Hb Ho].
      assert (r <> r') by (intros ->; contradiction).
      unfold open_in. rewrite store_set_length, store_get_set_other by assumption.
      auto. }
    assert (Hpre : Z.of_nat (List.length pre) + 1 =
                   Z.of_nat (List.length (pre ++ [td]))).
    { rewrite length_app. cbn [List.length]. lia. }
    assert (Happ : pre ++ td :: tds = (pre ++ [td]) ++ tds)
      by now rewrite <- app_assoc.
    destruct (advance_open td (store_get store r) Hc)
      as [(msg & Hp & Ha) | (pp' & c & Hp & Hc' & Ha)]; rewrite Hp, Ha.
    + cbv iota. rewrite Hc. cbn [fst snd].
      rewrite Hpre, Happ.
      rewrite (IH tds (pre ++ [td]) _ _ Hlen' Hnd'
                  (Hrec _)).
      destruct (pass_result mb tds (store_set store r (store_get store r)))
        as [ms st'] eqn:Hpr.
      cbn [fst snd positions_of]. rewrite <- Hpre, <- app_assoc. reflexivity.
    + cbv iota. rewrite Hc'. cbn [fst snd].
      rewrite Hpre, Happ.
      rewrite (IH tds (pre ++ [td]) _ _ Hlen' Hnd' (Hrec pp')).
      destruct (pass_result mb tds (store_set store r pp')) as [ms st'] eqn:Hpr.
      cbn [fst snd positions_of]. rewrite <- Hpre.
      destruct c; cbn [app]; [now rewrite <- app_assoc | reflexivity].
Qed.

Lemma delete_marked_app (a b : list Z) (l : list nat) :
  delete_marked (a ++ b) l =
  match delete_marked a l with
  | Some l' => delete_marked b l'
  | None => None
  end.
Proof.
  revert l. induction a as [|i a IH]; intros l; [reflexivity|].
  cbn [app delete_marked]. destruct (Py.delitem l i); [apply IH | reflexivity].
Qed.

(** Deleting the marked positions, last first, removes exactly the marked
    members. *)
Lemma delete_marked_spec (l : list nat) :
  forall (marks : list bool) (pre rest : list nat),
    List.length marks = List.length l ->
    delete_marked (rev (positions_of marks (Z.of_nat (List.length pre))))
                  (pre ++ l ++ rest) =
    Some (pre ++ unmarked l marks ++ rest).
Proof.
  induction l as [|r l IH]; intros marks pre rest Hlen.
  - destruct marks; [reflexivity | discriminate].
  - destruct marks as [|m marks]; [discriminate|].
    cbn [positions_of unmarked]. rewrite rev_app_distr, delete_marked_app.
    assert (Hpre : Z.of_nat (List.length pre) + 1 =
                   Z.of_nat (List.length (pre ++ [r]))).
    { rewrite length_app. cbn [List.length]. lia. }
    assert (Happ : pre ++ (r :: l) ++ rest = (pre ++ [r]) ++ l ++ rest)
      by now rewrite <- app_assoc.
    rewrite Hpre, Happ, IH by (cbn [List.length] in Hlen; lia).
    rewrite <- app_assoc. cbn [app].
    destruct m; cbn [rev app delete_marked].
    + now rewrite delitem_at.
    + reflexivity.
Qed.

Lemma transition_potential (pp pp' : PartialParse) (td : td_pair) :
  inv_frontier pp -> transition pp td pp' ->
  S (potential pp') = potential pp.
Proof.
  unfold inv_frontier, potential. intros Hf Ht.
  destruct Ht as [pp d Hn | pp d rest second top Hst Hr | pp d rest second top Hst];
    cbn [stack next sentence shifted reduced].
  - rewrite len_app. pose proof (len_nonneg (stack pp)).
    change (Py.len [next pp]) with 1. lia.
  - rewrite Hst, !len_app. pose proof (len_nonneg rest).
    change (Py.len [second; top]) with 2. change (Py.len [top]) with 1. lia.
  - rewrite Hst, !len_app. pose proof (len_nonneg rest).
    change (Py.len [second; top]) with 2. change (Py.len [second]) with 1. lia.
Qed.

Section Pointwise.

Variable f : PartialParse -> td_pair.

(** The parse [r] after a pass that holds it, and whether it stays. *)
Definition after (store : list PartialParse) (r : nat) : PartialParse :=
  fst (advance (f (store_get store r)) (store_get store r)).

Definition stays (store : list PartialParse) (r : nat) : bool :=
  negb (snd (advance (f (store_get store r)) (store_get store r))).

Lemma pass_pointwise (minibatch : list nat) :
  forall store : list PartialParse,
    NoDup minibatch ->
    (forall r, In r minibatch -> (r < List.length store)%nat) ->
    let res :=
      pass_result minibatch (map f (map (store_get store) minibatch)) store in
    List.length (fst res) = List.length minibatch /\
    List.length (snd res) = List.length store /\
    (forall r, ~ In r minibatch -> store_get (snd res) r = store_get store r) /\
    (forall r, In r minibatch -> store_get (snd res) r = after store r) /\
    unmarked minibatch (fst res) = filter (stays store) minibatch.
Proof.
  induction minibatch as [|r mb IH]; intros store Hnd Hb.
  - cbn. repeat split; auto. intros r [].
  - inversion Hnd as [|? ? Hnotin Hnd']. subst.
    cbn [map pass_result]. fold (after store r).
    set (store1 := store_set store r (after store r)).
    assert (Hsame : forall r', In r' mb -> store_get store1 r' = store_get store r').
    { intros r' Hr'. unfold store1. apply store_get_set_other.
      intros ->. contradiction. }
    assert (Htds : map f (map (store_get store) mb) =
                   map f (map (store_get store1) mb)).
    { f_equal. apply map_ext_in. intros r' Hr'. now rewrite Hsame. }
    rewrite Htds.
    assert (Hb1 : forall r', In r' mb -> (r' < List.length store1)%nat).
    { intros r' Hr'. unfold store1. rewrite store_set_length. apply Hb. now right. }
    specialize (IH store1 Hnd' Hb1). cbv zeta in IH.
    destruct (pass_result mb (map f (map (store_get store1) mb)) store1)
      as [ms st'] eqn:Hpr.
    cbn [fst snd] in *. destruct IH as (I1 & I2 & I3 & I4 & I5).
    assert (Hr : (r < List.length store)%nat) by (apply Hb; now left).
    split; [cbn [List.length]; lia|].
    split; [rewrite I2; unfold store1; apply store_set_length|].
    split; [|split].
    + intros r' Hr'. rewrite I3 by (intros H; apply Hr'; now right).
      unfold store1. apply store_get_set_other. intros ->. apply Hr'. now left.
    + intros r' [<- | Hr'].
      * rewrite I3 by assumption. unfold store1. now apply store_get_set_same.
      * rewrite I4 by assumption. unfold after. now rewrite Hsame.
    + cbn [unmarked filter]. unfold stays at 1.
      assert (Hf : filter (stays store1) mb = filter (stays store) mb).
      { apply filter_ext_in. intros r' Hr'. unfold stays. now rewrite Hsame. }
      rewrite I5, Hf.
      destruct (snd (advance (f (store_get store r)) (store_get store r)));
        reflexivity.
Qed.

End Pointwise.

Lemma NoDup_app_disjoint {A : Type} (l1 l2 : list A) (a : A) :
  NoDup (l1 ++ l2) -> In a l1 -> ~ In a l2.
Proof.
  induction l1 as [|x l1 IH]; intros Hnd Hin; [destruct Hin|].
  cbn [app] in Hnd. inversion Hnd as [|? ? Hx Hnd']. subst.
  destruct Hin as [-> | Hin].
  - intros H. apply Hx. apply in_or_app. now right.
  - now apply IH.
Qed.

Lemma sum_filter_le (l : list nat) (p : nat -> bool) (g g' : nat -> nat) :
  (forall r, In r l -> p r = true -> (g' r < g r)%nat) ->
  (forall r, In r l -> (1 <= g r)%nat) ->
  (list_sum (map g' (filter p l)) + List.length l <= list_sum (map g l))%nat.
Proof.
  induction l as [|r l IH]; intros H1 H2; [cbn; lia|].
  assert (IH' := IH (fun r' Hr' => H1 r' (or_intror Hr'))
                    (fun r' Hr' => H2 r' (or_intror Hr'))).
  pose proof (H2 r (or_introl eq_refl)).
  cbn [filter]. destruct (p r) eqn:Hp; cbn [map List.length];
    unfold list_sum in *; cbn [fold_right].
  - pose proof (H1 r (or_introl eq_refl) Hp). lia.
  - lia.
Qed.

Section Driver.

Variable f : PartialParse -> td_pair.
Variable sentences : list (list (string * string)).
Variable batch_size : Z.
Hypothesis batch_size_pos : 1 <= batch_size.

Record driver_inv (unfinished : list nat) (store : list PartialParse) : Prop := {
  di_len : List.length store = List.length sentences;
  di_nodup : NoDup unfinished;
  di_open : forall r, In r unfinished -> open_in store r;
  di_front : forall r, inv_frontier (store_get store r);
  di_run_open :
    forall r, In r unfinished ->
    forall q, finishes f (store_get store r) q ->
              finishes f (init (nth r sentences [])) q;
  di_run_done :
    forall r, (r < List.length store)%nat -> ~ In r unfinished ->
              finishes f (init (nth r sentences [])) (store_get store r)
}.

(** A member of the minibatch, case by case. *)
Lemma member_cases (store : list PartialParse) (r : nat) :
  open_in store r ->
  (stays f store r = false /\
   finishes f (store_get store r) (after f store r) /\
   (after f store r = store_get store r \/
    exists td, transition (store_get store r) td (after f store r))) \/
  (stays f store r = true /\
   complete (after f store r) = (Return false, after f store r) /\
   (forall q, finishes f (after f store r) q -> finishes f (store_get store r) q) /\
   exists td, transition (store_get store r) td (after f store r)).
Proof.
  intros [_ Hc]. unfold stays, after.
  destruct (advance_open (f (store_get store r)) _ Hc)
    as [(msg & Hp & Ha) | (pp' & c & Hp & Hc' & Ha)]; rewrite Ha; cbn [fst snd negb].
  - left. split; [reflexivity|]. split; [|now left].
    eapply F_stuck. exact Hp.
  - pose proof (parse_step_inv _ _ _ _ _ Hp) as Ht.
    destruct c; cbn [negb].
    + left. split; [reflexivity|]. split; [|right; eauto].
      now apply F_done.
    + right. split; [reflexivity|]. split; [exact Hc'|]. split; [|eauto].
      intros q Hq. eapply F_step; eauto.
Qed.

Lemma pass_keeps_invariant (unfinished : list nat) (store : list PartialParse) :
  driver_inv unfinished store -> unfinished <> [] ->
  let k := Z.to_nat batch_size in
  let minibatch := firstn k unfinished in
  let res :=
    pass_result minibatch (map f (map (store_get store) minibatch)) store in
  let unfinished' := filter (stays f store) minibatch ++ skipn k unfinished in
  (forall fuel,
      minibatch_loop (S fuel) (map f) batch_size unfinished store =
      minibatch_loop fuel (map f) batch_size unfinished' (snd res)) /\
  driver_inv unfinished' (snd res) /\
  (workload (snd res) unfinished' < workload store unfinished)%nat.
Proof.
  intros [Dlen Dnd Dopen Dfront Dro Drd] Hne. intros k minibatch res unfinished'.
  assert (Hsplit : unfinished = minibatch ++ skipn k unfinished)
    by (unfold minibatch; now rewrite firstn_skipn).
  assert (Hnd_mb : NoDup minibatch).
  { rewrite Hsplit in Dnd. now apply NoDup_app_remove_r in Dnd. }
  assert (Hin_mb : forall r, In r minibatch -> In r unfinished).
  { intros r Hr. rewrite Hsplit. apply in_or_app. now left. }
  assert (Hin_rest : forall r, In r (skipn k unfinished) ->
                               In r unfinished /\ ~ In r minibatch).
  { intros r Hr. split; [rewrite Hsplit; apply in_or_app; now right|].
    intros Hm. rewrite Hsplit in Dnd.
    exact (NoDup_app_disjoint _ _ _ Dnd Hm Hr). }
  assert (Hb_mb : forall r, In r minibatch -> (r < List.length store)%nat).
  { intros r Hr. apply Dopen. auto. }
  destruct (pass_pointwise f minibatch store Hnd_mb Hb_mb)
    as (P1 & P2 & P3 & P4 & P5). fold res in P1, P2, P3, P4, P5.
  assert (Hmb_ne : minibatch <> []).
  { unfold minibatch. destruct unfinished; [contradiction|].
    assert (Hk : (1 <= k)%nat) by (unfold k; lia).
    destruct k; [lia | discriminate]. }
  split; [|split].
  - intros fuel. cbn [minibatch_loop].
    assert (Hlen0 : (Py.len unfinished =? 0) = false).
    { apply Z.eqb_neq. destruct unfinished; [contradiction|].
      unfold Py.len. cbn [List.length]. lia. }
    rewrite Hlen0.
    assert (Hmb : (if Py.len unfinished <? batch_size then unfinished
                   else Py.slice_to unfinished batch_size) = minibatch).
    { unfold minibatch, k. destruct (Z.ltb_spec (Py.len unfinished) batch_size).
      - symmetry. apply firstn_all2. unfold Py.len in *. lia.
      - unfold Py.slice_to. destruct (Z.ltb_spec batch_size 0); [lia | reflexivity]. }
    rewrite Hmb.
    assert (Hbp := batch_pass_spec minibatch
                     (map f (map (store_get store) minibatch)) [] [] store).
    cbn [app List.length] in Hbp. change (Z.of_nat 0) with 0 in Hbp.
    rewrite Hbp.
    + fold res. rewrite Hsplit at 1.
      assert (Hdel := delete_marked_spec minibatch (fst res) []
                        (skipn k unfinished) P1).
      cbn [app List.length] in Hdel. change (Z.of_nat 0) with 0 in Hdel.
      rewrite Hdel, P5. reflexivity.
    + now rewrite !length_map.
    + exact Hnd_mb.
    + intros r Hr. apply Dopen. auto.
  - constructor.
    + now rewrite P2.
    + apply NoDup_app.
      * now apply NoDup_filter.
      * rewrite Hsplit in Dnd. now apply NoDup_app_remove_l in Dnd.
      * intros r Hr. apply filter_In in Hr. destruct Hr as [Hr _].
        rewrite Hsplit in Dnd. exact (NoDup_app_disjoint _ _ _ Dnd Hr).
    + intros r Hr. apply in_app_or in Hr. destruct Hr as [Hr | Hr].
      * apply filter_In in Hr. destruct Hr as [Hr Hs].
        destruct (member_cases store r (Dopen r (Hin_mb r Hr)))
          as [(Hs' & _) | (_ & Hc & _)]; [congruence|].
        split; [rewrite P2; now apply Hb_mb|]. now rewrite P4.
      * destruct (Hin_rest r Hr) as [Hu Hm].
        destruct (Dopen r Hu) as [Hb Hc].
        split; [now rewrite P2|]. now rewrite P3.
    + intros r. destruct (in_dec Nat.eq_dec r minibatch) as [Hr | Hr].
      * rewrite P4 by assumption.
        destruct (member_cases store r (Dopen r (Hin_mb r Hr)))
          as [(_ & _ & [He | [td Ht]]) | (_ & _ & _ & td & Ht)].
        -- rewrite He. apply Dfront.
        -- eapply transition_inv_frontier; [apply Dfront | exact Ht].
        -- eapply transition_inv_frontier; [apply Dfront | exact Ht].
      * rewrite P3 by assumption. apply Dfront.
    + intros r Hr q Hq. apply in_app_or in Hr. destruct Hr as [Hr | Hr].
      * apply filter_In in Hr. destruct Hr as [Hr Hs].
        destruct (member_cases store r (Dopen r (Hin_mb r Hr)))
          as [(Hs' & _) | (_ & _ & Hstep & _)]; [congruence|].
        rewrite P4 in Hq by assumption.
        apply Dro; auto.
      * destruct (Hin_rest r Hr) as [Hu Hm].
        rewrite P3 in Hq by assumption. now apply Dro.
    + intros r Hb Hnot. rewrite P2 in Hb.
      destruct (in_dec Nat.eq_dec r minibatch) as [Hr | Hr].
      * rewrite P4 by assumption.
        destruct (member_cases store r (Dopen r (Hin_mb r Hr)))
          as [(_ & Hfin & _) | (Hs & _)].
        -- apply Dro; auto.
        -- exfalso. apply Hnot. apply in_or_app. left.
           apply filter_In. auto.
      * rewrite P3 by assumption. apply Drd; [assumption|].
        intros Hu. rewrite Hsplit in Hu. apply in_app_or in Hu.
        destruct Hu as [Hu | Hu]; [contradiction|].
        apply Hnot. apply in_or_app. now right.
  - rewrite (f_equal (workload store) Hsplit). unfold workload, unfinished'.
    rewrite !map_app, !list_sum_app.
    assert (Hrest : map (fun r => S (potential (store_get (snd res) r)))
                        (skipn k unfinished) =
                    map (fun r => S (potential (store_get store r)))
                        (skipn k unfinished)).
    { apply map_ext_in. intros r Hr. destruct (Hin_rest r Hr) as [_ Hm].
      now rewrite P3. }
    rewrite Hrest.
    pose proof (sum_filter_le minibatch (stays f store)
                  (fun r => S (potential (store_get store r)))
                  (fun r => S (potential (store_get (snd res) r)))) as Hsum.
    assert (Hlen_mb : (1 <= List.length minibatch)%nat).
    { destruct minibatch; [contradiction | cbn; lia]. }
    cbv beta in Hsum.
    assert (H1 : forall r, In r minibatch -> stays f store r = true ->
                 (S (potential (store_get (snd res) r)) <
                  S (potential (store_get store r)))%nat).
    { intros r Hr Hs. rewrite P4 by assumption.
      destruct (member_cases store r (Dopen r (Hin_mb r Hr)))
        as [(Hs' & _) | (_ & _ & _ & td & Ht)]; [congruence|].
      pose proof (transition_potential _ _ _ (Dfront r) Ht). lia. }
    specialize (Hsum H1 (fun r _ => le_n_S _ _ (Nat.le_0_l _))). lia.
Qed.

Lemma loop_ends (n : nat) :
  forall (unfinished : list nat) (store : list PartialParse),
    (workload store unfinished < n)%nat ->
    driver_inv unfinished store ->
    exists fuel0 store',
      (forall fuel, (fuel0 <= fuel)%nat ->
         minibatch_loop fuel (map f) batch_size unfinished store =
         Some (Return tt, store')) /\
      driver_inv [] store'.
Proof.
  induction n as [|n IH]; intros unfinished store Hw Hinv; [lia|].
  destruct unfinished as [|r u].
  - exists 1%nat, store. split; [|exact Hinv].
    intros [|fuel] Hf; [lia | reflexivity].
  - assert (Hne : r :: u <> []) by discriminate.
    destruct (pass_keeps_invariant _ _ Hinv Hne) as (Heq & Hinv' & Hlt).
    cbv zeta in Heq, Hinv', Hlt.
    destruct (IH _ _ (Nat.lt_le_trans _ _ _ Hlt (proj1 (Nat.lt_succ_r _ _) Hw)) Hinv')
      as (fuel0 & store' & Hrun & Hfin).
    exists (S fuel0), store'. split; [|exact Hfin].
    intros [|fuel] Hf; [lia|]. rewrite Heq. apply Hrun. lia.
Qed.

Hypothesis sentences_have_words : forall s, In s sentences -> s <> [].

Lemma store_get_init (r : nat) :
  store_get (map init sentences) r = init (nth r sentences []).
Proof. unfold store_get. apply (map_nth init). Qed.

Lemma driver_inv_init :
  driver_inv (seq 0 (List.length (map init sentences))) (map init sentences).
Proof.
  rewrite length_map. constructor.
  - apply length_map.
  - apply seq_NoDup.
  - intros r Hr. apply in_seq in Hr. split; [rewrite length_map; lia|].
    rewrite store_get_init.
    assert (Hs : nth r sentences [] <> [])
      by (apply sentences_have_words, nth_In; lia).
    rewrite complete_value. f_equal.
    unfold init, Py.len. cbn [next sentence stack List.length].
    rewrite length_map.
    destruct (nth r sentences []); [contradiction|].
    cbn [List.length].
    destruct (Z.eqb_spec 1 (Z.of_nat (S (S (List.length l))))); [lia | reflexivity].
  - intros r. rewrite store_get_init. apply init_invariants.
  - intros r _ q Hq. now rewrite store_get_init in Hq.
  - intros r Hr Hnot. exfalso. apply Hnot. apply in_seq.
    rewrite length_map in Hr. lia.
Qed.

Lemma minibatch_parse_ends :
  exists fuel0 result,
    (forall fuel, (fuel0 <= fuel)%nat ->
       minibatch_parse fuel sentences (map f) batch_size = Some (Return result)) /\
    List.length result = List.length sentences /\
    (forall i, (i < List.length sentences)%nat ->
       exists q, finishes f (init (nth i sentences [])) q /\
                 nth i result [] = arcs q).
Proof.
  destruct (loop_ends _ _ _ (Nat.lt_succ_diag_r _) driver_inv_init)
    as (fuel0 & store' & Hrun & [Dlen _ _ _ _ Drd]).
  exists fuel0, (map arcs store'). split; [|split].
  - intros fuel Hf. unfold minibatch_parse. now rewrite (Hrun fuel Hf).
  - now rewrite length_map.
  - intros i Hi. exists (store_get store' i). split.
    + apply Drd; [lia | intros []].
    + unfold store_get. apply (map_nth arcs store' (init []) i).
Qed.

End Driver.

(** X17: for every batch size of at least 1, every decision function applied
    to each parse on its own, and sentences that all have words: with enough fuel
    [minibatch_parse] returns, without an error, one arc list per sentence; the
    [i]-th list holds the arcs at which the run of sentence [i] alone stops (at
    its first illegal proposal, or at completion). *)
Theorem minibatch_parse_pointwise (f : PartialParse -> td_pair)
    (sentences : list (list (string * string))) (batch_size : Z) :
  1 <= batch_size ->
  (forall s, In s sentences -> s <> []) ->
  exists fuel0 result,
    (forall fuel, (fuel0 <= fuel)%nat ->
       minibatch_parse fuel sentences (map f) batch_size = Some (Return result)) /\
    List.length result = List.length sentences /\
    (forall i, (i < List.length sentences)%nat ->
       exists q, finishes f (init (nth i sentences [])) q /\
                 nth i result [] = arcs q).
Proof. intros Hb Hs. now apply minibatch_parse_ends. Qed.

(** X18: under the same conditions the result of [minibatch_parse] does not
    depend on the batch size: any two batch sizes of at least 1 give the same
    list of arc lists. *)
Corollary minibatch_parse_any_batch_size (f : PartialParse -> td_pair)
    (sentences : list (list (string * string))) (b1 b2 : Z) :
  1 <= b1 -> 1 <= b2 ->
  (forall s, In s sentences -> s <> []) ->
  exists fuel0 result,
    forall fuel, (fuel0 <= fuel)%nat ->
      minibatch_parse fuel sentences (map f) b1 = Some (Return result) /\
      minibatch_parse fuel sentences (map f) b2 = Some (Return result).
Proof.
  intros H1 H2 Hs.
  destruct (minibatch_parse_ends f sentences b1 H1 Hs)
    as (n1 & r1 & Hr1 & Hl1 & Hq1).
  destruct (minibatch_parse_ends f sentences b2 H2 Hs)
    as (n2 & r2 & Hr2 & Hl2 & Hq2).
  assert (Heq : r1 = r2).
  { apply (nth_ext r1 r2 [] []); [congruence|].
    intros i Hi. rewrite Hl1 in Hi.
    destruct (Hq1 i Hi) as (q1 & Hf1 & ->).
    destruct (Hq2 i Hi) as (q2 & Hf2 & ->).
    f_equal. eapply finishes_deterministic; eauto. }
  subst r2. exists (Nat.max n1 n2), r1. intros fuel Hf.
  split; [apply Hr1 | apply Hr2]; lia.
Qed.

(** The counts of a complete run, as a lemma for later use. *)
Lemma complete_run_counts_aux (s : list (string * string))
    (tds : list td_pair) (pp : PartialParse) :
  steps (init s) tds pp ->
  complete pp = (Return true, pp) ->
  List.length tds = (2 * List.length s)%nat /\
  Permutation (map arc_dep (arcs pp)) (word_indices (List.length s)).
Proof.
  intros Hs Hc. apply complete_true_iff in Hc. destruct Hc as [Hn Hst].
  assert (Hne : stack (init s) <> []) by discriminate.
  destruct (steps_counts tds _ _ Hne Hs) as (I1 & I2 & I3 & I4 & I5 & I6).
  rewrite I1 in Hn. rewrite Hst in I4.
  unfold init, Py.len in Hn, I3, I4, I5.
  cbn [sentence stack next arcs List.length] in *.
  rewrite length_map in Hn.
  assert (Hk : count_if is_shift tds = List.length s) by lia.
  split; [lia|].
  unfold placed in I6. rewrite Hst in I6.
  cbn [tl app init stack arcs map next] in I6.
  rewrite Hk, zrange_words in I6. exact I6.
Qed.

(** * Further properties of the code *)

(** ** [parse]: composition, failure, and what it does to the arcs *)

Lemma parse_app_eq (tds1 tds2 : list td_pair) :
  forall pp,
    parse (tds1 ++ tds2) pp =
    match parse tds1 pp with
    | (Return _, pp1) => parse tds2 pp1
    | (Raise e, pp1) => (Raise e, pp1)
    end.
Proof.
  induction tds1 as [|[tid d] tds1 IH]; intros pp.
  - reflexivity.
  - cbn [app parse]. unfold bind.
    destruct (parse_step tid d pp) as [[u|e] pp1]; [apply IH | reflexivity].
Qed.

(** X1: applying a list of pairs in two parts is applying the first part
    and, if it succeeds, the second part to the object it leaves; if the first
    part raises, the second part is never started. *)
Theorem parse_app (tds1 tds2 : list td_pair) (pp : PartialParse) :
  parse (tds1 ++ tds2) pp =
  match parse tds1 pp with
  | (Return _, pp1) => parse tds2 pp1
  | (Raise e, pp1) => (Raise e, pp1)
  end.
Proof. apply parse_app_eq. Qed.

Lemma parse_return_arcs (tds : list td_pair) :
  forall pp l pp', parse tds pp = (Return l, pp') -> l = arcs pp'.
Proof.
  induction tds as [|[tid d] tds IH]; intros pp l pp' H.
  - cbn in H. unfold get_arcs in H. congruence.
  - cbn [parse] in H. unfold bind in H.
    destruct (parse_step tid d pp) as [[u|e] pp1]; [eauto | discriminate].
Qed.




Lemma steps_arcs_appended (tds : list td_pair) :
  forall pp pp',
    steps pp tds pp' ->
    sentence pp' = sentence pp /\
    next pp' = next pp + Z.of_nat (count_if is_shift tds) /\
    exists new,
      arcs pp' = arcs pp ++ new /\
      map arc_deprel new = arc_labels tds.
Proof.
  induction tds as [|td tds IH]; intros pp pp' Hs.
  - apply steps_nil_inv in Hs. subst. repeat split; [cbn; lia|].
    exists []. now rewrite app_nil_r.
  - apply steps_cons_inv in Hs. destruct Hs as (pp1 & Ht & Hs).
    destruct (IH _ _ Hs) as (I1 & I2 & new & I3 & I4).
    rewrite count_if_cons. unfold arc_labels in *. cbn [filter].
    destruct Ht as [p d Hn | p d rest second top Hst Hr | p d rest second top Hst];
      cbn [sentence next arcs shifted reduced] in *.
    + change (is_shift (shift_id, d)) with true.
      change (is_arc_op (shift_id, d)) with false. cbv iota.
      split; [congruence|]. split; [lia|]. exists new. auto.
    + change (is_shift (left_arc_id, d)) with false.
      change (is_arc_op (left_arc_id, d)) with true. cbv iota.
      split; [congruence|]. split; [lia|].
      exists ((top, second, d) :: new). rewrite I3, <- app_assoc.
      split; [reflexivity|]. cbn [map arc_deprel snd]. now rewrite I4.
    + change (is_shift (right_arc_id, d)) with false.
      change (is_arc_op (right_arc_id, d)) with true. cbv iota.
      split; [congruence|]. split; [lia|].
      exists ((second, top, d) :: new). rewrite I3, <- app_assoc.
      split; [reflexivity|]. cbn [map arc_deprel snd]. now rewrite I4.
Qed.

(** X3: a successful [parse] returns the arcs of the object it leaves; these
    are the arcs it found followed by one new arc per left-arc or right-arc, in
    order and with the labels as they were given; no arc is ever removed or
    changed, the sentence is untouched, and the frontier has advanced by the
    number of shifts. *)
Theorem parse_appends_arcs (tds : list td_pair) (pp pp' : PartialParse)
    (l : list arc) :
  parse tds pp = (Return l, pp') ->
  l = arcs pp' /\
  sentence pp' = sentence pp /\
  next pp' = next pp + Z.of_nat (count_if is_shift tds) /\
  exists new,
    arcs pp' = arcs pp ++ new /\
    List.length new = count_if is_arc_op tds /\
    map arc_deprel new = arc_labels tds.
Proof.
  intros H. pose proof (parse_return_arcs _ _ _ _ H) as ->.
  split; [reflexivity|].
  destruct (steps_arcs_appended tds pp pp' H) as (H1 & H2 & new & H3 & H4).
  repeat split; auto. exists new. repeat split; auto.
  rewrite <- (length_map arc_deprel), H4. unfold arc_labels, count_if.
  apply length_map.
Qed.

Lemma parse_appends_arcs_witness :
  let pp := init [("a", "t"); ("b", "t")]%string in
  let tds := [(shift_id, None); (shift_id, Some "s"%string);
              (left_arc_id, Some "x"%string); (right_arc_id, None)] in
  let pp' := {| sentence := sentence pp; stack := [0]; next := 3;
                arcs := [(2, 1, Some "x"%string); (0, 2, None)] |} in
  arcs pp' = arcs pp' /\
  sentence pp' = sentence pp /\
  next pp' = next pp + Z.of_nat (count_if is_shift tds) /\
  exists new,
    arcs pp' = arcs pp ++ new /\
    List.length new = count_if is_arc_op tds /\
    map arc_deprel new = arc_labels tds.
Proof.
  cbv zeta.
  apply (parse_appends_arcs _ (init [("a", "t"); ("b", "t")]%string)).
  reflexivity.
Defined.

(** ** Configurations: induction on the last transition *)

Lemma steps_snoc (pp mid pp' : PartialParse) (tds : list td_pair) (td : td_pair) :
  steps pp tds mid -> transition mid td pp' -> steps pp (tds ++ [td]) pp'.
Proof.
  intros Hs Ht. eapply steps_app; [exact Hs|].
  eapply steps_cons; [exact Ht | apply steps_nil].
Qed.

Lemma steps_snoc_inv (tds : list td_pair) :
  forall pp pp' td,
    steps pp (tds ++ [td]) pp' ->
    exists mid, steps pp tds mid /\ transition mid td pp'.
Proof.
  induction tds as [|td0 tds IH]; intros pp pp' td Hs.
  - cbn [app] in Hs. apply steps_cons_inv in Hs. destruct Hs as (pp1 & Ht & Hs).
    apply steps_nil_inv in Hs. subst. exists pp. split; [apply steps_nil | exact Ht].
  - cbn [app] in Hs. apply steps_cons_inv in Hs. destruct Hs as (pp1 & Ht & Hs).
    destruct (IH _ _ _ Hs) as (mid & Hs' & Ht').
    exists mid. split; [|exact Ht']. eapply steps_cons; eauto.
Qed.

Lemma configuration_init (s : list (string * string)) : configuration s (init s).
Proof. exists []. apply steps_nil. Qed.

Lemma configuration_step (s : list (string * string)) (pp pp' : PartialParse)
    (td : td_pair) :
  configuration s pp -> transition pp td pp' -> configuration s pp'.
Proof. intros [tds Hs] Ht. exists (tds ++ [td]). eapply steps_snoc; eauto. Qed.

Lemma configuration_induction (s : list (string * string))
    (P : PartialParse -> Prop) :
  P (init s) ->
  (forall pp td pp',
      configuration s pp -> P pp -> transition pp td pp' -> P pp') ->
  forall pp, configuration s pp -> P pp.
Proof.
  intros H0 Hstep pp [tds Hs]. revert pp Hs.
  induction tds as [|td tds IH] using rev_ind; intros pp Hs.
  - apply steps_nil_inv in Hs. now subst.
  - apply steps_snoc_inv in Hs. destruct Hs as (mid & Hs & Ht).
    eapply Hstep; [| apply IH; exact Hs | exact Ht]. now exists tds.
Qed.

(** ** The stack is sorted *)

Lemma sorted_snoc (l : list Z) (x : Z) :
  StronglySorted Z.lt l -> Forall (fun y => y < x) l ->
  StronglySorted Z.lt (l ++ [x]).
Proof.
  induction l as [|a l IH]; intros Hs Hf; cbn [app].
  - constructor; constructor.
  - apply StronglySorted_inv in Hs. destruct Hs as [Hs Ha].
    inversion Hf as [|? ? Hax Hf']. subst.
    constructor; [now apply IH|].
    apply Forall_app. split; [exact Ha | now constructor].
Qed.

Lemma descending_sorted (l : list Z) :
  forall b, descending b (rev l) ->
            StronglySorted Z.lt l /\ Forall (fun x => x < b) l.
Proof.
  induction l as [|x l IH] using rev_ind; intros b H.
  - split; constructor.
  - rewrite rev_app_distr in H. cbn in H. destruct H as [Hx Hd].
    destruct (IH _ Hd) as [Hs Hf]. split.
    + now apply sorted_snoc.
    + apply Forall_app. split.
      * eapply Forall_impl; [|exact Hf]. cbn. intros. lia.
      * now constructor.
Qed.

(** X4: in every configuration reached from an initial one the stack starts
    with ROOT, increases strictly towards its top, and holds only indices below
    the frontier, which itself never passes [len(sentence)]: the words on the
    stack are in sentence order, and every word of the buffer is to the right
    of the whole stack. *)
Theorem configuration_stack_sorted (s : list (string * string)) (pp : PartialParse) :
  configuration s pp ->
  (exists rest, stack pp = 0 :: rest) /\
  StronglySorted Z.lt (stack pp) /\
  (forall x, In x (stack pp) -> 0 <= x < next pp) /\
  1 <= next pp <= Py.len (sentence pp).
Proof.
  intros Hc. apply configuration_invariants in Hc.
  destruct Hc as [Hst Hf Hi Ho]. unfold inv_order in Ho.
  apply descending_sorted in Ho. destruct Ho as [Hs Hb].
  split; [exact Hst|]. split; [exact Hs|]. split; [|exact Hf].
  intros x Hx. split.
  - destruct Hi as [Hi _]. apply Hi in Hx. unfold in_range in Hx. lia.
  - rewrite Forall_forall in Hb. now apply Hb.
Qed.

Lemma configuration_stack_sorted_witness :
  let pp := {| sentence := sentence (init test_sentence); stack := [0; 1; 3];
               next := 4; arcs := [(3, 2, Some "deprel_2"%string)] |} in
  (exists rest, stack pp = 0 :: rest) /\
  StronglySorted Z.lt (stack pp) /\
  (forall x, In x (stack pp) -> 0 <= x < next pp) /\
  1 <= next pp <= Py.len (sentence pp).
Proof.
  cbv zeta. apply (configuration_stack_sorted test_sentence).
  exists [(shift_id, None); (shift_id, None); (shift_id, None);
          (left_arc_id, Some "deprel_2"%string)].
  reflexivity.
Defined.

(** ** Every word is in one place *)

Lemma configuration_counts (s : list (string * string)) (pp : PartialParse) :
  configuration s pp ->
  exists k a : nat,
    next pp = 1 + Z.of_nat k /\
    Py.len (stack pp) = 1 + Z.of_nat k - Z.of_nat a /\
    List.length (arcs pp) = a /\
    sentence pp = sentence (init s) /\
    Permutation (placed pp) (word_indices k) /\
    (forall tds, steps (init s) tds pp ->
                 List.length tds = (k + a)%nat /\
                 count_if is_shift tds = k /\ count_if is_arc_op tds = a).
Proof.
  intros [tds Hs].
  assert (Hne : stack (init s) <> []) by discriminate.
  destruct (steps_counts tds _ _ Hne Hs) as (I1 & I2 & I3 & I4 & I5 & I6).
  exists (count_if is_shift tds), (count_if is_arc_op tds).
  cbn [init stack next arcs sentence] in I3, I4, I5, I6.
  change (Py.len [0]) with 1 in I4. cbn [List.length Nat.add] in I5.
  unfold placed at 2 in I6. cbn [init stack arcs tl map app] in I6.
  rewrite zrange_words in I6.
  split; [exact I3|]. split; [exact I4|]. split; [exact I5|].
  split; [exact I1|]. split; [exact I6|].
  intros tds' Hs'.
  destruct (steps_counts tds' _ _ Hne Hs') as (J1 & J2 & J3 & J4 & J5 & J6).
  cbn [init stack next arcs sentence] in J3, J4, J5.
  change (Py.len [0]) with 1 in J4. cbn [List.length Nat.add] in J5. lia.
Qed.

Lemma word_indices_in (k : nat) (x : Z) :
  In x (word_indices k) <-> 1 <= x <= Z.of_nat k.
Proof.
  unfold word_indices. rewrite in_map_iff. split.
  - intros (i & <- & Hi). apply in_seq in Hi. lia.
  - intros H. exists (Z.to_nat x). split; [lia|]. apply in_seq. lia.
Qed.

Lemma word_indices_NoDup (k : nat) : NoDup (word_indices k).
Proof.
  unfold word_indices. apply Finite.Injective_map_NoDup.
  - intros x y. apply Nat2Z.inj.
  - apply seq_NoDup.
Qed.

Lemma words_placed_once (s : list (string * string))
    (pp : PartialParse) :
  configuration s pp ->
  Permutation (tl (stack pp) ++ map arc_dep (arcs pp))
              (word_indices (Z.to_nat (next pp - 1))) /\
  NoDup (map arc_dep (arcs pp)) /\
  (forall d, In d (map arc_dep (arcs pp)) ->
             1 <= d < next pp /\ ~ In d (stack pp)).
Proof.
  intros Hc. pose proof (configuration_invariants _ _ Hc) as [[rest Hst] _ _ _].
  destruct (configuration_counts _ _ Hc) as (k & a & Hk & _ & _ & _ & Hp & _).
  unfold placed in Hp.
  replace (Z.to_nat (next pp - 1)) with k by lia.
  assert (Hnd : NoDup (tl (stack pp) ++ map arc_dep (arcs pp))).
  { eapply Permutation_NoDup; [apply Permutation_sym; exact Hp|].
    apply word_indices_NoDup. }
  split; [exact Hp|]. split; [now apply NoDup_app_remove_l in Hnd|].
  intros d Hd.
  assert (Hin : In d (word_indices k)).
  { eapply Permutation_in; [exact Hp|]. apply in_or_app. now right. }
  apply word_indices_in in Hin. split; [lia|].
  rewrite Hst. intros [H0 | Hr]; [lia|].
  rewrite Hst in Hnd. cbn [tl] in Hnd.
  exact (NoDup_app_disjoint _ _ _ Hnd Hr Hd).
Qed.

(** X5: in every configuration the words already taken from the buffer,
    [1 .. next-1], are each in exactly one place: on the stack above ROOT, or
    attached as the dependant of exactly one arc.  So no word has two heads,
    ROOT is never a dependant, a word on the stack has no head yet, and a word
    of the buffer occurs nowhere as a dependant. *)
Theorem configuration_words_placed_once (s : list (string * string))
    (pp : PartialParse) :
  configuration s pp ->
  Permutation (tl (stack pp) ++ map arc_dep (arcs pp))
              (word_indices (Z.to_nat (next pp - 1))) /\
  NoDup (map arc_dep (arcs pp)) /\
  (forall d, In d (map arc_dep (arcs pp)) ->
             1 <= d < next pp /\ ~ In d (stack pp)).
Proof. apply words_placed_once. Qed.

Lemma configuration_words_placed_once_witness :
  let pp := {| sentence := sentence (init test_sentence); stack := [0; 1; 3];
               next := 4; arcs := [(3, 2, Some "deprel_2"%string)] |} in
  Permutation (tl (stack pp) ++ map arc_dep (arcs pp))
              (word_indices (Z.to_nat (next pp - 1))) /\
  NoDup (map arc_dep (arcs pp)) /\
  (forall d, In d (map arc_dep (arcs pp)) ->
             1 <= d < next pp /\ ~ In d (stack pp)).
Proof.
  cbv zeta. apply (configuration_words_placed_once test_sentence).
  exists [(shift_id, None); (shift_id, None); (shift_id, None);
          (left_arc_id, Some "deprel_2"%string)].
  reflexivity.
Defined.

(** ** How long a run can be, and when the machine is stuck *)

Lemma len_sentence_init (s : list (string * string)) :
  Py.len (sentence (init s)) = 1 + Z.of_nat (List.length s).
Proof. unfold init, Py.len. cbn [sentence List.length]. rewrite length_map. lia. Qed.

(** X6: no run of successful transitions from the initial configuration of
    an [n]-word sentence is longer than [2n], whatever the transitions are, and
    a run has length [2n] exactly when it ends in a complete configuration. *)
Theorem run_length_bound (s : list (string * string)) (tds : list td_pair)
    (pp : PartialParse) :
  steps (init s) tds pp ->
  (List.length tds <= 2 * List.length s)%nat /\
  (List.length tds = (2 * List.length s)%nat <-> complete pp = (Return true, pp)).
Proof.
  intros Hs.
  assert (Hc : configuration s pp) by now exists tds.
  pose proof (configuration_invariants _ _ Hc) as [[rest Hst] Hf _ _].
  destruct (configuration_counts _ _ Hc) as (k & a & Hk & Ha & _ & Hsen & _ & Hl).
  destruct (Hl tds Hs) as (Hlen & _ & _).
  unfold inv_frontier in Hf. rewrite Hsen, len_sentence_init in Hf.
  assert (Hpos : 1 <= Py.len (stack pp)).
  { rewrite Hst. unfold Py.len. cbn [List.length]. lia. }
  split; [lia|]. rewrite complete_true_iff, Hsen, len_sentence_init. split.
  - intros He. split; [lia|].
    assert (Hone : Py.len (stack pp) = 1) by lia.
    rewrite Hst in *. destruct rest; [reflexivity|].
    unfold Py.len in Hone. cbn [List.length] in Hone. lia.
  - intros [Hn Hs1]. rewrite Hs1 in Ha. change (Py.len [0]) with 1 in Ha. lia.
Qed.

Lemma run_length_bound_witness :
  let s := [("a", "t"); ("b", "t")]%string in
  let tds := [(shift_id, @None string); (shift_id, @None string); (left_arc_id, @None string)] in
  let pp := {| sentence := sentence (init s); stack := [0; 2]; next := 3;
               arcs := [(2, 1, @None string)] |} in
  (List.length tds <= 2 * List.length s)%nat /\
  (List.length tds = (2 * List.length s)%nat <-> complete pp = (Return true, pp)).
Proof.
  cbv zeta.
  apply (run_length_bound [("a", "t"); ("b", "t")]%string
           [(shift_id, @None string); (shift_id, @None string); (left_arc_id, @None string)]).
  reflexivity.
Defined.

(** X7: a configuration is stuck, every transition identifier with every
    label being refused, exactly when it is complete: before completion a shift
    or a right-arc is always possible. *)
Theorem stuck_iff_complete (s : list (string * string)) (pp : PartialParse) :
  configuration s pp ->
  ((forall (transition_id : Z) (deprel : option string),
       exists e pp', parse_step transition_id deprel pp = (Raise e, pp')) <->
   complete pp = (Return true, pp)).
Proof.
  intros Hc. pose proof (configuration_invariants _ _ Hc) as [[rest Hst] Hf _ _].
  split.
  - intros Hall. apply complete_true_iff.
    assert (Hn : next pp = Py.len (sentence pp)).
    { destruct (Z.eq_dec (next pp) (Py.len (sentence pp))) as [He|He]; [exact He|].
      destruct (Hall shift_id None) as (e & pp' & Hp).
      rewrite parse_step_shift_ok in Hp by assumption. discriminate. }
    split; [exact Hn|].
    destruct rest as [|x rest]; [exact Hst|]. exfalso.
    destruct (split_last2 (stack pp)) as (r & sd & t & Hs2).
    { rewrite Hst. unfold Py.len. cbn [List.length]. lia. }
    destruct (Hall right_arc_id None) as (e & pp' & Hp).
    rewrite (parse_step_right_ok _ _ _ _ _ Hs2) in Hp. discriminate.
  - intros Hcomp tid d.
    destruct (parse_step_on_complete pp tid d Hcomp) as [msg Hp]. eauto.
Qed.

Lemma stuck_iff_complete_witness :
  let pp := {| sentence := sentence (init [("a", "t")]%string); stack := [0];
               next := 2; arcs := [(0, 1, @None string)] |} in
  (forall (transition_id : Z) (deprel : option string),
      exists e pp', parse_step transition_id deprel pp = (Raise e, pp')) <->
  complete pp = (Return true, pp).
Proof.
  cbv zeta. apply (stuck_iff_complete [("a", "t")]%string).
  exists [(shift_id, @None string); (right_arc_id, @None string)]. reflexivity.
Defined.

(** ** The shape of the arcs: no crossing, bottom-up, ordered dependants *)

Lemma stack_top_two (s : list (string * string)) (pp : PartialParse)
    (rest : list Z) (second top : Z) :
  configuration s pp -> stack pp = rest ++ [second; top] ->
  0 <= second /\ second < top /\ top < next pp /\
  (forall x, In x rest -> x < second) /\
  ~ In second (map arc_dep (arcs pp)) /\ ~ In top (map arc_dep (arcs pp)).
Proof.
  intros Hc Hst.
  pose proof (configuration_invariants _ _ Hc) as [_ _ [Hi _] Ho].
  unfold inv_order in Ho. rewrite Hst, rev_app_distr in Ho. cbn in Ho.
  destruct Ho as (Ht & Hs & Hd). apply descending_sorted in Hd.
  destruct Hd as [_ Hd]. rewrite Forall_forall in Hd.
  assert (Hin_s : In second (stack pp))
    by (rewrite Hst; apply in_or_app; right; cbn; tauto).
  assert (Hin_t : In top (stack pp))
    by (rewrite Hst; apply in_or_app; right; cbn; tauto).
  destruct (words_placed_once _ _ Hc) as (_ & _ & Hdep).
  pose proof (Hi _ Hin_s) as Hr. unfold in_range in Hr.
  repeat split; try lia; auto.
  - intros H. apply Hdep in H. tauto.
  - intros H. apply Hdep in H. tauto.
Qed.

Lemma new_arc_shape (s : list (string * string)) (pp : PartialParse)
    (rest st' : list Z) (second top : Z) (n : arc) :
  configuration s pp -> arcs_shape pp ->
  stack pp = rest ++ [second; top] ->
  (forall x, In x st' -> In x (stack pp)) ->
  (n = (top, second, arc_deprel n) \/ n = (second, top, arc_deprel n)) ->
  arcs_shape (reduced pp st' n).
Proof.
  intros Hc [He Hf Hx] Hst Hsub Hn.
  destruct (stack_top_two _ _ _ _ _ Hc Hst) as (H0 & Hlt & Htn & Hrest & _ & _).
  assert (Hin_s : In second (stack pp))
    by (rewrite Hst; apply in_or_app; right; cbn; tauto).
  assert (Hin_t : In top (stack pp))
    by (rewrite Hst; apply in_or_app; right; cbn; tauto).
  assert (Hlo : arc_lo n = second /\ arc_hi n = top).
  { unfold arc_lo, arc_hi, arc_head, arc_dep.
    destruct Hn as [-> | ->]; cbn [fst snd]; lia. }
  destruct Hlo as [Hlo Hhi].
  assert (Hold : forall a, In a (arcs pp) ->
                           ~ crosses a n /\ ~ crosses n a).
  { intros a Ha. pose proof (Hf a second Ha Hin_s) as F1.
    pose proof (Hf a top Ha Hin_t) as F2.
    unfold crosses, under_arc in *. rewrite Hlo, Hhi. lia. }
  constructor; cbn [arcs stack next reduced].
  - intros a Ha. apply in_app_or in Ha. destruct Ha as [Ha | [<- | []]]; [auto|].
    unfold arc_head, arc_dep. destruct Hn as [-> | ->]; cbn [fst snd]; lia.
  - intros a x Ha Hx'. apply Hsub in Hx'.
    apply in_app_or in Ha. destruct Ha as [Ha | [<- | []]]; [auto|].
    unfold under_arc. rewrite Hlo, Hhi.
    rewrite Hst in Hx'. apply in_app_or in Hx'.
    destruct Hx' as [Hr | [<- | [<- | []]]]; [apply Hrest in Hr|..]; lia.
  - intros a b Ha Hb.
    apply in_app_or in Ha. apply in_app_or in Hb.
    destruct Ha as [Ha | [<- | []]]; destruct Hb as [Hb | [<- | []]].
    + auto.
    + now apply Hold.
    + now apply Hold.
    + unfold crosses. lia.
Qed.

Lemma configuration_arcs_shape (s : list (string * string)) (pp : PartialParse) :
  configuration s pp -> arcs_shape pp.
Proof.
  apply configuration_induction.
  - constructor; cbn [arcs init]; intros; contradiction.
  - intros p td p' Hc IH Ht.
    destruct Ht as [p d Hn | p d rest second top Hst Hr | p d rest second top Hst].
    + destruct IH as [He Hf Hx].
      destruct (words_placed_once _ _ Hc) as (_ & _ & Hdep).
      constructor; cbn [arcs stack next shifted].
      * intros a Ha. destruct (He a Ha). lia.
      * intros a x Ha Hx'. apply in_app_or in Hx'.
        destruct Hx' as [Hx' | [<- | []]]; [auto|].
        destruct (He a Ha) as [Hh _].
        assert (Hd : arc_dep a < next p).
        { apply Hdep. apply in_map_iff. eauto. }
        unfold under_arc, arc_lo, arc_hi. lia.
      * exact Hx.
    + eapply new_arc_shape; eauto.
      intros x Hx. rewrite Hst. apply in_app_or in Hx. apply in_or_app.
      destruct Hx as [Hx | [<- | []]]; [tauto | right; cbn; tauto].
    + eapply new_arc_shape; eauto.
      intros x Hx. rewrite Hst. apply in_app_or in Hx. apply in_or_app.
      destruct Hx as [Hx | [<- | []]]; [tauto | right; cbn; tauto].
Qed.



Lemma snoc_split {A : Type} (l l1 l2 : list A) (n a : A) :
  l ++ [n] = l1 ++ a :: l2 ->
  (l2 = [] /\ l = l1 /\ a = n) \/
  (exists l2', l2 = l2' ++ [n] /\ l = l1 ++ a :: l2').
Proof.
  destruct l2 as [|x l2' _] using rev_ind; intros H.
  - left. apply app_inj_tail in H. destruct H as [-> ->]. auto.
  - right. exists l2'.
    change (l1 ++ a :: l2' ++ [x]) with (l1 ++ (a :: l2') ++ [x]) in H.
    rewrite app_assoc in H. apply app_inj_tail in H. destruct H as [-> ->]. auto.
Qed.

Lemma new_arc_ends (s : list (string * string)) (pp pp' : PartialParse)
    (td : td_pair) :
  configuration s pp -> transition pp td pp' ->
  arcs pp' = arcs pp \/
  exists n, arcs pp' = arcs pp ++ [n] /\
            In (arc_head n) (stack pp) /\ In (arc_dep n) (stack pp) /\
            arc_head n <> arc_dep n /\
            ~ In (arc_head n) (map arc_dep (arcs pp)) /\
            ~ In (arc_dep n) (map arc_dep (arcs pp)).
Proof.
  intros Hc Ht.
  destruct Ht as [p d Hn | p d rest second top Hst Hr | p d rest second top Hst];
    [now left | right | right].
  - destruct (stack_top_two _ _ _ _ _ Hc Hst) as (_ & Hlt & _ & _ & Hs & Htp).
    exists (top, second, d). cbn [arcs reduced arc_head arc_dep fst snd].
    rewrite Hst. repeat split; auto; try lia;
      apply in_or_app; right; cbn; tauto.
  - destruct (stack_top_two _ _ _ _ _ Hc Hst) as (_ & Hlt & _ & _ & Hs & Htp).
    exists (second, top, d). cbn [arcs reduced arc_head arc_dep fst snd].
    rewrite Hst. repeat split; auto; try lia;
      apply in_or_app; right; cbn; tauto.
Qed.

Lemma configuration_bottom_up (s : list (string * string)) (pp : PartialParse) :
  configuration s pp ->
  forall l1 a l2,
    arcs pp = l1 ++ a :: l2 ->
    ~ In (arc_head a) (map arc_dep (l1 ++ [a])).
Proof.
  apply (configuration_induction s
           (fun pp => forall l1 a l2, arcs pp = l1 ++ a :: l2 ->
                                      ~ In (arc_head a) (map arc_dep (l1 ++ [a])))).
  - intros l1 a l2 H. cbn in H. destruct l1; discriminate.
  - intros p td p' Hc IH Ht l1 a l2 Heq.
    destruct (new_arc_ends _ _ _ _ Hc Ht)
      as [Hsame | (n & Hn & _ & _ & Hne & Hh & _)].
    + rewrite Hsame in Heq. eauto.
    + rewrite Hn in Heq. apply snoc_split in Heq.
      destruct Heq as [(-> & <- & ->) | (l2' & -> & Heq)]; [|eauto].
      rewrite map_app. intros Hin. apply in_app_or in Hin.
      destruct Hin as [Hin | [Hin | []]]; [contradiction | congruence].
Qed.

(** X9: arcs are built bottom-up: the head of an arc is never a word that
    an earlier arc (or the arc itself) has attached as a dependant.  A word
    that has received its head therefore never takes a dependant afterwards, no
    arc is a loop on one word, and the arcs contain no cycle. *)
Theorem arcs_built_bottom_up (s : list (string * string)) (pp : PartialParse) :
  configuration s pp ->
  forall l1 a l2,
    arcs pp = l1 ++ a :: l2 ->
    arc_head a <> arc_dep a /\
    forall b, In b l1 -> arc_dep b <> arc_head a.
Proof.
  intros Hc l1 a l2 Heq.
  pose proof (configuration_bottom_up _ _ Hc _ _ _ Heq) as H.
  rewrite map_app in H. split.
  - intros He. apply H. apply in_or_app. right. cbn. now left.
  - intros b Hb He. apply H. apply in_or_app. left.
    apply in_map_iff. eauto.
Qed.

Lemma arcs_built_bottom_up_witness :
  let pp := {| sentence := sentence (init test_sentence); stack := [0; 1; 5];
               next := 6;
               arcs := [(3, 2, Some "deprel_2"%string);
                        (3, 4, Some "deprel_4"%string);
                        (5, 3, Some "deprel_3"%string)] |} in
  let a := (5, 3, Some "deprel_3"%string) in
  arc_head a <> arc_dep a /\
  forall b, In b [(3, 2, Some "deprel_2"%string); (3, 4, Some "deprel_4"%string)] ->
            arc_dep b <> arc_head a.
Proof.
  cbv zeta.
  apply (arcs_built_bottom_up test_sentence
           {| sentence := sentence (init test_sentence); stack := [0; 1; 5];
              next := 6;
              arcs := [(3, 2, Some "deprel_2"%string);
                       (3, 4, Some "deprel_4"%string);
                       (5, 3, Some "deprel_3"%string)] |})
    with (l2 := []).
  - exists [(shift_id, None); (shift_id, None); (shift_id, None);
            (left_arc_id, Some "deprel_2"%string); (shift_id, None);
            (right_arc_id, Some "deprel_4"%string); (shift_id, None);
            (left_arc_id, Some "deprel_3"%string)].
    reflexivity.
  - reflexivity.
Defined.

Lemma sorted_snoc_by (R : Z -> Z -> Prop) (l : list Z) (x : Z) :
  StronglySorted R l -> Forall (fun y => R y x) l ->
  StronglySorted R (l ++ [x]).
Proof.
  induction l as [|a l IH]; intros Hs Hf; cbn [app].
  - constructor; constructor.
  - apply StronglySorted_inv in Hs. destruct Hs as [Hs Ha].
    inversion Hf as [|? ? Hax Hf']. subst.
    constructor; [now apply IH|].
    apply Forall_app. split; [exact Ha | now constructor].
Qed.

Lemma deps_of_app (i : Z) (l1 l2 : list arc) :
  deps_of i (l1 ++ l2) = deps_of i l1 ++ deps_of i l2.
Proof. unfold deps_of. now rewrite filter_app, map_app. Qed.

Lemma deps_of_in (i d : Z) (l : list arc) :
  In d (deps_of i l) <-> exists lbl, In (i, d, lbl) l.
Proof.
  unfold deps_of. rewrite in_map_iff. split.
  - intros ([[h d'] lbl] & Hd & Hin). apply filter_In in Hin.
    destruct Hin as [Hin Hh]. cbn in Hd, Hh. apply Z.eqb_eq in Hh. subst.
    now exists lbl.
  - intros [lbl Hin]. exists (i, d, lbl). split; [reflexivity|].
    apply filter_In. split; [exact Hin | apply Z.eqb_refl].
Qed.

Lemma configuration_deps_sorted (s : list (string * string)) (i : Z)
    (pp : PartialParse) :
  configuration s pp ->
  StronglySorted Z.lt (right_deps_of i (arcs pp)) /\
  StronglySorted Z.gt (left_deps_of i (arcs pp)).
Proof.
  apply (configuration_induction s
           (fun pp => StronglySorted Z.lt (right_deps_of i (arcs pp)) /\
                      StronglySorted Z.gt (left_deps_of i (arcs pp)))).
  - cbn. split; constructor.
  - intros p td p' Hc [IHr IHl] Ht.
    destruct (configuration_arcs_shape _ _ Hc) as [_ Hfree _].
    destruct (new_arc_ends _ _ _ _ Hc Ht)
      as [Hsame | (n & Hn & Hhs & Hds & Hne & _ & Hdn)];
      [now rewrite Hsame|].
    rewrite Hn. unfold right_deps_of, left_deps_of in *.
    rewrite deps_of_app, !filter_app.
    unfold deps_of at 2 4. cbn [filter].
    destruct (Z.eqb_spec (arc_head n) i) as [Hi | Hi];
      [|cbn; now rewrite !app_nil_r].
    cbn [map filter].
    assert (Hold : forall d, In d (deps_of i (arcs p)) ->
                             d <> arc_dep n /\
                             ~ (Z.min i d < arc_dep n < Z.max i d)).
    { intros d Hd. split.
      - intros ->. apply Hdn. apply deps_of_in in Hd. destruct Hd as [lbl Hd].
        apply in_map_iff. now exists (i, arc_dep n, lbl).
      - apply deps_of_in in Hd. destruct Hd as [lbl Hd].
        exact (Hfree _ _ Hd Hds). }
    destruct (Z.ltb_spec i (arc_dep n)) as [Hlt | Hge].
    + destruct (Z.ltb_spec (arc_dep n) i); [lia|].
      rewrite app_nil_r. split; [|exact IHl].
      apply sorted_snoc_by; [exact IHr|].
      apply Forall_forall. intros d Hd. apply filter_In in Hd.
      destruct Hd as [Hd Hid]. apply Z.ltb_lt in Hid.
      destruct (Hold d Hd). lia.
    + destruct (Z.ltb_spec (arc_dep n) i); [|lia].
      rewrite app_nil_r. split; [exact IHr|].
      apply sorted_snoc_by; [exact IHl|].
      apply Forall_forall. intros d Hd. apply filter_In in Hd.
      destruct Hd as [Hd Hid]. apply Z.ltb_lt in Hid.
      destruct (Hold d Hd). lia.
Qed.

Lemma deps_of_rev (i : Z) (l : list arc) :
  deps_of i (rev l) = rev (deps_of i l).
Proof.
  induction l as [|a l IH]; [reflexivity|].
  cbn [rev]. rewrite deps_of_app, IH.
  change (a :: l) with ([a] ++ l). rewrite deps_of_app, rev_app_distr.
  f_equal. unfold deps_of. cbn [filter].
  destruct (arc_head a =? i); reflexivity.
Qed.

Lemma filter_all {A : Type} (f : A -> bool) (l : list A) :
  (forall x, In x l -> f x = true) -> filter f l = l.
Proof.
  induction l as [|a l IH]; intros H; [reflexivity|].
  cbn [filter]. rewrite (H a (or_introl eq_refl)). f_equal.
  apply IH. intros x Hx. apply H. now right.
Qed.

(** X10: what the two dependant queries return, for every object, every
    index [i] and every [n]: with [all] the dependants of the arcs headed by
    [i], in creation order, [get_n_leftmost_deps] returns [all] cut to its first
    [n] elements and [get_n_rightmost_deps] the reverse of [all] cut to its
    first [n] elements; [n = None] and, as the counter then never meets [n],
    every negative [n] return the whole list; an [n] beyond the number of
    dependants returns them all; and neither query changes the object. *)
Theorem deps_queries_characterised (pp : PartialParse) (i : Z) :
  (forall d, In d (deps_of i (arcs pp)) <-> exists lbl, In (i, d, lbl) (arcs pp)) /\
  get_n_leftmost_deps i None pp = (Return (deps_of i (arcs pp)), pp) /\
  get_n_rightmost_deps i None pp = (Return (rev (deps_of i (arcs pp))), pp) /\
  (forall n, 0 <= n ->
     get_n_leftmost_deps i (Some n) pp =
       (Return (firstn (Z.to_nat n) (deps_of i (arcs pp))), pp) /\
     get_n_rightmost_deps i (Some n) pp =
       (Return (firstn (Z.to_nat n) (rev (deps_of i (arcs pp)))), pp)) /\
  (forall n, n < 0 ->
     get_n_leftmost_deps i (Some n) pp = (Return (deps_of i (arcs pp)), pp) /\
     get_n_rightmost_deps i (Some n) pp =
       (Return (rev (deps_of i (arcs pp))), pp)) /\
  (forall n, Z.of_nat (List.length (deps_of i (arcs pp))) <= n ->
     get_n_leftmost_deps i (Some n) pp = (Return (deps_of i (arcs pp)), pp) /\
     get_n_rightmost_deps i (Some n) pp =
       (Return (rev (deps_of i (arcs pp))), pp)).
Proof.
  split; [intros d; apply deps_of_in|].
  split; [apply get_n_leftmost_deps_value|].
  split; [rewrite get_n_rightmost_deps_value; now rewrite deps_of_rev|].
  assert (Hpos : forall n, 0 <= n ->
     get_n_leftmost_deps i (Some n) pp =
       (Return (firstn (Z.to_nat n) (deps_of i (arcs pp))), pp) /\
     get_n_rightmost_deps i (Some n) pp =
       (Return (firstn (Z.to_nat n) (rev (deps_of i (arcs pp)))), pp)).
  { intros n Hn.
    rewrite get_n_leftmost_deps_value, get_n_rightmost_deps_value, deps_of_rev.
    destruct (Z.ltb_spec n 0); [lia | auto]. }
  split; [exact Hpos|]. split.
  - intros n Hn.
    rewrite get_n_leftmost_deps_value, get_n_rightmost_deps_value, deps_of_rev.
    destruct (Z.ltb_spec n 0); [auto | lia].
  - intros n Hn. destruct (Hpos n) as [H1 H2]; [lia|].
    rewrite H1, H2, !firstn_all2; [auto | rewrite length_rev; lia | lia].
Qed.

(** X11: in every configuration the dependants that a word [i] has on its
    right were attached in increasing order and those on its left in decreasing
    order (nearest first on both sides).  So for a word whose dependants all
    lie on its right the two queries do order by position:
    [get_n_leftmost_deps] returns them leftmost first and
    [get_n_rightmost_deps] rightmost first. *)
Theorem dependants_creation_order (s : list (string * string)) (i : Z)
    (pp : PartialParse) :
  configuration s pp ->
  StronglySorted Z.lt (right_deps_of i (arcs pp)) /\
  StronglySorted Z.gt (left_deps_of i (arcs pp)) /\
  ((forall d, In d (deps_of i (arcs pp)) -> i < d) ->
   exists l,
     StronglySorted Z.lt l /\
     get_n_leftmost_deps i None pp = (Return l, pp) /\
     get_n_rightmost_deps i None pp = (Return (rev l), pp)).
Proof.
  intros Hc. destruct (configuration_deps_sorted s i pp Hc) as [Hr Hl].
  split; [exact Hr|]. split; [exact Hl|].
  intros Hall. exists (deps_of i (arcs pp)). split.
  - unfold right_deps_of in Hr. rewrite filter_all in Hr; [exact Hr|].
    intros d Hd. apply Z.ltb_lt. now apply Hall.
  - split; [apply get_n_leftmost_deps_value|].
    rewrite get_n_rightmost_deps_value. now rewrite deps_of_rev.
Qed.

Lemma dependants_creation_order_witness :
  let pp := {| sentence := sentence (init chain_sentence); stack := [0; 1];
               next := 4;
               arcs := [(1, 2, Some "x"); (1, 3, Some "y")]%string |} in
  let pp' := {| sentence := sentence (init chain_sentence); stack := [0; 3];
                next := 4;
                arcs := [(3, 2, Some "x"); (3, 1, Some "y")]%string |} in
  right_deps_of 1 (arcs pp) = [2; 3] /\
  left_deps_of 3 (arcs pp') = [2; 1] /\
  (StronglySorted Z.lt (right_deps_of 1 (arcs pp)) /\
   StronglySorted Z.gt (left_deps_of 1 (arcs pp)) /\
   exists l,
     StronglySorted Z.lt l /\
     get_n_leftmost_deps 1 None pp = (Return l, pp) /\
     get_n_rightmost_deps 1 None pp = (Return (rev l), pp)) /\
  (StronglySorted Z.lt (right_deps_of 3 (arcs pp')) /\
   StronglySorted Z.gt (left_deps_of 3 (arcs pp')) /\
   ((forall d, In d (deps_of 3 (arcs pp')) -> 3 < d) ->
    exists l,
      StronglySorted Z.lt l /\
      get_n_leftmost_deps 3 None pp' = (Return l, pp') /\
      get_n_rightmost_deps 3 None pp' = (Return (rev l), pp'))).
Proof.
  cbv zeta. split; [reflexivity|]. split; [reflexivity|]. split.
  - destruct (dependants_creation_order chain_sentence 1
                {| sentence := sentence (init chain_sentence); stack := [0; 1];
                   next := 4;
                   arcs := [(1, 2, Some "x"); (1, 3, Some "y")]%string |})
      as (H1 & H2 & H3).
    + exists [(shift_id, None); (shift_id, None); (right_arc_id, Some "x");
              (shift_id, None); (right_arc_id, Some "y")]%string.
      reflexivity.
    + split; [exact H1|]. split; [exact H2|]. apply H3.
      intros d Hd. vm_compute in Hd. destruct Hd as [<- | [<- | []]]; lia.
  - apply (dependants_creation_order chain_sentence).
    exists [(shift_id, None); (shift_id, None); (shift_id, None);
            (left_arc_id, Some "x"); (left_arc_id, Some "y")]%string.
    reflexivity.
Defined.

(** ** The oracle reads but never writes *)

Lemma reads_bind {A B : Type} (m : M A) (k : A -> M B) :
  reads m -> (forall a, reads (k a)) -> reads (bind m k).
Proof.
  intros Hm Hk pp. unfold bind. specialize (Hm pp).
  destruct (m pp) as [[a|e] pp1]; cbn [snd] in *; subst; [apply Hk | reflexivity].
Qed.

Lemma reads_stack_at (i : Z) : reads (stack_at i).
Proof. intros pp. unfold stack_at. destruct (Py.getitem (stack pp) i); reflexivity. Qed.

Lemma reads_complete : reads complete.
Proof. intros pp. now rewrite complete_value. Qed.

Lemma get_oracle_reads (graph : DependencyGraph) : reads (get_oracle graph).
Proof.
  unfold get_oracle.
  repeat first
    [ apply reads_complete
    | apply reads_stack_at
    | apply reads_bind; [|intros ?]
    | match goal with
      | |- reads (if ?c then _ else _) => destruct c
      end
    | intros ?; reflexivity ].
Qed.

(** ** What the oracle proposes *)

Lemma find_deprel_found (items : list (string * list Z)) (d : Z)
    (l : option string) :
  find_deprel items d = (true, l) ->
  exists lbl ds, l = Some lbl /\ In (lbl, ds) items /\ In d ds.
Proof.
  induction items as [|[lbl ds] items IH]; cbn [find_deprel]; [discriminate|].
  destruct (existsb (fun dep => dep =? d) ds) eqn:He.
  - intros H. injection H as <-. exists lbl, ds.
    apply existsb_exists in He. destruct He as (x & Hx & Hxd).
    apply Z.eqb_eq in Hxd. subst. cbn. tauto.
  - intros H. destruct (IH H) as (lbl' & ds' & -> & Hi & Hd).
    exists lbl', ds'. cbn. tauto.
Qed.

Lemma find_deprel_gold (graph : DependencyGraph) (h d : Z) (l : option string) :
  find_deprel (deps (graph_nodes graph h)) d = (true, l) ->
  exists lbl, l = Some lbl /\ In (h, d, Some lbl) (gold_arcs graph).
Proof.
  intros H. apply find_deprel_found in H.
  destruct H as (lbl & ds & -> & Hi & Hd).
  exists lbl. split; [reflexivity|]. eapply node_arc_gold; eauto.
Qed.

Lemma is_left_dep_true (graph : DependencyGraph) (h d : Z) (l : option string) :
  is_left_dep (graph_nodes graph h) d = Return (true, l) ->
  exists lbl, l = Some lbl /\ In (h, d, Some lbl) (gold_arcs graph).
Proof.
  unfold is_left_dep. destruct (address (graph_nodes graph h)); [|discriminate].
  destruct (d >? z); [discriminate|]. intros H. injection H as H.
  now apply find_deprel_gold.
Qed.

Lemma is_right_dep_true (graph : DependencyGraph) (h d : Z) (l : option string) :
  is_right_dep (graph_nodes graph h) d = Return (true, l) ->
  exists lbl, l = Some lbl /\ In (h, d, Some lbl) (gold_arcs graph).
Proof.
  unfold is_right_dep. destruct (address (graph_nodes graph h)); [|discriminate].
  destruct (d <? z); [discriminate|]. intros H. injection H as H.
  now apply find_deprel_gold.
Qed.

Lemma oracle_proposal (graph : DependencyGraph) (pp : PartialParse) (tid : Z)
    (l : option string) :
  get_oracle graph pp = (Return (tid, l), pp) ->
  (tid = shift_id /\ l = None) \/
  (exists rest second top lbl,
      stack pp = rest ++ [second; top] /\ rest <> [] /\
      tid = left_arc_id /\ l = Some lbl /\
      In (top, second, Some lbl) (gold_arcs graph)) \/
  (exists rest second top lbl,
      stack pp = rest ++ [second; top] /\
      tid = right_arc_id /\ l = Some lbl /\
      In (second, top, Some lbl) (gold_arcs graph) /\
      (rest = [] -> next pp = Py.len (sentence pp))).
Proof.
  destruct (complete_spec pp) as (b & Hc & _).
  unfold get_oracle. unfold bind at 1. rewrite Hc.
  destruct b; [discriminate|]. unfold_meth.
  destruct (stack pp) as [|x [|y [|z rest0]]] eqn:Hs.
  - change (Py.len (@nil Z) =? 1) with false.
    change (Py.len (@nil Z) =? 2) with false. cbv beta iota.
    rewrite Hs. change (Py.getitem (@nil Z) (-1)) with (@None Z). discriminate.
  - change (Py.len [x] =? 1) with true. cbv iota.
    intros H. injection H as <- <-. now left.
  - change (Py.len [x; y] =? 1) with false.
    change (Py.len [x; y] =? 2) with true. cbv beta iota.
    destruct (Z.eqb_spec (next pp) (Py.len (sentence pp))) as [Hnl | Hnl].
    + cbv beta. rewrite Hs, getitem_zero. cbv beta iota. rewrite Hs.
      change [x; y] with ([x] ++ [y]). rewrite getitem_last. cbv beta iota.
      destruct (is_right_dep (graph_nodes graph x) y) as [[[|] l0]|e] eqn:Hr;
        cbn [fst snd negb]; cbv beta iota; try discriminate.
      intros H. injection H as <- <-.
      apply is_right_dep_true in Hr. destruct Hr as (lbl & -> & Hg).
      right. right. exists [], x, y, lbl. split; [reflexivity | auto].
    + intros H. injection H as <- <-. now left.
  - destruct (split_last2 (stack pp)) as (r & s & t & Hs2).
    { rewrite Hs. unfold Py.len. cbn [List.length]. lia. }
    assert (Hr : r <> []).
    { intros ->. rewrite Hs in Hs2. discriminate. }
    assert (Hs2' : stack pp = (r ++ [s]) ++ [t]) by now rewrite <- app_assoc.
    rewrite <- Hs.
    assert (Hlen : 3 <= Py.len (stack pp)).
    { rewrite Hs. unfold Py.len. cbn [List.length]. lia. }
    destruct (Z.eqb_spec (Py.len (stack pp)) 1); [lia|].
    destruct (Z.eqb_spec (Py.len (stack pp)) 2); [lia|].
    cbv beta. rewrite Hs2', getitem_last. cbv beta iota.
    rewrite Hs2, getitem_second. cbv beta iota.
    destruct (is_left_dep (graph_nodes graph t) s) as [[bl ll]|e] eqn:Hl;
      [|discriminate].
    cbv beta iota. rewrite Hs2, getitem_second. cbv beta iota.
    rewrite Hs2', getitem_last. cbv beta iota.
    destruct (is_right_dep (graph_nodes graph s) t) as [[br lr]|e] eqn:Hrt;
      [|discriminate].
    cbv beta iota. cbn [fst snd].
    destruct bl.
    + intros H. injection H as <- <-.
      apply is_left_dep_true in Hl. destruct Hl as (lbl & -> & Hg).
      right. left. exists r, s, t, lbl.
      split; [rewrite <- ?app_assoc; reflexivity | auto 10].
    + destruct br; [|intros H; injection H as <- <-; now left].
      rewrite Hs2', getitem_last. cbv beta iota.
      destruct (get_right_deps (graph_nodes graph t)) as [ds|e]; [|discriminate].
      cbv beta iota.
      destruct (existsb (fun right_dep => right_dep >=? next pp) ds).
      * intros H. injection H as <- <-. now left.
      * intros H. injection H as <- <-.
        apply is_right_dep_true in Hrt. destruct Hrt as (lbl & -> & Hg).
        right. right. exists r, s, t, lbl.
        split; [rewrite <- ?app_assoc; reflexivity|].
        split; [reflexivity|]. split; [reflexivity|]. split; [exact Hg|].
        intros ->. contradiction.
Qed.

(** X13: whatever the configuration and whatever the graph, a value
    returned by [get_oracle] leaves the object unchanged and is either a shift
    with no label, or an arc operation that [parse_step] accepts and whose new
    arc, label included, is an arc recorded by the graph.  The oracle never
    proposes an arc that the gold tree does not hold. *)
Theorem oracle_proposes_gold_arcs (graph : DependencyGraph) (pp pp0 : PartialParse)
    (transition_id : Z) (deprel : option string) :
  get_oracle graph pp = (Return (transition_id, deprel), pp0) ->
  pp0 = pp /\
  ((transition_id = shift_id /\ deprel = None) \/
   (exists a pp',
       (transition_id = left_arc_id \/ transition_id = right_arc_id) /\
       parse_step transition_id deprel pp = (Return tt, pp') /\
       arcs pp' = arcs pp ++ [a] /\
       arc_deprel a = deprel /\
       In a (gold_arcs graph))).
Proof.
  intros H. pose proof (get_oracle_reads graph pp) as Hp.
  rewrite H in Hp. cbn [snd] in Hp. subst pp0. split; [reflexivity|].
  destruct (oracle_proposal _ _ _ _ H)
    as [Hsh | [(r & s & t & lbl & Hs & Hr & -> & -> & Hg)
              | (r & s & t & lbl & Hs & -> & -> & Hg & _)]].
  - now left.
  - right. exists (t, s, Some lbl), (reduced pp (r ++ [t]) (t, s, Some lbl)).
    split; [now left|]. split; [now apply parse_step_left_ok|]. auto.
  - right. exists (s, t, Some lbl), (reduced pp (r ++ [s]) (s, t, Some lbl)).
    split; [now right|]. split; [now apply parse_step_right_ok|]. auto.
Qed.

Lemma oracle_proposes_gold_arcs_witness :
  let pp := {| sentence := sentence (init test_sentence); stack := [0; 1; 2; 3];
               next := 4; arcs := [] |} in
  pp = pp /\
  ((left_arc_id = shift_id /\ Some "deprel_2"%string = None) \/
   (exists a pp',
       (left_arc_id = left_arc_id \/ left_arc_id = right_arc_id) /\
       parse_step left_arc_id (Some "deprel_2"%string) pp = (Return tt, pp') /\
       arcs pp' = arcs pp ++ [a] /\
       arc_deprel a = Some "deprel_2"%string /\
       In a (gold_arcs test_graph))).
Proof.
  cbv zeta. apply (oracle_proposes_gold_arcs test_graph). reflexivity.
Defined.

Lemma configuration_steps (s : list (string * string)) (pp pp' : PartialParse)
    (tds : list td_pair) :
  configuration s pp -> steps pp tds pp' -> configuration s pp'.
Proof. intros [tds0 H0] H. exists (tds0 ++ tds). eapply steps_app; eauto. Qed.

Lemma steps_sentence (tds : list td_pair) (pp pp' : PartialParse) :
  steps pp tds pp' -> sentence pp' = sentence pp.
Proof. intros H. now destruct (steps_arcs_appended _ _ _ H). Qed.

Lemma top_two_unique (r r' : list Z) (s t s' t' : Z) :
  r ++ [s; t] = r' ++ [s'; t'] -> r = r' /\ s = s' /\ t = t'.
Proof.
  intros H.
  change (r ++ [s; t]) with (r ++ [s] ++ [t]) in H.
  change (r' ++ [s'; t']) with (r' ++ [s'] ++ [t']) in H.
  rewrite !app_assoc in H. apply app_inj_tail in H. destruct H as [H ->].
  apply app_inj_tail in H. destruct H as [-> ->]. auto.
Qed.

(** With an empty buffer the oracle does not answer shift. *)
Lemma oracle_shift_has_buffer (s : list (string * string)) (pp : PartialParse)
    (graph : DependencyGraph) (l : option string) :
  configuration s pp ->
  wf_graph graph (List.length (sentence pp)) = true ->
  gold_reachable pp graph ->
  complete pp = (Return false, pp) ->
  scanned_decision pp graph = (shift_id, l) ->
  next pp <> Py.len (sentence pp).
Proof.
  intros Hconf Hwf Hg Hc Hd Hn.
  pose proof (configuration_invariants _ _ Hconf) as [[rest Hst] Hf [Hin _] Ho].
  destruct rest as [|w [|b rest']].
  - assert (Ht : complete pp = (Return true, pp))
      by (apply complete_true_iff; auto).
    congruence.
  - unfold scanned_decision, Spec.buffer_empty in Hd. rewrite Hst in Hd.
    destruct (Z.leb_spec (Py.len (sentence pp)) (next pp)); [|lia].
    discriminate.
  - destruct (split_last2 (stack pp)) as (r & sd & t & Hs2).
    { rewrite Hst. unfold Py.len. cbn [List.length]. lia. }
    assert (Hd' : scanned_decision pp graph = scanned_pair pp graph t sd).
    { unfold scanned_decision. rewrite Hst at 1. cbv iota.
      rewrite Hs2, rev_app_distr. reflexivity. }
    rewrite Hd' in Hd. clear Hd'.
    assert (Hin_s : In sd (stack pp))
      by (rewrite Hs2; apply in_or_app; right; cbn; tauto).
    assert (Hin_t : In t (stack pp))
      by (rewrite Hs2; apply in_or_app; right; cbn; tauto).
    apply Hin in Hin_s. apply Hin in Hin_t. unfold in_range, Py.len in Hin_s, Hin_t.
    destruct Hg as (tds & pp' & Hsteps & Hcomp & Harcs).
    destruct tds as [|td tds].
    { apply steps_nil_inv in Hsteps. subst. congruence. }
    pose proof (steps_sentence _ _ _ Hsteps) as Hsen.
    pose proof (configuration_steps _ _ _ _ Hconf Hsteps) as Hconf'.
    apply steps_cons_inv in Hsteps. destruct Hsteps as (pp1 & Ht & Hsteps).
    unfold scanned_pair in Hd.
    inversion Ht as [p d Hne | p d r' s' t' Hst' Hr'
                     | p d r' s' t' Hst']; subst.
    + contradiction.
    + rewrite Hs2 in Hst'. apply top_two_unique in Hst'.
      destruct Hst' as (<- & <- & <-).
      assert (Hga : In (t, sd, d) (gold_arcs graph)).
      { apply Harcs. eapply steps_arcs_grow; [exact Hsteps|].
        cbn [arcs reduced]. apply in_or_app. right. cbn. tauto. }
      apply gold_arcs_inv in Hga. destruct Hga as [_ Hga].
      rewrite (wf_graph_consistent _ _ _ _ Hwf) in Hga by assumption.
      rewrite Hga in Hd. discriminate.
    + rewrite Hs2 in Hst'. apply top_two_unique in Hst'.
      destruct Hst' as (<- & <- & <-).
      assert (Hga : In (sd, t, d) (gold_arcs graph)).
      { apply Harcs. eapply steps_arcs_grow; [exact Hsteps|].
        cbn [arcs reduced]. apply in_or_app. right. cbn. tauto. }
      apply gold_arcs_inv in Hga. destruct Hga as [_ Hga].
      rewrite (wf_graph_consistent _ _ _ _ Hwf) in Hga by assumption.
      rewrite Hga in Hd.
      destruct (Spec.records_head graph t sd); [discriminate|].
      unfold scans_pending in Hd.
      destruct (existsb (fun d0 => next pp <=? d0)
                        (get_deps (graph_nodes graph t))) eqn:He;
        [|discriminate].
      apply existsb_exists in He. destruct He as (d' & Hd' & Hle).
      apply Z.leb_le in Hle. apply get_deps_in in Hd'.
      destruct Hd' as ([lbl ds] & Hitem & Hdd).
      pose proof (node_arc_gold _ _ _ _ _ Hitem Hdd) as Hgb.
      apply Harcs in Hgb.
      pose proof (configuration_invariants _ _ Hconf') as [_ _ [_ Har] _].
      destruct (Har _ Hgb) as [_ Hr']. unfold in_range, arc_dep in Hr'.
      cbn [fst snd] in Hr'. rewrite Hsen in Hr'. lia.
Qed.

(** X14: for a configuration of the machine and a graph consistent with
    the sentence and reachable from it, the move the oracle returns is always
    one that [parse_step] accepts: as the docstring promises, a valid move
    always exists, and the oracle's answer is one. *)
Theorem oracle_move_is_legal (s : list (string * string)) (pp : PartialParse)
    (graph : DependencyGraph) :
  configuration s pp ->
  wf_graph graph (List.length (sentence pp)) = true ->
  gold_reachable pp graph ->
  complete pp = (Return false, pp) ->
  exists td pp',
    get_oracle graph pp = (Return td, pp) /\
    parse_step (fst td) (snd td) pp = (Return tt, pp').
Proof.
  intros Hconf Hwf Hg Hc.
  pose proof (configuration_invariants _ _ Hconf) as Hinv.
  pose proof (get_oracle_decision graph pp Hinv Hwf Hg Hc) as Ho.
  destruct (scanned_decision pp graph) as [tid l] eqn:Hd.
  exists (tid, l). cbn [fst snd].
  destruct (oracle_proposal _ _ _ _ Ho)
    as [[-> ->] | [(r & sd & t & lbl & Hs & Hr & -> & -> & _)
                  | (r & sd & t & lbl & Hs & -> & -> & _)]].
  - eexists. split; [exact Ho|]. apply parse_step_shift_ok.
    eapply oracle_shift_has_buffer; eauto.
  - eexists. split; [exact Ho|]. apply (parse_step_left_ok _ _ _ _ _ Hs Hr).
  - eexists. split; [exact Ho|]. apply (parse_step_right_ok _ _ _ _ _ Hs).
Qed.

Lemma oracle_move_is_legal_witness :
  let pp := {| sentence := sentence (init test_sentence); stack := [0; 1; 3];
               next := 4; arcs := [(3, 2, Some "deprel_2"%string)] |} in
  exists td pp',
    get_oracle test_graph pp = (Return td, pp) /\
    parse_step (fst td) (snd td) pp = (Return tt, pp').
Proof.
  cbv zeta. apply (oracle_move_is_legal test_sentence).
  - exists [(shift_id, None); (shift_id, None); (shift_id, None);
            (left_arc_id, Some "deprel_2"%string)].
    reflexivity.
  - reflexivity.
  - exists [(shift_id, None); (right_arc_id, Some "deprel_4");
            (shift_id, None); (left_arc_id, Some "deprel_3");
            (right_arc_id, Some "deprel_5"); (right_arc_id, Some "ROOT")]%string.
    exists {| sentence := sentence (init test_sentence); stack := [0]; next := 6;
              arcs := [(3, 2, Some "deprel_2"); (3, 4, Some "deprel_4");
                       (5, 3, Some "deprel_3"); (1, 5, Some "deprel_5");
                       (0, 1, Some "ROOT")]%string |}.
    split; [reflexivity|]. split; [reflexivity|].
    intros a. change (gold_arcs test_graph) with
      [(0, 1, Some "ROOT"); (1, 5, Some "deprel_5"); (3, 2, Some "deprel_2");
       (3, 4, Some "deprel_4"); (5, 3, Some "deprel_3")]%string.
    cbn [arcs In]. tauto.
  - reflexivity.
Defined.

(** ** The oracle loop *)

Lemma oracle_loop_returns (graph : DependencyGraph) (fuel : nat) :
  forall tids0 pp0 tids pp,
    oracle_loop fuel graph tids0 pp0 = Some (Return tids, pp) ->
    complete pp = (Return true, pp) /\
    exists tds, oracle_steps graph pp0 tds pp /\ tids = tids0 ++ map fst tds.
Proof.
  induction fuel as [|fuel IH]; intros tids0 pp0 tids pp H; [discriminate|].
  cbn [oracle_loop] in H.
  destruct (complete_spec pp0) as (b & Hc & _). rewrite Hc in H.
  destruct b.
  - injection H as <- <-. split; [exact Hc|].
    exists []. split; [constructor | now rewrite app_nil_r].
  - destruct (get_oracle graph pp0) as [[[tid d]|e] pp1] eqn:Ho; [|discriminate].
    pose proof (get_oracle_reads graph pp0) as Hr. rewrite Ho in Hr.
    cbn [snd] in Hr. subst pp1.
    destruct (parse_step tid d pp0) as [[[]|e] pp2] eqn:Hp; [|discriminate].
    destruct (IH _ _ _ _ H) as (Hcomp & tds & Hos & ->).
    split; [exact Hcomp|]. exists ((tid, d) :: tds). split.
    + econstructor; eauto.
    + cbn [map fst]. now rewrite <- app_assoc.
Qed.

Lemma oracle_steps_steps (graph : DependencyGraph) (pp pp' : PartialParse)
    (tds : list td_pair) :
  oracle_steps graph pp tds pp' -> steps pp tds pp'.
Proof.
  induction 1 as [pp | pp td pp1 tds pp2 Ho Hp Hos IH]; [apply steps_nil|].
  eapply steps_cons; [|exact IH]. destruct td as [tid d].
  eapply parse_step_inv. exact Hp.
Qed.

Lemma oracle_steps_gold (graph : DependencyGraph) (pp pp' : PartialParse)
    (tds : list td_pair) :
  oracle_steps graph pp tds pp' ->
  forall a, In a (arcs pp') -> In a (arcs pp) \/ In a (gold_arcs graph).
Proof.
  induction 1 as [pp | pp [tid d] pp1 tds pp2 Ho Hp Hos IH]; [now left|].
  intros a Ha. destruct (IH a Ha) as [H1 | Hg]; [|now right].
  cbn [fst snd] in Hp.
  destruct (oracle_proposal _ _ _ _ Ho)
    as [[-> ->] | [(r & sd & t & lbl & Hs & Hr & -> & -> & Hg)
                  | (r & sd & t & lbl & Hs & -> & -> & Hg & _)]].
  - destruct (Z.eq_dec (next pp) (Py.len (sentence pp))) as [He | He].
    + rewrite parse_step_shift_fail in Hp by assumption. discriminate.
    + rewrite parse_step_shift_ok in Hp by assumption.
      injection Hp as <-. now left.
  - rewrite (parse_step_left_ok _ _ _ _ _ Hs Hr) in Hp. injection Hp as <-.
    cbn [arcs reduced] in H1. apply in_app_or in H1.
    destruct H1 as [H1 | [<- | []]]; [now left | now right].
  - rewrite (parse_step_right_ok _ _ _ _ _ Hs) in Hp. injection Hp as <-.
    cbn [arcs reduced] in H1. apply in_app_or in H1.
    destruct H1 as [H1 | [<- | []]]; [now left | now right].
Qed.

Lemma NoDup_map_inj {A B : Type} (f : A -> B) (l : list A) (x y : A) :
  NoDup (map f l) -> In x l -> In y l -> f x = f y -> x = y.
Proof.
  induction l as [|a l IH]; intros Hnd Hx Hy He; [destruct Hx|].
  cbn [map] in Hnd. inversion Hnd as [|? ? Hna Hnd']. subst.
  destruct Hx as [-> | Hx]; destruct Hy as [-> | Hy]; auto.
  - exfalso. apply Hna. rewrite He. now apply in_map.
  - exfalso. apply Hna. rewrite <- He. now apply in_map.
Qed.

(** X15: whenever the loop "ask the oracle, apply its answer" ends without
    an error, for any graph at all, the parse is complete, the transitions it
    recorded are the identifiers of a run of [2n] successful transitions, and
    every arc it built is an arc of the graph.  If moreover the graph records
    each of the words [1..n], and nothing else, as a dependant once, the arcs
    built are exactly the arcs of the graph. *)
Theorem oracle_loop_sound (fuel : nat) (graph : DependencyGraph)
    (s : list (string * string)) (tids : list Z) (pp : PartialParse) :
  oracle_loop fuel graph [] (init s) = Some (Return tids, pp) ->
  complete pp = (Return true, pp) /\
  (exists tds, parse tds (init s) = (Return (arcs pp), pp) /\ map fst tds = tids) /\
  List.length tids = (2 * List.length s)%nat /\
  (forall a, In a (arcs pp) -> In a (gold_arcs graph)) /\
  (NoDup (map arc_dep (gold_arcs graph)) ->
   (forall g, In g (gold_arcs graph) -> 1 <= arc_dep g <= Z.of_nat (List.length s)) ->
   forall a, In a (arcs pp) <-> In a (gold_arcs graph)).
Proof.
  intros H. apply oracle_loop_returns in H.
  destruct H as (Hcomp & tds & Hos & ->). cbn [app].
  pose proof (oracle_steps_steps _ _ _ _ Hos) as Hs.
  destruct (complete_run_counts_aux s tds pp Hs Hcomp) as (Hlen & Hperm).
  assert (Hsub : forall a, In a (arcs pp) -> In a (gold_arcs graph)).
  { intros a Ha. destruct (oracle_steps_gold _ _ _ _ Hos a Ha) as [[] | Hg].
    exact Hg. }
  split; [exact Hcomp|]. split; [now exists tds|].
  split; [now rewrite length_map|]. split; [exact Hsub|].
  intros Hnd Hrange a. split; [apply Hsub|]. intros Hg.
  assert (Hin : In (arc_dep a) (map arc_dep (arcs pp))).
  { eapply Permutation_in; [apply Permutation_sym; exact Hperm|].
    apply word_indices_in. now apply Hrange. }
  apply in_map_iff in Hin. destruct Hin as (b & Hb & Hbin).
  assert (b = a); [|now subst].
  eapply NoDup_map_inj; eauto.
Qed.

Lemma oracle_loop_sound_witness :
  let pp := {| sentence := sentence (init test_sentence); stack := [0]; next := 6;
               arcs := [(3, 2, Some "deprel_2"); (3, 4, Some "deprel_4");
                        (5, 3, Some "deprel_3"); (1, 5, Some "deprel_5");
                        (0, 1, Some "ROOT")]%string |} in
  let tids := [shift_id; shift_id; shift_id; left_arc_id; shift_id;
               right_arc_id; shift_id; left_arc_id; right_arc_id;
               right_arc_id] in
  complete pp = (Return true, pp) /\
  (exists tds, parse tds (init test_sentence) = (Return (arcs pp), pp) /\
               map fst tds = tids) /\
  List.length tids = (2 * List.length test_sentence)%nat /\
  (forall a, In a (arcs pp) -> In a (gold_arcs test_graph)) /\
  (NoDup (map arc_dep (gold_arcs test_graph)) ->
   (forall g, In g (gold_arcs test_graph) ->
              1 <= arc_dep g <= Z.of_nat (List.length test_sentence)) ->
   forall a, In a (arcs pp) <-> In a (gold_arcs test_graph)).
Proof.
  cbv zeta. apply (oracle_loop_sound 11). vm_compute. reflexivity.
Defined.

Lemma oracle_steps_root (graph : DependencyGraph) (s : list (string * string))
    (pp0 pp : PartialParse) (tds : list td_pair) :
  oracle_steps graph pp0 tds pp ->
  configuration s pp0 ->
  (forall a, In a (arcs pp0) -> arc_head a <> 0) ->
  complete pp0 = (Return false, pp0) ->
  complete pp = (Return true, pp) ->
  exists l w lbl,
    arcs pp = l ++ [(0, w, lbl)] /\ forall a, In a l -> arc_head a <> 0.
Proof.
  induction 1 as [pp | pp [tid d] pp1 tds pp2 Ho Hp Hos IH];
    intros Hconf Hroot Hnc Hc; [congruence|].
  cbn [fst snd] in Hp.
  pose proof (configuration_invariants _ _ Hconf) as [[r0 Hst0] _ _ _].
  assert (Hconf1 : configuration s pp1).
  { eapply configuration_step; [exact Hconf|]. eapply parse_step_inv; eauto. }
  assert (Hopen : forall st, stack pp1 = st -> (2 <= Py.len st) ->
                             complete pp1 = (Return false, pp1)).
  { intros st Hst Hl. destruct (complete_spec pp1) as ([|] & Hc1 & Hb); [|exact Hc1].
    destruct Hb as [Hb _]. destruct (Hb eq_refl) as [_ Hb'].
    rewrite Hb' in Hst. subst st. change (Py.len [0]) with 1 in Hl. lia. }
  destruct (oracle_proposal _ _ _ _ Ho)
    as [[-> ->] | [(r & sd & t & lbl & Hs & Hr & -> & -> & Hg)
                  | (r & sd & t & lbl & Hs & -> & -> & Hg & Hlast)]].
  - destruct (Z.eq_dec (next pp) (Py.len (sentence pp))) as [He | He].
    + rewrite parse_step_shift_fail in Hp by assumption. discriminate.
    + rewrite parse_step_shift_ok in Hp by assumption. injection Hp as <-.
      apply IH; auto.
      apply (Hopen _ eq_refl). cbn [stack shifted]. rewrite Hst0, len_app.
      unfold Py.len. cbn [List.length]. lia.
  - destruct (stack_top_two _ _ _ _ _ Hconf Hs) as (H0 & Hlt & _).
    rewrite (parse_step_left_ok _ _ _ _ _ Hs Hr) in Hp. injection Hp as <-.
    apply IH; auto.
    + intros a Ha. cbn [arcs reduced] in Ha. apply in_app_or in Ha.
      destruct Ha as [Ha | [<- | []]]; [auto|]. cbn. lia.
    + apply (Hopen _ eq_refl). cbn [stack reduced]. rewrite len_app.
      destruct r; [contradiction|]. unfold Py.len. cbn [List.length]. lia.
  - destruct (stack_top_two _ _ _ _ _ Hconf Hs) as (H0 & Hlt & _ & Hrest & _).
    rewrite (parse_step_right_ok _ _ _ _ _ Hs) in Hp. injection Hp as <-.
    destruct r as [|x r].
    + assert (sd = 0) by (rewrite Hst0 in Hs; cbn in Hs; congruence). subst sd.
      assert (Hc1 : complete (reduced pp ([] ++ [0]) (0, t, Some lbl)) =
                    (Return true, reduced pp ([] ++ [0]) (0, t, Some lbl))).
      { apply complete_true_iff. cbn [next sentence stack reduced app].
        split; [now apply Hlast | reflexivity]. }
      inversion Hos as [? | ? td1 ? ? ? Ho1]; subst.
      * exists (arcs pp), t, (Some lbl). split; [reflexivity | exact Hroot].
      * rewrite (get_oracle_complete _ _ Hc1) in Ho1. discriminate.
    + assert (x = 0) by (rewrite Hst0 in Hs; cbn in Hs; congruence). subst x.
      assert (0 < sd) by (apply Hrest; now left).
      apply IH; auto.
      * intros a Ha. cbn [arcs reduced] in Ha. apply in_app_or in Ha.
        destruct Ha as [Ha | [<- | []]]; [auto|]. cbn. lia.
      * apply (Hopen _ eq_refl). cbn [stack reduced]. rewrite len_app.
        unfold Py.len. cbn [List.length]. lia.
Qed.

(** Two words under ROOT are within reach of the transitions. *)
Lemma two_root_children_reachable (a b : string * string) :
  let pp := {| sentence := sentence (init [a; b]); stack := [0]; next := 3;
               arcs := [(0, 1, None); (0, 2, None)] |} in
  steps (init [a; b])
        [(shift_id, None); (right_arc_id, None); (shift_id, None);
         (right_arc_id, None)] pp /\
  complete pp = (Return true, pp).
Proof.
  cbv zeta. split.
  - unfold steps. reflexivity.
  - apply complete_true_iff. split; reflexivity.
Qed.

(** X16: whenever the oracle loop ends without an error on a sentence that
    has words, the arcs it built hold exactly one arc headed by ROOT, and that
    arc is the last one created: the oracle attaches a word to ROOT only as its
    closing move.  So a graph that records two different words under ROOT is
    never reproduced by the oracle, although such arc sets are within reach of
    the transitions themselves. *)
Theorem oracle_attaches_one_root_child (fuel : nat) (graph : DependencyGraph)
    (s : list (string * string)) (tids : list Z) (pp : PartialParse) :
  s <> [] ->
  oracle_loop fuel graph [] (init s) = Some (Return tids, pp) ->
  (exists l w lbl,
      arcs pp = l ++ [(0, w, lbl)] /\ forall a, In a l -> arc_head a <> 0) /\
  (forall w1 w2 l1 l2,
      w1 <> w2 ->
      In (0, w1, l1) (gold_arcs graph) -> In (0, w2, l2) (gold_arcs graph) ->
      ~ (forall a, In a (arcs pp) <-> In a (gold_arcs graph))).
Proof.
  intros Hne H. apply oracle_loop_returns in H.
  destruct H as (Hcomp & tds & Hos & _).
  assert (Hopen : complete (init s) = (Return false, init s)).
  { destruct (complete_spec (init s)) as ([|] & Hc & Hb); [|exact Hc].
    destruct Hb as [Hb _]. destruct (Hb eq_refl) as [Hn _].
    rewrite len_sentence_init in Hn. cbn [next init] in Hn.
    destruct s; [contradiction | cbn [List.length] in Hn; lia]. }
  destruct (oracle_steps_root _ s _ _ _ Hos (configuration_init s)) as
    (l & w & lbl & Harcs & Hl); auto.
  split; [now exists l, w, lbl|].
  intros w1 w2 l1 l2 Hw H1 H2 Hall.
  apply Hall in H1. apply Hall in H2. rewrite Harcs in H1, H2.
  apply in_app_or in H1. apply in_app_or in H2.
  destruct H1 as [H1 | [H1 | []]]; [apply Hl in H1; now apply H1|].
  destruct H2 as [H2 | [H2 | []]]; [apply Hl in H2; now apply H2|].
  congruence.
Qed.

Lemma oracle_attaches_one_root_child_witness :
  let pp := {| sentence := sentence (init test_sentence); stack := [0]; next := 6;
               arcs := [(3, 2, Some "deprel_2"); (3, 4, Some "deprel_4");
                        (5, 3, Some "deprel_3"); (1, 5, Some "deprel_5");
                        (0, 1, Some "ROOT")]%string |} in
  (exists l w lbl,
      arcs pp = l ++ [(0, w, lbl)] /\ forall a, In a l -> arc_head a <> 0) /\
  (forall w1 w2 l1 l2,
      w1 <> w2 ->
      In (0, w1, l1) (gold_arcs test_graph) ->
      In (0, w2, l2) (gold_arcs test_graph) ->
      ~ (forall a, In a (arcs pp) <-> In a (gold_arcs test_graph))).
Proof.
  cbv zeta.
  apply (oracle_attaches_one_root_child 11 test_graph test_sentence
           [shift_id; shift_id; shift_id; left_arc_id; shift_id;
            right_arc_id; shift_id; left_arc_id; right_arc_id; right_arc_id]).
  - discriminate.
  - vm_compute. reflexivity.
Defined.

(** ** The batched driver: results, batch sizes, and the model's answers *)

Lemma minibatch_parse_pointwise_witness :
  exists fuel0 result,
    (forall fuel, (fuel0 <= fuel)%nat ->
       minibatch_parse fuel [[("a", "t")]; [("b", "t"); ("c", "t")]]%string
                       (map shift_then_right) 1 = Some (Return result)) /\
    List.length result =
      List.length [[("a", "t")]; [("b", "t"); ("c", "t")]]%string /\
    (forall i, (i < List.length [[("a", "t")]; [("b", "t"); ("c", "t")]]%string)%nat ->
       exists q,
         finishes shift_then_right
           (init (nth i [[("a", "t")]; [("b", "t"); ("c", "t")]]%string [])) q /\
         nth i result [] = arcs q).
Proof.
  apply (minibatch_parse_pointwise shift_then_right
           [[("a", "t")]; [("b", "t"); ("c", "t")]]%string 1).
  - lia.
  - intros s [<- | [<- | []]]; discriminate.
Defined.

Lemma minibatch_parse_any_batch_size_witness :
  exists fuel0 result,
    forall fuel, (fuel0 <= fuel)%nat ->
      minibatch_parse fuel [[("a", "t")]; [("b", "t"); ("c", "t")]]%string
                      (map shift_then_right) 1 = Some (Return result) /\
      minibatch_parse fuel [[("a", "t")]; [("b", "t"); ("c", "t")]]%string
                      (map shift_then_right) 5 = Some (Return result).
Proof.
  apply (minibatch_parse_any_batch_size shift_then_right
           [[("a", "t")]; [("b", "t"); ("c", "t")]]%string 1 5).
  - lia.
  - lia.
  - intros s [<- | [<- | []]]; discriminate.
Defined.

Lemma minibatch_loop_empty_batch (model : Model) (batch_size : Z)
    (store : list PartialParse) (fuel : nat) :
  forall unfinished : list nat,
    unfinished <> [] ->
    batch_size = 0 \/ (batch_size < 0 /\ Py.len unfinished <= - batch_size) ->
    minibatch_loop fuel model batch_size unfinished store = None.
Proof.
  induction fuel as [|fuel IH]; intros u Hne Hb; [reflexivity|].
  cbn [minibatch_loop].
  assert (Hl : 1 <= Py.len u).
  { destruct u; [contradiction|]. unfold Py.len. cbn [List.length]. lia. }
  destruct (Z.eqb_spec (Py.len u) 0); [lia|].
  destruct (Z.ltb_spec (Py.len u) batch_size); [lia|].
  assert (Hs : Py.slice_to u batch_size = []).
  { unfold Py.slice_to. destruct Hb as [-> | [Hneg Hle]].
    - reflexivity.
    - destruct (Z.ltb_spec batch_size 0); [|lia].
      replace (Z.to_nat (Py.len u + batch_size)) with 0%nat by lia. reflexivity. }
  rewrite Hs. cbn [map batch_pass rev delete_marked]. now apply IH.
Qed.

(** X19: with a batch size of 0, or a negative one whose magnitude is at
    least the number of sentences, the minibatch is always empty, nothing is
    ever removed from the unfinished parses, and [minibatch_parse] never
    returns: no amount of fuel gives a result, whatever the model. *)
Theorem minibatch_parse_empty_batch_hangs (fuel : nat)
    (sentences : list (list (string * string))) (model : Model) (batch_size : Z) :
  sentences <> [] ->
  batch_size = 0 \/
  (batch_size < 0 /\ Z.of_nat (List.length sentences) <= - batch_size) ->
  minibatch_parse fuel sentences model batch_size = None.
Proof.
  intros Hne Hb. unfold minibatch_parse.
  rewrite minibatch_loop_empty_batch; [reflexivity | |].
  - rewrite length_map. destruct sentences; [contradiction | discriminate].
  - unfold Py.len. rewrite length_seq, length_map. exact Hb.
Qed.

Lemma minibatch_parse_empty_batch_hangs_witness :
  minibatch_parse 100 [[("a", "t")]]%string (map shift_then_right) 0 = None.
Proof.
  apply minibatch_parse_empty_batch_hangs; [discriminate | now left].
Defined.

Lemma batch_pass_short (minibatch : list nat) :
  forall (tds pre : list td_pair) (to_del : list Z) (store : list PartialParse),
    (List.length tds < List.length minibatch)%nat ->
    fst (batch_pass minibatch (pre ++ tds) (Z.of_nat (List.length pre))
                    to_del store) = Raise IndexError.
Proof.
  induction minibatch as [|r mb IH]; intros tds pre to_del store Hlen;
    [cbn in Hlen; lia|].
  cbn [batch_pass]. destruct tds as [|td tds].
  - rewrite app_nil_r.
    assert (Hg : Py.getitem pre (Z.of_nat (List.length pre)) = None).
    { unfold Py.getitem, Py.norm_index, Py.len.
      destruct (Z.ltb_spec (Z.of_nat (List.length pre)) 0); [lia|].
      destruct (Z.ltb_spec (Z.of_nat (List.length pre))
                  (Z.of_nat (List.length pre))); [lia|].
      now rewrite andb_false_r. }
    now rewrite Hg.
  - rewrite getitem_at.
    assert (Hpre : Z.of_nat (List.length pre) + 1 =
                   Z.of_nat (List.length (pre ++ [td]))).
    { rewrite length_app. cbn [List.length]. lia. }
    assert (Happ : pre ++ td :: tds = (pre ++ [td]) ++ tds)
      by now rewrite <- app_assoc.
    cbn [List.length] in Hlen.
    destruct (parse_step_outcome (store_get store r) (fst td) (snd td))
      as [(_ & msg & Hp) | (_ & pp' & Hp)]; rewrite Hp; cbv iota;
      rewrite complete_value; rewrite Hpre, Happ; apply IH; lia.
Qed.

Lemma store_get_refs (store : list PartialParse) (k : nat) :
  map (store_get store) (firstn k (seq 0 (List.length store))) = firstn k store.
Proof.
  rewrite <- firstn_map. f_equal.
  apply (nth_ext _ _ (init []) (init [])).
  - now rewrite length_map, length_seq.
  - intros i Hi. rewrite length_map, length_seq in Hi.
    rewrite (nth_indep _ (init []) (store_get store 0%nat))
      by (rewrite length_map, length_seq; exact Hi).
    rewrite (map_nth (store_get store)), seq_nth by assumption. reflexivity.
Qed.

(** X20: the driver trusts the model to return one proposal per parse of
    the minibatch: if the model's answer to the first minibatch is shorter than
    the minibatch, [minibatch_parse] raises IndexError to its caller. *)
Theorem minibatch_parse_short_answer (fuel : nat)
    (sentences : list (list (string * string))) (model : Model) (batch_size : Z) :
  sentences <> [] -> 1 <= batch_size ->
  (List.length (model (firstn (Z.to_nat batch_size) (map init sentences))) <
   List.length (firstn (Z.to_nat batch_size) sentences))%nat ->
  minibatch_parse (S fuel) sentences model batch_size = Some (Raise IndexError).
Proof.
  intros Hne Hb Hshort. unfold minibatch_parse. cbn [minibatch_loop].
  set (store := map init sentences).
  set (u := seq 0 (List.length store)).
  assert (Hl : 1 <= Py.len u).
  { unfold u, store, Py.len. rewrite length_seq, length_map.
    destruct sentences; [contradiction | cbn [List.length]; lia]. }
  destruct (Z.eqb_spec (Py.len u) 0); [lia|].
  assert (Hmb : (if Py.len u <? batch_size then u
                 else Py.slice_to u batch_size) =
                firstn (Z.to_nat batch_size) u).
  { destruct (Z.ltb_spec (Py.len u) batch_size).
    - symmetry. apply firstn_all2. unfold Py.len in *. lia.
    - unfold Py.slice_to. destruct (Z.ltb_spec batch_size 0); [lia | reflexivity]. }
  rewrite Hmb.
  replace (map (store_get store) (firstn (Z.to_nat batch_size) u))
    with (firstn (Z.to_nat batch_size) store)
    by (symmetry; apply store_get_refs).
  pose proof (batch_pass_short (firstn (Z.to_nat batch_size) u)
                (model (firstn (Z.to_nat batch_size) store)) [] [] store) as Hp.
  cbn [app List.length] in Hp. change (Z.of_nat 0) with 0 in Hp.
  assert (Hlen : (List.length (model (firstn (Z.to_nat batch_size) store)) <
                  List.length (firstn (Z.to_nat batch_size) u))%nat).
  { unfold u, store. rewrite !length_firstn, length_seq, length_map.
    rewrite length_firstn in Hshort. exact Hshort. }
  specialize (Hp Hlen).
  destruct (batch_pass (firstn (Z.to_nat batch_size) u)
              (model (firstn (Z.to_nat batch_size) store)) 0 [] store)
    as [o st]. cbn [fst] in Hp. subst o. reflexivity.
Qed.

Lemma minibatch_parse_short_answer_witness :
  minibatch_parse 1 [[("a", "t")]; [("b", "t")]]%string
                  (fun pps => map shift_then_right (firstn 1 pps)) 2 =
  Some (Raise IndexError).
Proof.
  apply minibatch_parse_short_answer; [discriminate | lia | vm_compute; apply le_n].
Defined.

(** ** [oracle_test.py]: the projectivity check *)

Lemma is_inside_spec (a : arc) (x : Z) : is_inside a x = true <-> under_arc a x.
Proof.
  unfold is_inside, under_arc, arc_lo, arc_hi.
  destruct (Z.ltb_spec x (arc_dep a)); destruct (Z.gtb_spec x (arc_head a));
    destruct (Z.gtb_spec x (arc_dep a)); destruct (Z.ltb_spec x (arc_head a));
    cbn [andb]; split; intros; try discriminate; try reflexivity; lia.
Qed.

Lemma is_inside_false (a : arc) (x : Z) : is_inside a x = false <-> ~ under_arc a x.
Proof.
  rewrite <- is_inside_spec. destruct (is_inside a x).
  - split; [discriminate | intros H; exfalso; now apply H].
  - split; [intros _; discriminate | reflexivity].
Qed.

Lemma non_proj_pair_spec (a b : arc) :
  non_proj_pair a b = true <-> straddles a b \/ straddles b a.
Proof.
  unfold non_proj_pair, straddles.
  pose proof (is_inside_spec a (arc_head b)) as H1.
  pose proof (is_inside_spec a (arc_dep b)) as H2.
  pose proof (is_inside_spec b (arc_head a)) as H3.
  pose proof (is_inside_spec b (arc_dep a)) as H4.
  destruct (is_inside a (arc_head b)), (is_inside a (arc_dep b)),
    (is_inside b (arc_head a)), (is_inside b (arc_dep a)); cbn [andb negb];
    split; intros H; try reflexivity; try discriminate; intuition discriminate.
Qed.

Lemma non_proj_pair_sym (a b : arc) : non_proj_pair a b = non_proj_pair b a.
Proof.
  apply eq_true_iff_eq. rewrite !non_proj_pair_spec. tauto.
Qed.

Lemma is_non_proj_spec (l : list arc) :
  is_non_proj l = true <->
  exists a b, In a l /\ In b l /\ straddles a b.
Proof.
  induction l as [|x l IH].
  - split; [discriminate | intros (a & _ & [] & _)].
  - cbn [is_non_proj].
    destruct (existsb (non_proj_pair x) (x :: l)) eqn:He.
    + split; [intros _ | reflexivity].
      apply existsb_exists in He. destruct He as (b & Hb & Hp).
      apply non_proj_pair_spec in Hp. destruct Hp as [Hp | Hp].
      * exists x, b. split; [now left | split; assumption].
      * exists b, x. split; [assumption | split; [now left | assumption]].
    + rewrite IH. split.
      * intros (a & b & Ha & Hb & Hs). exists a, b.
        split; [now right | split; [now right | assumption]].
      * intros (a & b & Ha & Hb & Hs).
        assert (Hno : forall c, In c (x :: l) -> non_proj_pair x c = false).
        { intros c Hc. destruct (non_proj_pair x c) eqn:Hpc; [|reflexivity].
          assert (existsb (non_proj_pair x) (x :: l) = true)
            by (apply existsb_exists; now exists c).
          congruence. }
        destruct Ha as [<- | Ha].
        { specialize (Hno b Hb).
          assert (non_proj_pair x b = true)
            by (apply non_proj_pair_spec; now left).
          congruence. }
        destruct Hb as [<- | Hb].
        { specialize (Hno a (or_intror Ha)).
          assert (non_proj_pair x a = true)
            by (apply non_proj_pair_spec; now right).
          congruence. }
        now exists a, b.
Qed.

(** X21: [is_non_proj] answers True exactly when the list holds two arcs,
    in either order and possibly the same one twice, such that exactly one end
    of one lies strictly between the ends of the other; so its answer depends
    only on which arcs are in the list, not on their order or repetitions. *)
Theorem is_non_proj_characterised (graph_arcs : list arc) :
  (is_non_proj graph_arcs = true <->
   exists a b, In a graph_arcs /\ In b graph_arcs /\ straddles a b) /\
  (forall other : list arc,
     (forall a, In a graph_arcs <-> In a other) ->
     is_non_proj other = is_non_proj graph_arcs).
Proof.
  split; [apply is_non_proj_spec|].
  intros other Hsame. apply eq_true_iff_eq. rewrite !is_non_proj_spec.
  split; intros (a & b & Ha & Hb & Hs); exists a, b;
    (split; [now apply Hsame | split; [now apply Hsame | assumption]]).
Qed.

(** X22: [is_non_proj] misses no crossing: a list that holds two crossing
    arcs is always flagged. *)
Theorem is_non_proj_flags_crossings (graph_arcs : list arc) (a b : arc) :
  In a graph_arcs -> In b graph_arcs -> crosses a b ->
  is_non_proj graph_arcs = true.
Proof.
  intros Ha Hb Hc. apply is_non_proj_spec.
  unfold crosses in Hc.
  assert (Hs : straddles a b).
  { unfold straddles, under_arc. unfold arc_lo, arc_hi in *. lia. }
  now exists a, b.
Qed.

Lemma is_non_proj_flags_crossings_witness :
  is_non_proj [(1, 3, None); (2, 4, None)] = true.
Proof.
  apply (is_non_proj_flags_crossings _ (1, 3, None) (2, 4, None)).
  - now left.
  - right. now left.
  - unfold crosses, arc_lo, arc_hi. cbn. lia.
Defined.

(** X23: [is_non_proj] also flags arcs that do not cross: whenever two arcs
    of the list share one end and the other end of the second lies strictly
    between the ends of the first (a word with a dependant on the side of its
    own head, or two dependants of one word on the same side), the answer is
    True.  The arcs of a projective tree, and those the parser builds, are
    flagged in this way. *)
Theorem is_non_proj_flags_nested_arcs (graph_arcs : list arc) (a b : arc) :
  In a graph_arcs -> In b graph_arcs ->
  (arc_lo b = arc_lo a /\ arc_lo b < arc_hi b < arc_hi a) \/
  (arc_hi b = arc_hi a /\ arc_lo a < arc_lo b < arc_hi b) ->
  is_non_proj graph_arcs = true /\ ~ crosses a b.
Proof.
  intros Ha Hb Hn. split.
  - apply is_non_proj_spec. exists a, b. split; [assumption | split; [assumption|]].
    unfold straddles, under_arc. unfold arc_lo, arc_hi in *. lia.
  - unfold crosses. unfold arc_lo, arc_hi in *. lia.
Qed.

Lemma is_non_proj_flags_nested_arcs_witness :
  is_non_proj [(3, 2, Some "a"); (1, 3, Some "b"); (0, 1, Some "c")]%string = true /\
  ~ crosses (1, 3, Some "b"%string) (3, 2, Some "a"%string).
Proof.
  apply is_non_proj_flags_nested_arcs.
  - right. now left.
  - now left.
  - right. unfold arc_lo, arc_hi. cbn. lia.
Defined.

(** ** [DummyModel] under the batched driver *)

Lemma store_set_sentences (store : list PartialParse) (r : nat) (pp : PartialParse) :
  sentence pp = sentence (store_get store r) ->
  map sentence (store_set store r pp) = map sentence store.
Proof.
  revert r. induction store as [|x store IH]; intros r H; [reflexivity|].
  destruct r as [|r]; cbn [store_set map].
  - f_equal. exact H.
  - f_equal. apply IH. exact H.
Qed.

Lemma parse_step_sentence (pp pp' : PartialParse) (tid : Z) (deprel : option string)
    (o : outcome unit) :
  parse_step tid deprel pp = (o, pp') -> sentence pp' = sentence pp.
Proof.
  intros H.
  destruct (parse_step_outcome pp tid deprel)
    as [(_ & msg & Hp) | (_ & q & Hp)]; rewrite Hp in H; injection H as _ <-.
  - reflexivity.
  - apply parse_step_inv in Hp. now apply transition_sentence in Hp.
Qed.

Lemma batch_pass_sentences (minibatch : list nat) :
  forall (tds : list td_pair) (i : Z) (to_del : list Z) (store : list PartialParse),
    map sentence (snd (batch_pass minibatch tds i to_del store)) =
    map sentence store.
Proof.
  induction minibatch as [|r mb IH]; intros tds i to_del store; [reflexivity|].
  cbn [batch_pass]. destruct (Py.getitem tds i) as [td|]; [|reflexivity].
  destruct (parse_step (fst td) (snd td) (store_get store r)) as [o pp1] eqn:Hp.
  pose proof (parse_step_sentence _ _ _ _ _ Hp) as Hs.
  rewrite complete_value.
  destruct o as [u | [msg | |]]; cbn [snd];
    try (rewrite IH); now apply store_set_sentences.
Qed.

Lemma remove_at_incl {A : Type} (k : nat) (l : list A) (x : A) :
  In x (Py.remove_at k l) -> In x l.
Proof.
  revert k. induction l as [|y l IH]; intros k H; [destruct k; exact H|].
  destruct k as [|k]; cbn [Py.remove_at] in H.
  - now right.
  - destruct H as [-> | H]; [now left | right; eauto].
Qed.

Lemma firstn_incl {A : Type} (k : nat) (l : list A) (x : A) :
  In x (firstn k l) -> In x l.
Proof.
  intros H. rewrite <- (firstn_skipn k l). apply in_or_app. now left.
Qed.

Lemma delete_marked_incl (marked : list Z) :
  forall (l l' : list nat) (x : nat),
    delete_marked marked l = Some l' -> In x l' -> In x l.
Proof.
  induction marked as [|i marked IH]; intros l l' x H Hx.
  - cbn in H. injection H as <-. exact Hx.
  - cbn [delete_marked] in H. unfold Py.delitem in H.
    destruct (Py.norm_index (Py.len l) i) as [k|]; [|discriminate].
    eapply remove_at_incl. eapply IH; eauto.
Qed.

(** The driver only shows the model parses of its store: two models that
    agree on the lists of parses whose sentences have a word behave alike on
    a store of such parses. *)
Lemma minibatch_loop_agree (m1 m2 : Model) (batch_size : Z) :
  (forall pps, Forall has_word pps -> m1 pps = m2 pps) ->
  forall (fuel : nat) (unfinished : list nat) (store : list PartialParse),
    Forall (fun s => 2 <= Py.len s) (map sentence store) ->
    (forall r, In r unfinished -> (r < List.length store)%nat) ->
    minibatch_loop fuel m1 batch_size unfinished store =
    minibatch_loop fuel m2 batch_size unfinished store.
Proof.
  intros Hag. induction fuel as [|fuel IH]; intros u store Hst Hu; [reflexivity|].
  cbn [minibatch_loop]. destruct (Py.len u =? 0); [reflexivity|].
  set (mb := if Py.len u <? batch_size then u else Py.slice_to u batch_size).
  assert (Hmb : forall r, In r mb -> In r u).
  { intros r. unfold mb, Py.slice_to.
    destruct (Py.len u <? batch_size); [auto|].
    destruct (batch_size <? 0); apply firstn_incl. }
  assert (Hgood : Forall has_word (map (store_get store) mb)).
  { apply Forall_forall. intros pp Hpp. apply in_map_iff in Hpp.
    destruct Hpp as (r & <- & Hr).
    rewrite Forall_forall in Hst. apply Hst. apply in_map.
    unfold store_get. apply nth_In. auto. }
  rewrite (Hag _ Hgood).
  pose proof (batch_pass_sentences mb (m2 (map (store_get store) mb)) 0 [] store)
    as Hsent.
  destruct (batch_pass mb (m2 (map (store_get store) mb)) 0 [] store)
    as [[to_del | e] store1]; [|reflexivity].
  cbn [snd] in Hsent.
  destruct (delete_marked (rev to_del) u) as [u'|] eqn:Hdel; [|reflexivity].
  apply IH.
  - now rewrite Hsent.
  - intros r Hr.
    assert (Hl : List.length store1 = List.length store).
    { rewrite <- (length_map sentence store1), Hsent. apply length_map. }
    rewrite Hl. apply Hu. eapply delete_marked_incl; eauto.
Qed.

Lemma getitem_one {A : Type} (l : list A) :
  2 <= Py.len l -> exists x, Py.getitem l 1 = Some x.
Proof.
  unfold Py.len. intros H.
  destruct l as [|x [|y l]]; cbn [List.length] in H; try lia.
  exists y. unfold Py.getitem, Py.norm_index, Py.len. cbn [List.length].
  change (1 <? 0) with false. cbv iota.
  destruct (Z.ltb_spec 1 (Z.of_nat (S (S (List.length l))))); [|lia].
  reflexivity.
Qed.

Lemma predict_one_returns (pp : PartialParse) :
  has_word pp -> predict_one pp = Return (dummy_decision pp).
Proof.
  intros Hpp. unfold dummy_decision, predict_one.
  destruct (next pp <? Py.len (sentence pp)); [reflexivity|].
  destruct (getitem_one _ Hpp) as (wt & ->).
  destruct (is_left_word (fst wt) && negb (Py.len (stack pp) =? 2)); reflexivity.
Qed.

Lemma predict_returns (pps : list PartialParse) :
  Forall has_word pps -> predict pps = Return (map dummy_decision pps).
Proof.
  induction 1 as [|pp pps Hpp _ IH]; [reflexivity|].
  cbn [predict map]. now rewrite (predict_one_returns pp Hpp), IH.
Qed.

Lemma indices_snoc (k : nat) : indices (S k) = indices k ++ [Z.of_nat k].
Proof. unfold indices. now rewrite seq_S, map_app. Qed.

Lemma not_complete (pp : PartialParse) :
  (2 <= List.length (stack pp))%nat -> complete pp = (Return false, pp).
Proof.
  intros H. destruct (complete_spec pp) as ([|] & Hc & Hb); [|exact Hc].
  destruct (proj1 Hb eq_refl) as [_ Hs]. rewrite Hs in H. cbn in H. lia.
Qed.

Section DummyRun.

Variable sent : list (option string * string).
Variable n : nat.
Variable wt : option string * string.
Hypothesis sent_len : Py.len sent = Z.of_nat (S n).
Hypothesis first_word : Py.getitem sent 1 = Some wt.

Let deprel : option string := Some "deprel"%string.
Let frontier : Z := Z.of_nat (S n).

Lemma dummy_shifts (stk : list Z) (k : nat) (A : list arc) :
  (k < n)%nat ->
  dummy_decision (mkPartialParse sent stk (Z.of_nat (S k)) A) = (shift_id, deprel).
Proof.
  intros Hk. unfold dummy_decision, predict_one. cbn [next sentence].
  rewrite sent_len. destruct (Z.ltb_spec (Z.of_nat (S k)) (Z.of_nat (S n))); [|lia].
  reflexivity.
Qed.

Lemma dummy_reduces (stk : list Z) (A : list arc) :
  dummy_decision (mkPartialParse sent stk frontier A) =
  if is_left_word (fst wt) && negb (Py.len stk =? 2)
  then (left_arc_id, deprel) else (right_arc_id, deprel).
Proof.
  unfold dummy_decision, predict_one. cbn [next sentence stack].
  rewrite sent_len. unfold frontier.
  destruct (Z.ltb_spec (Z.of_nat (S n)) (Z.of_nat (S n))); [lia|].
  rewrite first_word.
  destruct (is_left_word (fst wt) && negb (Py.len stk =? 2)); reflexivity.
Qed.

Lemma shift_phase (j : nat) :
  forall k, (k + j = n)%nat ->
  forall q,
    finishes dummy_decision (mkPartialParse sent (indices (S n)) frontier []) q ->
    finishes dummy_decision
             (mkPartialParse sent (indices (S k)) (Z.of_nat (S k)) []) q.
Proof.
  induction j as [|j IH]; intros k Hk q Hq.
  - replace k with n by lia. exact Hq.
  - eapply F_step.
    + rewrite dummy_shifts by lia. cbn [fst snd]. apply parse_step_shift_ok.
      cbn [next sentence]. rewrite sent_len. lia.
    + apply not_complete. unfold shifted. cbn [stack].
      rewrite length_app. unfold indices. rewrite length_map, length_seq.
      cbn [List.length]. lia.
    + unfold shifted. cbn [sentence stack next arcs].
      rewrite <- indices_snoc.
      replace (Z.of_nat (S k) + 1) with (Z.of_nat (S (S k))) by lia.
      apply IH; [lia | exact Hq].
Qed.

Lemma right_phase :
  is_left_word (fst wt) = false ->
  forall (k : nat) (A : list arc),
    finishes dummy_decision
             (mkPartialParse sent (indices (S (S k))) frontier A)
             (mkPartialParse sent [0] frontier (A ++ right_chain (S k))).
Proof.
  intros Hw. induction k as [|k IH]; intros A.
  - apply F_done.
    + rewrite dummy_reduces, Hw. cbn [andb fst snd].
      etransitivity;
        [apply (parse_step_right_ok _ _ [] 0 1); reflexivity | reflexivity].
    + apply complete_true_iff. cbn [next sentence stack].
      split; [now rewrite sent_len | reflexivity].
  - eapply F_step.
    + rewrite dummy_reduces, Hw. cbn [andb fst snd].
      apply (parse_step_right_ok _ _ (indices (S k)) (Z.of_nat (S k))
               (Z.of_nat (S (S k)))).
      cbn [stack]. rewrite (indices_snoc (S (S k))), (indices_snoc (S k)).
      now rewrite <- app_assoc.
    + apply not_complete. unfold reduced. cbn [stack].
      rewrite length_app. unfold indices. rewrite length_map, length_seq.
      cbn [List.length]. lia.
    + unfold reduced. cbn [sentence stack next arcs].
      rewrite <- indices_snoc.
      specialize (IH (A ++ [(Z.of_nat (S k), Z.of_nat (S (S k)), deprel)])).
      rewrite <- app_assoc in IH. exact IH.
Qed.

Lemma left_phase :
  is_left_word (fst wt) = true ->
  forall (k : nat) (A : list arc),
    finishes dummy_decision
             (mkPartialParse sent (indices (S k) ++ [Z.of_nat n]) frontier A)
             (mkPartialParse sent [0] frontier (A ++ left_chain (Z.of_nat n) k)).
Proof.
  intros Hw. induction k as [|k IH]; intros A.
  - apply F_done.
    + rewrite dummy_reduces, Hw. cbn [andb fst snd negb].
      change (Py.len (indices 1 ++ [Z.of_nat n]) =? 2) with true. cbn [negb].
      etransitivity;
        [apply (parse_step_right_ok _ _ [] 0 (Z.of_nat n)); reflexivity
        | reflexivity].
    + apply complete_true_iff. cbn [next sentence stack].
      split; [now rewrite sent_len | reflexivity].
  - eapply F_step.
    + rewrite dummy_reduces, Hw.
      assert (Hl : (Py.len (indices (S (S k)) ++ [Z.of_nat n]) =? 2) = false).
      { apply Z.eqb_neq. unfold Py.len, indices.
        rewrite length_app, length_map, length_seq. cbn [List.length]. lia. }
      rewrite Hl. cbn [andb negb fst snd].
      apply (parse_step_left_ok _ _ (indices (S k)) (Z.of_nat (S k)) (Z.of_nat n)).
      * cbn [stack]. rewrite (indices_snoc (S k)). now rewrite <- app_assoc.
      * discriminate.
    + apply not_complete. unfold reduced. cbn [stack].
      rewrite length_app. unfold indices. rewrite length_map, length_seq.
      cbn [List.length]. lia.
    + unfold reduced. cbn [sentence stack next arcs].
      specialize (IH (A ++ [(Z.of_nat n, Z.of_nat (S k), deprel)])).
      rewrite <- app_assoc in IH. exact IH.
Qed.

Lemma dummy_run :
  (1 <= n)%nat ->
  finishes dummy_decision (mkPartialParse sent [0] 1 [])
    (mkPartialParse sent [0] frontier
       (if is_left_word (fst wt) then left_chain (Z.of_nat n) (n - 1)
        else right_chain n)).
Proof.
  intros Hn. apply (shift_phase n 0%nat); [lia|].
  destruct (is_left_word (fst wt)) eqn:Hw.
  - rewrite (indices_snoc n).
    replace (indices n) with (indices (S (n - 1))) by (f_equal; lia).
    exact (left_phase Hw (n - 1) []).
  - replace (indices (S n)) with (indices (S (S (n - 1)))) by (f_equal; lia).
    replace (right_chain n) with (right_chain (S (n - 1))) by (f_equal; lia).
    exact (right_phase Hw (n - 1) []).
Qed.

End DummyRun.

Lemma dummy_finishes (s : list (string * string)) :
  s <> [] ->
  exists q, finishes dummy_decision (init s) q /\ arcs q = dummy_arcs s /\
            complete q = (Return true, q).
Proof.
  intros Hs. destruct s as [|[w t] s']; [contradiction|].
  set (s := (w, t) :: s').
  assert (Hlen : Py.len (sentence (init s)) = Z.of_nat (S (List.length s)))
    by (rewrite len_sentence_init; lia).
  assert (Hw : Py.getitem (sentence (init s)) 1 = Some (Some w, t)).
  { exact (getitem_at [(None, root_tag)] _ (Some w, t)). }
  pose proof (dummy_run (sentence (init s)) (List.length s) (Some w, t) Hlen Hw)
    as Hrun.
  eexists. split; [apply Hrun; cbn; lia|]. split.
  - reflexivity.
  - apply complete_true_iff. cbn [next stack sentence].
    split; [now rewrite Hlen | reflexivity].
Qed.

(** X24: under [minibatch_parse], for every batch size of at least 1 and
    sentences that all have words, a model that answers as
    [DummyModel.predict] does gives, without an error, for each sentence of
    [n] words: the arcs [(n, n-1), ..., (n, 1), (0, n)] when its first word is
    'left', and the arcs [(n-1, n), ..., (1, 2), (0, 1)] otherwise, all labelled
    'deprel', in this order of creation. *)
Theorem minibatch_parse_dummy_model (model : Model)
    (sentences : list (list (string * string))) (batch_size : Z) :
  1 <= batch_size ->
  (forall s, In s sentences -> s <> []) ->
  (forall pps tds, predict pps = Return tds -> model pps = tds) ->
  exists fuel0,
    forall fuel, (fuel0 <= fuel)%nat ->
      minibatch_parse fuel sentences model batch_size =
      Some (Return (map dummy_arcs sentences)).
Proof.
  intros Hb Hs Hmodel.
  assert (Hag : forall pps, Forall has_word pps -> model pps = map dummy_decision pps).
  { intros pps Hpps. apply Hmodel. now apply predict_returns. }
  destruct (minibatch_parse_ends dummy_decision sentences batch_size Hb Hs)
    as (fuel0 & result & Hrun & Hlen & Hres).
  assert (Heq : result = map dummy_arcs sentences).
  { apply (nth_ext _ _ [] []); [now rewrite length_map|].
    intros i Hi. rewrite Hlen in Hi.
    destruct (Hres i Hi) as (q & Hq & ->).
    change (@nil arc) with (dummy_arcs []). rewrite map_nth.
    destruct (dummy_finishes (nth i sentences [])) as (q' & Hq' & Ha & _).
    { apply Hs. now apply nth_In. }
    rewrite <- Ha. f_equal. eapply finishes_deterministic; eauto. }
  exists fuel0. intros fuel Hf. rewrite <- Heq, <- (Hrun fuel Hf).
  unfold minibatch_parse.
  rewrite (minibatch_loop_agree model (map dummy_decision) batch_size Hag); [reflexivity| |].
  - rewrite map_map. apply Forall_forall. intros x Hx. apply in_map_iff in Hx.
    destruct Hx as (s & <- & Hin). rewrite len_sentence_init.
    specialize (Hs s Hin). destruct s; [contradiction | cbn [List.length]; lia].
  - intros r Hr. apply in_seq in Hr. lia.
Qed.

Lemma minibatch_parse_dummy_model_witness :
  exists fuel0,
    forall fuel, (fuel0 <= fuel)%nat ->
      minibatch_parse fuel
        [[("right", "a"); ("arcs", "b"); ("only", "c")];
         [("left", "e"); ("arcs", "f"); ("only", "g")]]%string
        (fun pps => match predict pps with Return tds => tds | Raise _ => [] end)
        2 =
      Some (Return (map dummy_arcs
        [[("right", "a"); ("arcs", "b"); ("only", "c")];
         [("left", "e"); ("arcs", "f"); ("only", "g")]]%string)).
Proof.
  apply minibatch_parse_dummy_model.
  - lia.
  - intros s [<- | [<- | []]]; discriminate.
  - intros pps tds H. now rewrite H.
Defined.

(** X25: [DummyModel] never proposes an illegal transition where one is
    still needed: on every configuration of a sentence that has words and is
    not complete, [predict] returns a proposal and [parse_step] accepts it. *)
Theorem dummy_proposal_is_legal (s : list (string * string)) (pp : PartialParse) :
  s <> [] -> configuration s pp ->
  complete pp = (Return false, pp) ->
  exists td pp',
    predict [pp] = Return [td] /\
    parse_step (fst td) (snd td) pp = (Return tt, pp').
Proof.
  intros Hs Hc Hnc.
  pose proof (configuration_invariants _ _ Hc) as [[rest Hst] Hf _ _].
  assert (Hsent : sentence pp = sentence (init s)).
  { destruct Hc as [tds Ht]. now apply steps_sentence in Ht. }
  assert (Hw : has_word pp).
  { unfold has_word. rewrite Hsent, len_sentence_init.
    destruct s; [contradiction | cbn [List.length]; lia]. }
  exists (dummy_decision pp).
  assert (Hp : predict [pp] = Return [dummy_decision pp])
    by (apply (predict_returns [pp]); now constructor).
  unfold dummy_decision, predict_one in *.
  unfold inv_frontier in Hf.
  destruct (Z.ltb_spec (next pp) (Py.len (sentence pp))) as [Hn | Hn].
  - eexists. split; [exact Hp|]. apply parse_step_shift_ok. lia.
  - destruct (getitem_one _ Hw) as (wt & Hg). rewrite Hg in *.
    assert (Hrest : rest <> []).
    { intros ->. assert (complete pp = (Return true, pp)).
      { apply complete_true_iff. split; [lia | exact Hst]. }
      congruence. }
    destruct (split_last2 (stack pp)) as (r & sd & t & Hs2).
    { rewrite Hst. destruct rest; [contradiction|].
      unfold Py.len. cbn [List.length]. lia. }
    destruct (is_left_word (fst wt) && negb (Py.len (stack pp) =? 2)) eqn:Hb.
    + eexists. split; [exact Hp|]. cbn [fst snd].
      apply (parse_step_left_ok _ _ r sd t Hs2).
      intros ->. apply andb_prop in Hb. destruct Hb as [_ Hb].
      rewrite Hs2 in Hb. discriminate.
    + eexists. split; [exact Hp|]. cbn [fst snd].
      apply (parse_step_right_ok _ _ r sd t Hs2).
Qed.

Lemma dummy_proposal_is_legal_witness :
  exists td pp',
    predict [init [("left", "e"); ("arcs", "f")]%string] = Return [td] /\
    parse_step (fst td) (snd td) (init [("left", "e"); ("arcs", "f")]%string) =
      (Return tt, pp').
Proof.
  apply (dummy_proposal_is_legal [("left", "e"); ("arcs", "f")]%string).
  - discriminate.
  - apply configuration_init.
  - vm_compute. reflexivity.
Defined.

(** ** The oracle heads towards the graph, and reconstructs it *)

Lemma nonempty_last_cases {A : Type} (l : list A) :
  l <> [] -> (exists x, l = [x]) \/ (exists l' y z, l = l' ++ [y; z]).
Proof.
  intros H. destruct l as [|a [|b l]]; [contradiction | left; eauto | right].
  destruct (split_last2 (a :: b :: l)) as (r & y & z & E).
  - unfold Py.len. cbn [List.length]. lia.
  - eauto.
Qed.

Lemma NoDup_twice {A : Type} (l1 l2 : list A) (x : A) :
  ~ NoDup (l1 ++ x :: l2 ++ [x]).
Proof.
  intros H. apply NoDup_remove_2 in H. apply H.
  apply in_or_app. right. apply in_or_app. right. now left.
Qed.

Lemma transition_shift_inv (pp q : PartialParse) (d : option string) :
  transition pp (shift_id, d) q ->
  next pp <> Py.len (sentence pp) /\ q = shifted pp.
Proof.
  intros H. pose proof (transition_parse_step _ _ _ H) as Hp. cbn [fst snd] in Hp.
  destruct (Z.eq_dec (next pp) (Py.len (sentence pp))) as [He | He].
  - rewrite parse_step_shift_fail in Hp by assumption. discriminate.
  - rewrite parse_step_shift_ok in Hp by assumption. injection Hp as <-. auto.
Qed.

Lemma transition_left_inv (pp q : PartialParse) (d : option string)
    (rest : list Z) (second top : Z) :
  transition pp (left_arc_id, d) q ->
  stack pp = rest ++ [second; top] ->
  rest <> [] /\ q = reduced pp (rest ++ [top]) (top, second, d).
Proof.
  intros H Hs. pose proof (transition_parse_step _ _ _ H) as Hp. cbn [fst snd] in Hp.
  destruct rest as [|x rest].
  - rewrite parse_step_left_fail in Hp; [discriminate|].
    rewrite Hs. unfold Py.len. cbn [app List.length]. lia.
  - rewrite (parse_step_left_ok _ _ _ _ _ Hs) in Hp by discriminate.
    injection Hp as <-. split; [discriminate | reflexivity].
Qed.

Lemma transition_right_inv (pp q : PartialParse) (d : option string)
    (rest : list Z) (second top : Z) :
  transition pp (right_arc_id, d) q ->
  stack pp = rest ++ [second; top] ->
  q = reduced pp (rest ++ [second]) (second, top, d).
Proof.
  intros H Hs. pose proof (transition_parse_step _ _ _ H) as Hp. cbn [fst snd] in Hp.
  rewrite (parse_step_right_ok _ _ _ _ _ Hs) in Hp. now injection Hp as <-.
Qed.

(** The head of an arc that is still to come is not yet a dependant. *)
Lemma late_arc_head (s : list (string * string)) (q q' : PartialParse)
    (tds : list td_pair) (a : arc) :
  configuration s q -> steps q tds q' ->
  In a (arcs q') -> ~ In a (arcs q) ->
  ~ In (arc_head a) (map arc_dep (arcs q)).
Proof.
  intros Hc Hs Ha Hna.
  destruct (steps_arcs_appended _ _ _ Hs) as (_ & _ & new & Hnew & _).
  rewrite Hnew in Ha. apply in_app_or in Ha. destruct Ha as [Ha | Ha]; [contradiction|].
  apply in_split in Ha. destruct Ha as (n1 & n2 & ->).
  assert (E : arcs q' = (arcs q ++ n1) ++ a :: n2)
    by (rewrite Hnew; now rewrite <- app_assoc).
  pose proof (configuration_bottom_up s q' (configuration_steps _ _ _ _ Hc Hs)
                _ _ _ E) as Hb.
  intros Hin. apply Hb. rewrite !map_app. apply in_or_app. left.
  apply in_or_app. now left.
Qed.

(** A word on the stack, or in the buffer, has no head yet. *)
Lemma stack_word_free (s : list (string * string)) (q : PartialParse) (a : arc) :
  configuration s q -> In a (arcs q) ->
  ~ In (arc_dep a) (stack q) /\ arc_dep a < next q.
Proof.
  intros Hc Ha. destruct (words_placed_once _ _ Hc) as (_ & _ & Hdep).
  destruct (Hdep (arc_dep a) (in_map arc_dep _ _ Ha)). split; [assumption | lia].
Qed.

(** While entries lie above [t] on the stack, a complete run has yet to
    attach one of them to [t], or [t] to one of them. *)
Lemma above_top_resolved (nx : Z) (tds : list td_pair) :
  forall (q q' : PartialParse) (pre above : list Z) (t : Z),
    steps q tds q' -> complete q' = (Return true, q') ->
    stack q = pre ++ t :: above -> above <> [] ->
    (forall x, In x above -> nx <= x) -> nx <= next q ->
    exists a, In a (arcs q') /\
      ((arc_head a = t /\ nx <= arc_dep a) \/ (arc_dep a = t /\ nx <= arc_head a)).
Proof.
  induction tds as [|td tds IH]; intros q q' pre above t Hs Hc Hst Hne Hab Hnx.
  - apply steps_nil_inv in Hs. subst q'. apply complete_true_iff in Hc.
    destruct Hc as [_ Hc]. rewrite Hc in Hst.
    destruct pre as [|p pre]; cbn [app] in Hst.
    + injection Hst as _ E. now subst above.
    + injection Hst as _ E. destruct pre; discriminate.
  - apply steps_cons_inv in Hs. destruct Hs as (q1 & Ht & Hs).
    destruct Ht as [q d Hn | q d rest second top Hst' Hr | q d rest second top Hst'].
    + apply (IH _ _ pre (above ++ [next q]) t Hs Hc).
      * cbn [stack shifted]. rewrite Hst. now rewrite <- app_assoc.
      * intros E. apply app_eq_nil in E. destruct E. discriminate.
      * intros x Hx. apply in_app_or in Hx. destruct Hx as [Hx | [<- | []]]; auto.
      * cbn [next shifted]. lia.
    + destruct (nonempty_last_cases above Hne) as [(x & ->) | (ab & y & z & ->)].
      * assert (E : pre ++ [t; x] = rest ++ [second; top]) by (now rewrite <- Hst).
        apply top_two_unique in E. destruct E as (-> & -> & ->).
        exists (top, second, d). split.
        -- eapply steps_arcs_grow; [exact Hs|]. cbn [arcs reduced].
           apply in_or_app. right. now left.
        -- right. cbn. split; [reflexivity | apply Hab; now left].
      * assert (E : (pre ++ t :: ab) ++ [y; z] = rest ++ [second; top])
          by (rewrite <- Hst', Hst; now rewrite <- app_assoc).
        apply top_two_unique in E. destruct E as (<- & <- & <-).
        apply (IH _ _ pre (ab ++ [z]) t Hs Hc).
        -- cbn [stack reduced]. now rewrite <- app_assoc.
        -- intros E. apply app_eq_nil in E. destruct E. discriminate.
        -- intros x Hx. apply Hab. apply in_app_or in Hx. apply in_or_app.
           destruct Hx as [Hx | [<- | []]]; [now left | right; cbn; tauto].
        -- cbn [next reduced]. exact Hnx.
    + destruct (nonempty_last_cases above Hne) as [(x & ->) | (ab & y & z & ->)].
      * assert (E : pre ++ [t; x] = rest ++ [second; top]) by (now rewrite <- Hst).
        apply top_two_unique in E. destruct E as (-> & -> & ->).
        exists (second, top, d). split.
        -- eapply steps_arcs_grow; [exact Hs|]. cbn [arcs reduced].
           apply in_or_app. right. now left.
        -- left. cbn. split; [reflexivity | apply Hab; now left].
      * assert (E : (pre ++ t :: ab) ++ [y; z] = rest ++ [second; top])
          by (rewrite <- Hst', Hst; now rewrite <- app_assoc).
        apply top_two_unique in E. destruct E as (<- & <- & <-).
        apply (IH _ _ pre (ab ++ [y]) t Hs Hc).
        -- cbn [stack reduced]. now rewrite <- app_assoc.
        -- intros E. apply app_eq_nil in E. destruct E. discriminate.
        -- intros x Hx. apply Hab. apply in_app_or in Hx. apply in_or_app.
           destruct Hx as [Hx | [<- | []]]; [now left | right; cbn; tauto].
        -- cbn [next reduced]. exact Hnx.
Qed.

Lemma steps_same_but_arcs (tds : list td_pair) :
  forall q q' q2 : PartialParse,
    steps q tds q' -> same_but_arcs q q2 ->
    exists q2', steps q2 tds q2' /\ same_but_arcs q' q2'.
Proof.
  induction tds as [|td tds IH]; intros q q' q2 Hs Hsame.
  - apply steps_nil_inv in Hs. subst q'. exists q2. split; [apply steps_nil | exact Hsame].
  - apply steps_cons_inv in Hs. destruct Hs as (q1 & Ht & Hs).
    destruct Hsame as (Hse & Hst & Hnx & Har).
    assert (Hstep : exists q21, transition q2 td q21 /\ same_but_arcs q1 q21).
    { destruct Ht as [q d Hn | q d rest second top Hst' Hr | q d rest second top Hst'].
      - exists (shifted q2). split.
        + apply T_shift. now rewrite Hnx, Hse.
        + unfold same_but_arcs, shifted. cbn [sentence stack next arcs].
          rewrite Hst, Hnx. auto.
      - exists (reduced q2 (rest ++ [top]) (top, second, d)). split.
        + apply T_left; [now rewrite Hst | exact Hr].
        + unfold same_but_arcs, reduced. cbn [sentence stack next arcs].
          repeat split; try assumption; intros Ha; apply in_app_or in Ha;
            apply in_or_app; destruct Ha as [Ha | Ha]; auto; left; now apply Har.
      - exists (reduced q2 (rest ++ [second]) (second, top, d)). split.
        + apply T_right. now rewrite Hst.
        + unfold same_but_arcs, reduced. cbn [sentence stack next arcs].
          repeat split; try assumption; intros Ha; apply in_app_or in Ha;
            apply in_or_app; destruct Ha as [Ha | Ha]; auto; left; now apply Har. }
    destruct Hstep as (q21 & Ht2 & Hsame1).
    destruct (IH _ _ _ Hs Hsame1) as (q2' & Hs2 & Hsame').
    exists q2'. split; [eapply steps_cons; eauto | exact Hsame'].
Qed.

Lemma same_but_arcs_complete (q q2 : PartialParse) :
  same_but_arcs q q2 -> complete q = (Return true, q) ->
  complete q2 = (Return true, q2).
Proof.
  intros (Hse & Hst & Hnx & _) Hc. apply complete_true_iff in Hc.
  apply complete_true_iff. rewrite Hse, Hst, Hnx. exact Hc.
Qed.

Lemma last_cases3 {A : Type} (l : list A) :
  l = [] \/ (exists x, l = [x]) \/ (exists l' y z, l = l' ++ [y; z]).
Proof.
  destruct l as [|a l]; [now left | right].
  apply nonempty_last_cases. discriminate.
Qed.

Lemma arcs_equiv_snoc (l lh : list arc) (x n : arc) :
  (forall a, In a lh <-> a = x \/ In a l) ->
  forall a, In a (lh ++ [n]) <-> a = x \/ In a (l ++ [n]).
Proof.
  intros H a. rewrite !in_app_iff, H. tauto.
Qed.

(** A left-arc that the run makes later can be made at once: the rest of
    the run goes through without the dependant on the stack, and ends with the
    same arcs. *)
Lemma left_arc_commutes (s : list (string * string)) (t sd : Z)
    (lbl : option string) (tds : list td_pair) :
  forall (q q' qh : PartialParse) (rest above : list Z),
    configuration s q -> steps q tds q' -> complete q' = (Return true, q') ->
    In (t, sd, lbl) (arcs q') ->
    rest <> [] ->
    stack q = rest ++ sd :: t :: above ->
    sentence qh = sentence q -> next qh = next q ->
    stack qh = rest ++ t :: above ->
    (forall a, In a (arcs qh) <-> a = (t, sd, lbl) \/ In a (arcs q)) ->
    exists tds' qh',
      steps qh tds' qh' /\ complete qh' = (Return true, qh') /\
      (forall a, In a (arcs qh') <-> In a (arcs q')).
Proof.
  induction tds as [|td tds IH];
    intros q q' qh rest above Hc Hs Hfin Hin Hrest Hst Hse Hnx Hsth Har.
  - apply steps_nil_inv in Hs. subst q'. apply complete_true_iff in Hfin.
    destruct Hfin as [_ Hfin]. rewrite Hfin in Hst.
    destruct rest as [|x rest]; [contradiction|]. cbn [app] in Hst.
    injection Hst as _ E. destruct rest; discriminate.
  - apply steps_cons_inv in Hs. destruct Hs as (q1 & Ht & Hs).
    pose proof (configuration_step _ _ _ _ Hc Ht) as Hc1.
    pose proof (configuration_steps _ _ _ _ Hc1 Hs) as Hc'.
    assert (Hlate : In sd (stack q1) -> In t (map arc_dep (arcs q1)) -> False).
    { intros Hsd Ht'.
      apply (late_arc_head s _ q' tds (t, sd, lbl) Hc1 Hs Hin); [|exact Ht'].
      intros Hina. destruct (stack_word_free _ _ _ Hc1 Hina) as [Hns _].
      now apply Hns. }
    destruct Ht as [q d Hn | q d r second top Hst' Hr | q d r second top Hst'].
    + (* shift *)
      destruct (IH (shifted q) q' (shifted qh) rest (above ++ [next q]))
        as (tds' & qh' & Hs' & Hfin' & Har'); try assumption.
      * cbn [stack shifted]. rewrite Hst. now rewrite <- !app_assoc.
      * cbn [next shifted]. now rewrite Hnx.
      * cbn [stack shifted]. rewrite Hsth, Hnx. now rewrite <- !app_assoc.
      * exists ((shift_id, d) :: tds'), qh'. split; [|auto].
        eapply steps_cons; [|exact Hs']. apply T_shift. now rewrite Hnx, Hse.
    + (* left-arc *)
      destruct (last_cases3 above) as [-> | [(x & ->) | (ab & y & z & ->)]].
      * assert (E : rest ++ [sd; t] = r ++ [second; top]) by (now rewrite <- Hst).
        apply top_two_unique in E. destruct E as (<- & <- & <-).
        assert (Hd : (t, sd, d) = (t, sd, lbl)).
        { destruct (words_placed_once _ _ Hc') as (_ & Hnd & _).
          apply (NoDup_map_inj arc_dep (arcs q')); auto.
          eapply steps_arcs_grow; [exact Hs|]. cbn [arcs reduced].
          apply in_or_app. right. now left. }
        injection Hd as ->.
        destruct (steps_same_but_arcs _ _ _ qh Hs) as (qh' & Hs' & Hsame).
        { unfold same_but_arcs, reduced. cbn [sentence stack next arcs].
          repeat split; try assumption.
          - intros Ha. apply Har in Ha. apply in_or_app.
            destruct Ha as [-> | Ha]; [right; now left | now left].
          - intros Ha. apply Har. apply in_app_or in Ha.
            destruct Ha as [Ha | [<- | []]]; auto. }
        exists tds, qh'. split; [exact Hs'|]. split.
        -- eapply same_but_arcs_complete; eauto.
        -- apply Hsame.
      * exfalso.
        assert (E : (rest ++ [sd]) ++ [t; x] = r ++ [second; top])
          by (rewrite <- Hst', Hst; now rewrite <- app_assoc).
        apply top_two_unique in E. destruct E as (<- & <- & <-).
        apply Hlate.
        -- cbn [stack reduced]. apply in_or_app. left. apply in_or_app.
           right. now left.
        -- cbn [arcs reduced]. rewrite map_app. apply in_or_app. right. now left.
      * assert (E : (rest ++ sd :: t :: ab) ++ [y; z] = r ++ [second; top])
          by (rewrite <- Hst', Hst; now rewrite <- app_assoc).
        apply top_two_unique in E. destruct E as (<- & <- & <-).
        destruct (IH _ q' (reduced qh ((rest ++ t :: ab) ++ [z]) (z, y, d))
                     rest (ab ++ [z]) Hc1 Hs Hfin Hin Hrest)
          as (tds' & qh' & Hs' & Hfin' & Har').
        -- cbn [stack reduced]. now rewrite <- app_assoc.
        -- exact Hse.
        -- exact Hnx.
        -- cbn [stack reduced]. now rewrite <- app_assoc.
        -- cbn [arcs reduced]. now apply arcs_equiv_snoc.
        -- exists ((left_arc_id, d) :: tds'), qh'. split; [|auto].
           eapply steps_cons; [|exact Hs']. apply T_left.
           ++ rewrite Hsth. now rewrite <- app_assoc.
           ++ intros E. apply app_eq_nil in E. destruct E. discriminate.
    + (* right-arc *)
      destruct (last_cases3 above) as [-> | [(x & ->) | (ab & y & z & ->)]].
      * exfalso.
        assert (E : rest ++ [sd; t] = r ++ [second; top]) by (now rewrite <- Hst).
        apply top_two_unique in E. destruct E as (<- & <- & <-).
        apply Hlate.
        -- cbn [stack reduced]. apply in_or_app. right. now left.
        -- cbn [arcs reduced]. rewrite map_app. apply in_or_app. right. now left.
      * assert (E : (rest ++ [sd]) ++ [t; x] = r ++ [second; top])
          by (rewrite <- Hst', Hst; now rewrite <- app_assoc).
        apply top_two_unique in E. destruct E as (<- & <- & <-).
        destruct (IH _ q' (reduced qh (rest ++ [t]) (t, x, d))
                     rest [] Hc1 Hs Hfin Hin Hrest)
          as (tds' & qh' & Hs' & Hfin' & Har').
        -- cbn [stack reduced]. now rewrite <- app_assoc.
        -- exact Hse.
        -- exact Hnx.
        -- reflexivity.
        -- cbn [arcs reduced]. now apply arcs_equiv_snoc.
        -- exists ((right_arc_id, d) :: tds'), qh'. split; [|auto].
           eapply steps_cons; [|exact Hs']. apply T_right. exact Hsth.
      * assert (E : (rest ++ sd :: t :: ab) ++ [y; z] = r ++ [second; top])
          by (rewrite <- Hst', Hst; now rewrite <- app_assoc).
        apply top_two_unique in E. destruct E as (<- & <- & <-).
        destruct (IH _ q' (reduced qh ((rest ++ t :: ab) ++ [y]) (y, z, d))
                     rest (ab ++ [y]) Hc1 Hs Hfin Hin Hrest)
          as (tds' & qh' & Hs' & Hfin' & Har').
        -- cbn [stack reduced]. now rewrite <- app_assoc.
        -- exact Hse.
        -- exact Hnx.
        -- cbn [stack reduced]. now rewrite <- app_assoc.
        -- cbn [arcs reduced]. now apply arcs_equiv_snoc.
        -- exists ((right_arc_id, d) :: tds'), qh'. split; [|auto].
           eapply steps_cons; [|exact Hs']. apply T_right.
           rewrite Hsth. now rewrite <- app_assoc.
Qed.

(** The last transition of a run that ends complete is the right-arc from
    ROOT. *)
Lemma last_arc_is_root (s : list (string * string)) (q q' : PartialParse)
    (tds : list td_pair) :
  configuration s q -> steps q tds q' ->
  complete q' = (Return true, q') -> complete q = (Return false, q) ->
  exists new w lbl, arcs q' = arcs q ++ new ++ [(0, w, lbl)].
Proof.
  intros Hc Hs Hfin Hnc.
  destruct tds as [|td0 tds0] using rev_ind.
  - apply steps_nil_inv in Hs. subst q'. congruence.
  - clear IHtds0. apply steps_snoc_inv in Hs. destruct Hs as (mid & Hs & Ht).
    destruct (steps_arcs_appended _ _ _ Hs) as (_ & _ & new & Hnew & _).
    pose proof (configuration_steps _ _ _ _ Hc Hs) as Hcm.
    pose proof (configuration_invariants _ _ Hcm) as [[r0 Hst0] _ _ _].
    apply complete_true_iff in Hfin. destruct Hfin as [_ Hfin].
    destruct Ht as [p d Hn | p d r second top Hst' Hr | p d r second top Hst'];
      cbn [stack shifted reduced] in Hfin.
    + rewrite Hst0 in Hfin. cbn [app] in Hfin. injection Hfin as E.
      apply app_eq_nil in E. destruct E. discriminate.
    + destruct r as [|x r]; [contradiction|]. cbn [app] in Hfin.
      injection Hfin as _ E. apply app_eq_nil in E. destruct E. discriminate.
    + destruct r as [|x r]; cbn [app] in Hfin.
      * injection Hfin as ->. exists new, top, d. cbn [arcs reduced].
        rewrite Hnew. now rewrite <- app_assoc.
      * injection Hfin as _ E. apply app_eq_nil in E. destruct E. discriminate.
Qed.

Lemma oracle_decision_one (graph : DependencyGraph) (pp : PartialParse) (w : Z) :
  stack pp = [0; w] ->
  scanned_decision pp graph =
  if Spec.buffer_empty pp then (right_arc_id, found_label graph 0 w)
  else (shift_id, None).
Proof. intros H. unfold scanned_decision. now rewrite H. Qed.

Lemma oracle_decision_pair (graph : DependencyGraph) (pp : PartialParse)
    (rest : list Z) (second top : Z) :
  inv_stack pp -> stack pp = rest ++ [second; top] -> rest <> [] ->
  scanned_decision pp graph = scanned_pair pp graph top second.
Proof.
  intros [r0 H0] Hs Hr. unfold scanned_decision.
  destruct r0 as [|w [|b l]].
  - rewrite H0 in Hs. destruct rest as [|x [|y rest]]; discriminate.
  - rewrite H0 in Hs. apply two_entries in Hs. destruct Hs as [-> _]. contradiction.
  - rewrite H0 at 1. cbv iota. rewrite Hs, rev_app_distr. reflexivity.
Qed.

Lemma gold_has_pending (graph : DependencyGraph) (top nx e : Z)
    (l : option string) :
  In (top, e, l) (gold_arcs graph) -> nx <= e ->
  scans_pending graph top nx = true.
Proof.
  intros Hin Hle. apply gold_arcs_inv in Hin. destruct Hin as [_ Hf].
  apply find_deprel_true in Hf. unfold scans_pending.
  apply existsb_exists. exists e. split; [now apply get_deps_in|].
  now apply Z.leb_le.
Qed.

Ltac id_clash H :=
  exfalso; apply (f_equal fst) in H; cbn [fst] in H;
  unfold left_arc_id, right_arc_id, shift_id in H; discriminate.

Section OracleReconstructs.

Variable graph : DependencyGraph.
Variable s : list (string * string).
Hypothesis graph_wf : wf_graph graph (S (List.length s)) = true.
Hypothesis one_root :
  forall w1 w2 l1 l2,
    In (0, w1, l1) (gold_arcs graph) -> In (0, w2, l2) (gold_arcs graph) ->
    w1 = w2.

Lemma configuration_length (pp : PartialParse) :
  configuration s pp -> List.length (sentence pp) = S (List.length s).
Proof.
  intros [tds H]. rewrite (steps_sentence _ _ _ H). unfold init.
  cbn [sentence List.length]. now rewrite length_map.
Qed.

Lemma gold_records_head (pp : PartialParse) (h d : Z) (l : option string) :
  configuration s pp -> In h (stack pp) -> In d (stack pp) ->
  In (h, d, l) (gold_arcs graph) -> Spec.records_head graph h d = true.
Proof.
  intros Hc Hh Hd Hin.
  pose proof (configuration_invariants _ _ Hc) as [_ _ [Hi _] _].
  pose proof (configuration_length _ Hc) as Hlen.
  apply Hi in Hh. apply Hi in Hd. unfold in_range, Py.len in Hh, Hd.
  rewrite Hlen in Hh, Hd.
  rewrite <- (wf_graph_consistent _ _ _ _ graph_wf Hh Hd).
  now apply gold_arcs_inv in Hin.
Qed.

(** The move of the oracle keeps the graph within reach. *)
Lemma oracle_keeps_reachable (pp pp1 : PartialParse) (tid : Z) (l : option string) :
  configuration s pp -> gold_reachable pp graph ->
  complete pp = (Return false, pp) ->
  get_oracle graph pp = (Return (tid, l), pp) ->
  transition pp (tid, l) pp1 ->
  gold_reachable pp1 graph.
Proof.
  intros Hc Hg Hnc Ho Ht.
  pose proof (configuration_invariants _ _ Hc) as Hinv.
  assert (Hwf : wf_graph graph (List.length (sentence pp)) = true)
    by (now rewrite configuration_length).
  pose proof (get_oracle_decision graph pp Hinv Hwf Hg Hnc) as Hdec.
  assert (Hd : scanned_decision pp graph = (tid, l)) by congruence.
  destruct Hg as (tds & q' & Hrun & Hfin & Harcs).
  pose proof (configuration_steps _ _ _ _ Hc Hrun) as Hc'.
  destruct (words_placed_once _ _ Hc') as (_ & Hnd & _).
  destruct tds as [|td0 tds].
  { apply steps_nil_inv in Hrun. subst q'. congruence. }
  destruct (oracle_proposal _ _ _ _ Ho)
    as [[-> ->] | [(r & sd & t & lbl & Hs & Hr & -> & -> & Hgold)
                  | (r & sd & t & lbl & Hs & -> & -> & Hgold & Hlast)]].
  - (* the oracle shifts *)
    apply transition_shift_inv in Ht. destruct Ht as [Hn ->].
    apply steps_cons_inv in Hrun. destruct Hrun as (q1 & Ht0 & Hrun).
    pose proof (configuration_step _ _ _ _ Hc Ht0) as Hc1.
    destruct Ht0 as [pp d Hn0 | pp d r second top Hst Hr | pp d r second top Hst].
    + exists tds, q'. auto.
    + exfalso.
      assert (Hin : In (top, second, d) (gold_arcs graph)).
      { apply Harcs. eapply steps_arcs_grow; [exact Hrun|]. cbn [arcs reduced].
        apply in_or_app. right. now left. }
      rewrite (oracle_decision_pair graph pp r second top) in Hd;
        [| apply Hinv | exact Hst | exact Hr].
      unfold scanned_pair in Hd.
      rewrite (gold_records_head pp top second d Hc) in Hd;
        [id_clash Hd | | | exact Hin];
        rewrite Hst; apply in_or_app; right; cbn; tauto.
    + exfalso.
      assert (Hin : In (second, top, d) (gold_arcs graph)).
      { apply Harcs. eapply steps_arcs_grow; [exact Hrun|]. cbn [arcs reduced].
        apply in_or_app. right. now left. }
      destruct r as [|x r].
      * destruct Hinv as [[r0 Hr0] _ _ _]. rewrite Hst in Hr0. cbn [app] in Hr0.
        injection Hr0 as -> _.
        destruct (last_arc_is_root s _ q' tds Hc1 Hrun Hfin) as (new & w & lw & Hnew).
        { destruct (complete_spec (reduced pp ([] ++ [0]) (0, top, d)))
            as ([|] & Hcq & Hb); [|exact Hcq].
          destruct (proj1 Hb eq_refl) as [Hnq _]. cbn [next sentence reduced] in Hnq.
          contradiction. }
        assert (w = top).
        { apply (one_root w top lw d); [|exact Hin].
          apply Harcs. rewrite Hnew. apply in_or_app. right.
          apply in_or_app. right. now left. }
        subst w. rewrite Hnew in Hnd. cbn [arcs reduced] in Hnd.
        rewrite !map_app in Hnd. cbn [map] in Hnd.
        rewrite <- app_assoc in Hnd. cbn [app] in Hnd.
        exact (NoDup_twice _ _ _ Hnd).
      * rewrite (oracle_decision_pair graph pp (x :: r) second top) in Hd;
          [| apply Hinv | exact Hst | discriminate].
        unfold scanned_pair in Hd.
        assert (Hrec : Spec.records_head graph second top = true).
        { apply (gold_records_head pp second top d Hc); [| | exact Hin];
            rewrite Hst; apply in_or_app; right; cbn; tauto. }
        rewrite Hrec in Hd.
        destruct (Spec.records_head graph top second); [id_clash Hd|].
        destruct (scans_pending graph top (next pp)) eqn:Hpend;
          [|id_clash Hd].
        unfold scans_pending in Hpend.
        apply existsb_exists in Hpend. destruct Hpend as (e & He & Hle).
        apply Z.leb_le in Hle.
        apply get_deps_in in He. destruct He as ([lb ds] & Hitem & Hds).
        pose proof (node_arc_gold graph top e lb ds Hitem Hds) as Hge.
        apply Harcs in Hge.
        apply (late_arc_head s _ q' tds _ Hc1 Hrun Hge).
        -- intros Hina. destruct (stack_word_free _ _ _ Hc1 Hina) as [_ Hlt].
           cbn [arc_dep fst snd next reduced] in Hlt. lia.
        -- cbn [arc_head fst arcs reduced]. rewrite map_app.
           apply in_or_app. right. now left.
  - (* the oracle makes a left-arc *)
    destruct (transition_left_inv _ _ _ _ _ _ Ht Hs) as [_ ->].
    destruct (left_arc_commutes s t sd (Some lbl) (td0 :: tds) pp q'
                (reduced pp (r ++ [t]) (t, sd, Some lbl)) r [] Hc Hrun Hfin)
      as (tds' & qh' & Hs' & Hfin' & Har'); try reflexivity.
    + now apply Harcs.
    + exact Hr.
    + exact Hs.
    + cbn [arcs reduced]. intros a. split.
      * intros H. apply in_app_or in H. destruct H as [H | [<- | []]]; auto.
      * intros [-> | H]; apply in_or_app; [right; now left | now left].
    + exists tds', qh'. split; [exact Hs'|]. split; [exact Hfin'|].
      intros a. rewrite Har'. apply Harcs.
  - (* the oracle makes a right-arc *)
    rewrite (transition_right_inv _ _ _ _ _ _ Ht Hs).
    apply steps_cons_inv in Hrun. destruct Hrun as (q1 & Ht0 & Hrun).
    pose proof (configuration_step _ _ _ _ Hc Ht0) as Hc1.
    assert (Hin' : In (sd, t, Some lbl) (arcs q')) by now apply Harcs.
    destruct Ht0 as [pp d Hn0 | pp d r0 second top Hst Hr0 | pp d r0 second top Hst].
    + exfalso.
      destruct r as [|x r]; [now apply Hn0, Hlast|].
      rewrite (oracle_decision_pair graph pp (x :: r) sd t) in Hd;
        [| apply Hinv | exact Hs | discriminate].
      unfold scanned_pair in Hd.
      destruct (Spec.records_head graph t sd); [id_clash Hd|].
      destruct (Spec.records_head graph sd t); [|id_clash Hd].
      destruct (scans_pending graph t (next pp)) eqn:Hpend;
        [id_clash Hd|].
      destruct (above_top_resolved (next pp) tds (shifted pp) q'
                  ((x :: r) ++ [sd]) [next pp] t Hrun Hfin)
        as (a & Ha & Hcase).
      * cbn [stack shifted]. rewrite Hs. now rewrite <- !app_assoc.
      * discriminate.
      * intros y [<- | []]. lia.
      * cbn [next shifted]. lia.
      * destruct Hcase as [[Hh Hle] | [Hdp Hle]].
        -- destruct a as [[h e] la]. cbn in Hh, Hle. subst h.
           rewrite (gold_has_pending graph t (next pp) e la) in Hpend;
             [discriminate | now apply Harcs | exact Hle].
        -- assert (a = (sd, t, Some lbl))
             by (apply (NoDup_map_inj arc_dep (arcs q')); auto).
           subst a. cbn in Hle.
           destruct (stack_top_two s pp _ _ _ Hc Hs) as (_ & H1 & H2 & _). lia.
    + exfalso.
      assert (E : r ++ [sd; t] = r0 ++ [second; top]) by (now rewrite <- Hs).
      apply top_two_unique in E. destruct E as (<- & <- & <-).
      apply (late_arc_head s _ q' tds (sd, t, Some lbl) Hc1 Hrun Hin').
      * intros Hina. destruct (stack_word_free _ _ _ Hc1 Hina) as [Hns _].
        apply Hns. cbn [arc_dep fst snd stack reduced].
        apply in_or_app. right. now left.
      * cbn [arc_head fst arcs reduced]. rewrite map_app.
        apply in_or_app. right. now left.
    + assert (E : r ++ [sd; t] = r0 ++ [second; top]) by (now rewrite <- Hs).
      apply top_two_unique in E. destruct E as (<- & <- & <-).
      assert (Hl : (sd, t, d) = (sd, t, Some lbl)).
      { apply (NoDup_map_inj arc_dep (arcs q')); auto.
        eapply steps_arcs_grow; [exact Hrun|]. cbn [arcs reduced].
        apply in_or_app. right. now left. }
      injection Hl as ->. exists tds, q'. auto.
Qed.

Lemma potential_pos (pp : PartialParse) :
  configuration s pp -> (1 <= potential pp)%nat.
Proof.
  intros Hc. pose proof (configuration_invariants _ _ Hc) as [[r Hr] Hf _ _].
  unfold inv_frontier in Hf. unfold potential. rewrite Hr.
  unfold Py.len at 2. cbn [List.length]. lia.
Qed.

Lemma complete_reachable_arcs (pp : PartialParse) :
  complete pp = (Return true, pp) -> gold_reachable pp graph ->
  forall a, In a (arcs pp) <-> In a (gold_arcs graph).
Proof.
  intros Hb (tds & q' & Hrun & _ & Harcs). destruct tds as [|td tds].
  - apply steps_nil_inv in Hrun. now subst q'.
  - apply steps_cons_inv in Hrun. destruct Hrun as (q1 & Ht & _).
    apply transition_parse_step in Ht.
    destruct (parse_step_on_complete pp (fst td) (snd td) Hb) as [msg Hp].
    congruence.
Qed.

Lemma oracle_step_exists (pp : PartialParse) :
  configuration s pp -> gold_reachable pp graph ->
  complete pp = (Return false, pp) ->
  exists td pp1,
    get_oracle graph pp = (Return td, pp) /\
    parse_step (fst td) (snd td) pp = (Return tt, pp1) /\
    configuration s pp1 /\ gold_reachable pp1 graph /\
    S (potential pp1) = potential pp.
Proof.
  intros Hc Hg Hb.
  pose proof (configuration_invariants _ _ Hc) as Hinv.
  assert (Hwf : wf_graph graph (List.length (sentence pp)) = true)
    by (now rewrite configuration_length).
  pose proof (get_oracle_decision graph pp Hinv Hwf Hg Hb) as Ho.
  destruct (scanned_decision pp graph) as [tid l] eqn:Hd.
  assert (Hstep : exists pp1, parse_step tid l pp = (Return tt, pp1)).
  { destruct (oracle_proposal _ _ _ _ Ho)
      as [[-> ->] | [(r & sd & t & lbl & Hs & Hr & -> & -> & _)
                    | (r & sd & t & lbl & Hs & -> & -> & _)]].
    - eexists. apply parse_step_shift_ok.
      eapply oracle_shift_has_buffer; eauto.
    - eexists. apply (parse_step_left_ok _ _ _ _ _ Hs Hr).
    - eexists. apply (parse_step_right_ok _ _ _ _ _ Hs). }
  destruct Hstep as (pp1 & Hp).
  pose proof (parse_step_inv _ _ _ _ _ Hp) as Ht.
  exists (tid, l), pp1. split; [exact Ho|]. split; [exact Hp|].
  split; [eapply configuration_step; eauto|].
  split; [eapply oracle_keeps_reachable; eauto|].
  apply (transition_potential _ _ _ (invs_frontier _ Hinv) Ht).
Qed.

Lemma oracle_loop_completes (k : nat) :
  forall (pp : PartialParse) (tids : list Z),
    configuration s pp -> gold_reachable pp graph -> (potential pp <= k)%nat ->
    exists tids' pp',
      (forall fuel, (k <= fuel)%nat ->
         oracle_loop fuel graph tids pp = Some (Return tids', pp')) /\
      complete pp' = (Return true, pp') /\
      (forall a, In a (arcs pp') <-> In a (gold_arcs graph)).
Proof.
  induction k as [|k IH]; intros pp tids Hc Hg Hk.
  - pose proof (potential_pos pp Hc). lia.
  - destruct (complete_spec pp) as ([|] & Hb & _).
    + exists tids, pp. split; [|split].
      * intros [|fuel] Hf; [lia|]. cbn [oracle_loop]. now rewrite Hb.
      * exact Hb.
      * now apply complete_reachable_arcs.
    + destruct (oracle_step_exists pp Hc Hg Hb)
        as ([tid l] & pp1 & Ho & Hp & Hc1 & Hg1 & Hpot).
      cbn [fst snd] in Hp.
      destruct (IH pp1 (tids ++ [tid]) Hc1 Hg1) as (tids' & pp' & Hrun & Hfin & Har);
        [lia|].
      exists tids', pp'. split; [|auto].
      intros [|fuel] Hf; [lia|]. cbn [oracle_loop].
      rewrite Hb. cbv beta iota. rewrite Ho. cbv beta iota. rewrite Hp.
      cbv beta iota. apply Hrun. lia.
Qed.

End OracleReconstructs.

(** X26: for a graph that is consistent with the sentence, records at most
    one word under ROOT and is within reach of a configuration that is not
    complete, the oracle returns a move, [parse_step] accepts it, and the graph
    is still within reach afterwards: the oracle heads towards the graph, as
    its docstring promises. *)
Theorem oracle_heads_towards_graph (graph : DependencyGraph)
    (s : list (string * string)) (pp : PartialParse) :
  wf_graph graph (S (List.length s)) = true ->
  (forall w1 w2 l1 l2,
      In (0, w1, l1) (gold_arcs graph) -> In (0, w2, l2) (gold_arcs graph) ->
      w1 = w2) ->
  configuration s pp -> gold_reachable pp graph ->
  complete pp = (Return false, pp) ->
  exists td pp1,
    get_oracle graph pp = (Return td, pp) /\
    parse_step (fst td) (snd td) pp = (Return tt, pp1) /\
    gold_reachable pp1 graph.
Proof.
  intros Hwf Hroot Hc Hg Hb.
  destruct (oracle_step_exists graph s Hwf Hroot pp Hc Hg Hb)
    as (td & pp1 & Ho & Hp & _ & Hg1 & _).
  exists td, pp1. auto.
Qed.

(** X27: for every sentence and every graph that is consistent with it,
    records at most one word under ROOT and can be built by the transitions at
    all, the loop "ask the oracle, apply its answer" ends without an error
    after exactly [2n] transitions, with a complete parse whose arcs are
    exactly the arcs of the graph, labels included. *)
Theorem oracle_reconstructs_graph (graph : DependencyGraph)
    (s : list (string * string)) :
  wf_graph graph (S (List.length s)) = true ->
  (forall w1 w2 l1 l2,
      In (0, w1, l1) (gold_arcs graph) -> In (0, w2, l2) (gold_arcs graph) ->
      w1 = w2) ->
  gold_reachable (init s) graph ->
  exists tids pp,
    (forall fuel, (2 * List.length s + 1 <= fuel)%nat ->
       oracle_loop fuel graph [] (init s) = Some (Return tids, pp)) /\
    List.length tids = (2 * List.length s)%nat /\
    complete pp = (Return true, pp) /\
    (forall a, In a (arcs pp) <-> In a (gold_arcs graph)).
Proof.
  intros Hwf Hroot Hg.
  destruct (oracle_loop_completes graph s Hwf Hroot (2 * List.length s + 1)
              (init s) [] (configuration_init s) Hg)
    as (tids & pp & Hrun & Hfin & Har).
  { unfold potential. rewrite len_sentence_init. cbn [next stack init].
    unfold Py.len. cbn [List.length]. lia. }
  exists tids, pp. split; [exact Hrun|]. split; [|auto].
  destruct (oracle_loop_returns graph _ _ _ _ _ (Hrun _ (le_n _)))
    as (_ & tds & Hos & ->).
  apply oracle_steps_steps in Hos.
  destruct (complete_run_counts_aux s tds pp Hos Hfin) as [Hlen _].
  cbn [app]. now rewrite length_map.
Qed.

Lemma test_graph_one_root (w1 w2 : Z) (l1 l2 : option string) :
  In (0, w1, l1) (gold_arcs test_graph) -> In (0, w2, l2) (gold_arcs test_graph) ->
  w1 = w2.
Proof.
  change (gold_arcs test_graph) with
    [(0, 1, Some "ROOT"); (1, 5, Some "deprel_5"); (3, 2, Some "deprel_2");
     (3, 4, Some "deprel_4"); (5, 3, Some "deprel_3")]%string.
  cbn [In]. intros H1 H2.
  destruct H1 as [H1 | [H1 | [H1 | [H1 | [H1 | []]]]]]; try discriminate;
    destruct H2 as [H2 | [H2 | [H2 | [H2 | [H2 | []]]]]]; try discriminate;
    congruence.
Qed.

Lemma test_graph_reachable :
  gold_reachable (init test_sentence) test_graph.
Proof.
  exists [(shift_id, None); (shift_id, None); (shift_id, None);
          (left_arc_id, Some "deprel_2"); (shift_id, None);
          (right_arc_id, Some "deprel_4"); (shift_id, None);
          (left_arc_id, Some "deprel_3"); (right_arc_id, Some "deprel_5");
          (right_arc_id, Some "ROOT")]%string.
  exists {| sentence := sentence (init test_sentence); stack := [0]; next := 6;
            arcs := [(3, 2, Some "deprel_2"); (3, 4, Some "deprel_4");
                     (5, 3, Some "deprel_3"); (1, 5, Some "deprel_5");
                     (0, 1, Some "ROOT")]%string |}.
  split; [reflexivity|]. split; [reflexivity|].
  intros a. change (gold_arcs test_graph) with
    [(0, 1, Some "ROOT"); (1, 5, Some "deprel_5"); (3, 2, Some "deprel_2");
     (3, 4, Some "deprel_4"); (5, 3, Some "deprel_3")]%string.
  cbn [arcs In]. tauto.
Qed.

Lemma oracle_heads_towards_graph_witness :
  exists td pp1,
    get_oracle test_graph (init test_sentence) = (Return td, init test_sentence) /\
    parse_step (fst td) (snd td) (init test_sentence) = (Return tt, pp1) /\
    gold_reachable pp1 test_graph.
Proof.
  apply (oracle_heads_towards_graph test_graph test_sentence).
  - reflexivity.
  - exact test_graph_one_root.
  - apply configuration_init.
  - exact test_graph_reachable.
  - reflexivity.
Defined.

Lemma oracle_reconstructs_graph_witness :
  exists tids pp,
    (forall fuel, (2 * List.length test_sentence + 1 <= fuel)%nat ->
       oracle_loop fuel test_graph [] (init test_sentence) =
       Some (Return tids, pp)) /\
    List.length tids = (2 * List.length test_sentence)%nat /\
    complete pp = (Return true, pp) /\
    (forall a, In a (arcs pp) <-> In a (gold_arcs test_graph)).
Proof.
  apply oracle_reconstructs_graph.
  - reflexivity.
  - exact test_graph_one_root.
  - exact test_graph_reachable.
Defined.

(** ** The batched driver under any model *)

Lemma pass_by_reference (h : nat -> td_pair) (minibatch : list nat) :
  forall store : list PartialParse,
    NoDup minibatch ->
    (forall r, In r minibatch -> (r < List.length store)%nat) ->
    let res := pass_result minibatch (map h minibatch) store in
    List.length (fst res) = List.length minibatch /\
    List.length (snd res) = List.length store /\
    (forall r, ~ In r minibatch -> store_get (snd res) r = store_get store r) /\
    (forall r, In r minibatch -> store_get (snd res) r = after_ref h store r) /\
    unmarked minibatch (fst res) = filter (stays_ref h store) minibatch.
Proof.
  induction minibatch as [|r mb IH]; intros store Hnd Hb.
  - cbn. repeat split; auto. intros r [].
  - inversion Hnd as [|? ? Hnotin Hnd']. subst.
    cbn [map pass_result]. fold (after_ref h store r).
    set (store1 := store_set store r (after_ref h store r)).
    assert (Hsame : forall r', In r' mb -> store_get store1 r' = store_get store r').
    { intros r' Hr'. unfold store1. apply store_get_set_other.
      intros ->. contradiction. }
    assert (Hb1 : forall r', In r' mb -> (r' < List.length store1)%nat).
    { intros r' Hr'. unfold store1. rewrite store_set_length. apply Hb. now right. }
    specialize (IH store1 Hnd' Hb1). cbv zeta in IH.
    destruct (pass_result mb (map h mb) store1) as [ms st'] eqn:Hpr.
    cbn [fst snd] in *. destruct IH as (I1 & I2 & I3 & I4 & I5).
    assert (Hr : (r < List.length store)%nat) by (apply Hb; now left).
    split; [cbn [List.length]; lia|].
    split; [rewrite I2; unfold store1; apply store_set_length|].
    split; [|split].
    + intros r' Hr'. rewrite I3 by (intros H; apply Hr'; now right).
      unfold store1. apply store_get_set_other. intros ->. apply Hr'. now left.
    + intros r' [<- | Hr'].
      * rewrite I3 by assumption. unfold store1. now apply store_get_set_same.
      * rewrite I4 by assumption. unfold after_ref. now rewrite Hsame.
    + cbn [unmarked filter]. unfold stays_ref at 1.
      assert (Hf : filter (stays_ref h store1) mb = filter (stays_ref h store) mb).
      { apply filter_ext_in. intros r' Hr'. unfold stays_ref. now rewrite Hsame. }
      rewrite I5, Hf.
      destruct (snd (advance (h r) (store_get store r))); reflexivity.
Qed.

(** The answers of the model, read as a choice per reference. *)
Lemma list_as_map (minibatch : list nat) :
  forall tds : list td_pair,
    NoDup minibatch -> List.length tds = List.length minibatch ->
    exists h : nat -> td_pair, tds = map h minibatch.
Proof.
  induction minibatch as [|r mb IH]; intros tds Hnd Hlen.
  - destruct tds; [|discriminate]. now exists (fun _ => (shift_id, None)).
  - destruct tds as [|td tds]; [discriminate|].
    inversion Hnd as [|? ? Hnotin Hnd']. subst.
    destruct (IH tds Hnd') as (h & ->); [cbn [List.length] in Hlen; lia|].
    exists (fun x => if Nat.eqb x r then td else h x).
    cbn [map]. rewrite Nat.eqb_refl. f_equal.
    apply map_ext_in. intros x Hx.
    destruct (Nat.eqb_spec x r) as [-> | _]; [contradiction | reflexivity].
Qed.

Lemma advance_configuration (s : list (string * string)) (td : td_pair)
    (pp : PartialParse) :
  configuration s pp -> complete pp = (Return false, pp) ->
  configuration s (fst (advance td pp)) /\
  (snd (advance td pp) = false ->
   complete (fst (advance td pp)) = (Return false, fst (advance td pp)) /\
   S (potential (fst (advance td pp))) = potential pp).
Proof.
  intros Hc Hnc.
  destruct (advance_open td pp Hnc)
    as [(msg & Hp & ->) | (pp' & c & Hp & Hc' & ->)]; cbn [fst snd].
  - split; [exact Hc | discriminate].
  - pose proof (parse_step_inv _ _ _ _ _ Hp) as Ht. split.
    + eapply configuration_step; eauto.
    + intros ->. split; [exact Hc'|].
      apply (transition_potential _ _ td); [|destruct td; exact Ht].
      apply (invs_frontier _ (configuration_invariants _ _ Hc)).
Qed.

Section DriverAnyModel.

Variable model : Model.
Variable sentences : list (list (string * string)).
Variable batch_size : Z.
Hypothesis batch_size_pos : 1 <= batch_size.
Hypothesis model_length :
  forall pps, List.length (model pps) = List.length pps.

Record any_inv (unfinished : list nat) (store : list PartialParse) : Prop := {
  ai_len : List.length store = List.length sentences;
  ai_nodup : NoDup unfinished;
  ai_open : forall r, In r unfinished -> open_in store r;
  ai_conf : forall r, configuration (nth r sentences []) (store_get store r)
}.

Lemma pass_keeps_any (unfinished : list nat) (store : list PartialParse) :
  any_inv unfinished store -> unfinished <> [] ->
  exists unfinished' store',
    (forall fuel,
        minibatch_loop (S fuel) model batch_size unfinished store =
        minibatch_loop fuel model batch_size unfinished' store') /\
    any_inv unfinished' store' /\
    (workload store' unfinished' < workload store unfinished)%nat.
Proof.
  intros [Dlen Dnd Dopen Dconf] Hne.
  set (k := Z.to_nat batch_size). set (minibatch := firstn k unfinished).
  assert (Hsplit : unfinished = minibatch ++ skipn k unfinished)
    by (unfold minibatch; now rewrite firstn_skipn).
  assert (Hnd_mb : NoDup minibatch).
  { rewrite Hsplit in Dnd. now apply NoDup_app_remove_r in Dnd. }
  assert (Hin_mb : forall r, In r minibatch -> In r unfinished).
  { intros r Hr. rewrite Hsplit. apply in_or_app. now left. }
  assert (Hin_rest : forall r, In r (skipn k unfinished) ->
                               In r unfinished /\ ~ In r minibatch).
  { intros r Hr. split; [rewrite Hsplit; apply in_or_app; now right|].
    intros Hm. rewrite Hsplit in Dnd.
    exact (NoDup_app_disjoint _ _ _ Dnd Hm Hr). }
  assert (Hb_mb : forall r, In r minibatch -> (r < List.length store)%nat).
  { intros r Hr. apply Dopen. auto. }
  destruct (list_as_map minibatch (model (map (store_get store) minibatch)) Hnd_mb)
    as (h & Hh); [now rewrite model_length, length_map|].
  set (res := pass_result minibatch (map h minibatch) store).
  destruct (pass_by_reference h minibatch store Hnd_mb Hb_mb)
    as (P1 & P2 & P3 & P4 & P5). fold res in P1, P2, P3, P4, P5.
  assert (Hmb_ne : minibatch <> []).
  { unfold minibatch. destruct unfinished; [contradiction|].
    assert (Hk : (1 <= k)%nat) by (unfold k; lia).
    destruct k; [lia | discriminate]. }
  assert (Hmember : forall r, In r minibatch ->
            configuration (nth r sentences []) (after_ref h store r) /\
            (stays_ref h store r = true ->
             complete (after_ref h store r) = (Return false, after_ref h store r) /\
             S (potential (after_ref h store r)) = potential (store_get store r))).
  { intros r Hr. destruct (Dopen r (Hin_mb r Hr)) as [_ Hc].
    destruct (advance_configuration _ (h r) _ (Dconf r) Hc) as [H1 H2].
    split; [exact H1|]. unfold stays_ref. intros Hs. apply H2.
    now destruct (snd (advance (h r) (store_get store r))). }
  exists (filter (stays_ref h store) minibatch ++ skipn k unfinished), (snd res).
  split; [|split].
  - intros fuel. cbn [minibatch_loop].
    assert (Hlen0 : (Py.len unfinished =? 0) = false).
    { apply Z.eqb_neq. destruct unfinished; [contradiction|].
      unfold Py.len. cbn [List.length]. lia. }
    rewrite Hlen0.
    assert (Hmb : (if Py.len unfinished <? batch_size then unfinished
                   else Py.slice_to unfinished batch_size) = minibatch).
    { unfold minibatch, k. destruct (Z.ltb_spec (Py.len unfinished) batch_size).
      - symmetry. apply firstn_all2. unfold Py.len in *. lia.
      - unfold Py.slice_to. destruct (Z.ltb_spec batch_size 0); [lia | reflexivity]. }
    rewrite Hmb, Hh.
    assert (Hbp := batch_pass_spec minibatch (map h minibatch) [] [] store).
    cbn [app List.length] in Hbp. change (Z.of_nat 0) with 0 in Hbp.
    rewrite Hbp.
    + fold res. rewrite Hsplit at 1.
      assert (Hdel := delete_marked_spec minibatch (fst res) []
                        (skipn k unfinished) P1).
      cbn [app List.length] in Hdel. change (Z.of_nat 0) with 0 in Hdel.
      rewrite Hdel, P5. reflexivity.
    + now rewrite length_map.
    + exact Hnd_mb.
    + intros r Hr. apply Dopen. auto.
  - constructor.
    + now rewrite P2.
    + apply NoDup_app.
      * now apply NoDup_filter.
      * rewrite Hsplit in Dnd. now apply NoDup_app_remove_l in Dnd.
      * intros r Hr. apply filter_In in Hr. destruct Hr as [Hr _].
        rewrite Hsplit in Dnd. exact (NoDup_app_disjoint _ _ _ Dnd Hr).
    + intros r Hr. apply in_app_or in Hr. destruct Hr as [Hr | Hr].
      * apply filter_In in Hr. destruct Hr as [Hr Hs].
        split; [rewrite P2; now apply Hb_mb|]. rewrite P4 by assumption.
        now apply (Hmember r Hr).
      * destruct (Hin_rest r Hr) as [Hu Hm].
        destruct (Dopen r Hu) as [Hb Hc].
        split; [now rewrite P2|]. now rewrite P3.
    + intros r. destruct (in_dec Nat.eq_dec r minibatch) as [Hr | Hr].
      * rewrite P4 by assumption. now apply (Hmember r Hr).
      * rewrite P3 by assumption. apply Dconf.
  - rewrite (f_equal (workload store) Hsplit). unfold workload.
    rewrite !map_app, !list_sum_app.
    assert (Hrest : map (fun r => S (potential (store_get (snd res) r)))
                        (skipn k unfinished) =
                    map (fun r => S (potential (store_get store r)))
                        (skipn k unfinished)).
    { apply map_ext_in. intros r Hr. destruct (Hin_rest r Hr) as [_ Hm].
      now rewrite P3. }
    rewrite Hrest.
    pose proof (sum_filter_le minibatch (stays_ref h store)
                  (fun r => S (potential (store_get store r)))
                  (fun r => S (potential (store_get (snd res) r)))) as Hsum.
    assert (Hlen_mb : (1 <= List.length minibatch)%nat).
    { destruct minibatch; [contradiction | cbn; lia]. }
    cbv beta in Hsum.
    assert (H1 : forall r, In r minibatch -> stays_ref h store r = true ->
                 (S (potential (store_get (snd res) r)) <
                  S (potential (store_get store r)))%nat).
    { intros r Hr Hs. rewrite P4 by assumption.
      destruct (Hmember r Hr) as [_ Hm]. destruct (Hm Hs) as [_ Hpot]. lia. }
    specialize (Hsum H1 (fun r _ => le_n_S _ _ (Nat.le_0_l _))). lia.
Qed.

Lemma loop_ends_any (n : nat) :
  forall (unfinished : list nat) (store : list PartialParse),
    (workload store unfinished < n)%nat ->
    any_inv unfinished store ->
    exists store',
      (forall fuel, (n <= fuel)%nat ->
         minibatch_loop fuel model batch_size unfinished store =
         Some (Return tt, store')) /\
      any_inv [] store'.
Proof.
  induction n as [|n IH]; intros unfinished store Hw Hinv; [lia|].
  destruct unfinished as [|r u].
  - exists store. split; [|exact Hinv].
    intros [|fuel] Hf; [lia | reflexivity].
  - assert (Hne : r :: u <> []) by discriminate.
    destruct (pass_keeps_any _ _ Hinv Hne) as (u' & store1 & Heq & Hinv' & Hlt).
    destruct (IH u' store1) as (store' & Hrun & Hfin); [lia | exact Hinv' |].
    exists store'. split; [|exact Hfin].
    intros [|fuel] Hf; [lia|]. rewrite Heq. apply Hrun. lia.
Qed.

Hypothesis sentences_have_words : forall s, In s sentences -> s <> [].

Lemma any_inv_init :
  any_inv (seq 0 (List.length (map init sentences))) (map init sentences).
Proof.
  assert (Hget : forall r, store_get (map init sentences) r =
                           init (nth r sentences [])).
  { intros r. unfold store_get. apply (map_nth init). }
  rewrite length_map. constructor.
  - apply length_map.
  - apply seq_NoDup.
  - intros r Hr. apply in_seq in Hr. split; [rewrite length_map; lia|].
    rewrite Hget.
    assert (Hs : nth r sentences [] <> [])
      by (apply sentences_have_words, nth_In; lia).
    rewrite complete_value. f_equal.
    unfold init, Py.len. cbn [next sentence stack List.length].
    rewrite length_map.
    destruct (nth r sentences []); [contradiction|].
    cbn [List.length].
    destruct (Z.eqb_spec 1 (Z.of_nat (S (S (List.length l))))); [lia | reflexivity].
  - intros r. rewrite Hget. apply configuration_init.
Qed.

End DriverAnyModel.

Lemma map_seq_nth {A B : Type} (g : A -> B) (l : list A) (d : A) :
  map (fun r => g (nth r l d)) (seq 0 (List.length l)) = map g l.
Proof.
  induction l as [|a l IH]; [reflexivity|].
  cbn [List.length seq map nth]. f_equal.
  rewrite <- seq_shift, map_map. exact IH.
Qed.

Lemma potential_init (s : list (string * string)) :
  potential (init s) = (2 * List.length s + 1)%nat.
Proof.
  unfold potential. rewrite len_sentence_init. cbn [next stack init].
  unfold Py.len. cbn [List.length]. lia.
Qed.

(** X28: for every batch size of at least 1, sentences that all have words,
    and any model at all that returns one proposal per parse it is shown (its
    answers may depend on the whole minibatch), [minibatch_parse] returns
    without an error, after at most [2n + 2] passes of the loop per sentence of
    [n] words, one arc list per sentence, each the arcs of a configuration that
    the transitions reach on that sentence. *)
Theorem minibatch_parse_any_model (model : Model)
    (sentences : list (list (string * string))) (batch_size : Z) :
  1 <= batch_size ->
  (forall s, In s sentences -> s <> []) ->
  (forall pps, List.length (model pps) = List.length pps) ->
  exists result,
    (forall fuel,
        (list_sum (map (fun s => 2 * List.length s + 2) sentences) + 1 <= fuel)%nat ->
        minibatch_parse fuel sentences model batch_size = Some (Return result)) /\
    List.length result = List.length sentences /\
    (forall i, (i < List.length sentences)%nat ->
       exists q, configuration (nth i sentences []) q /\ nth i result [] = arcs q).
Proof.
  intros Hb Hs Hm.
  pose proof (any_inv_init sentences Hs) as Hinit.
  assert (Hw : workload (map init sentences)
                 (seq 0 (List.length (map init sentences))) =
               list_sum (map (fun s => 2 * List.length s + 2)%nat sentences)).
  { unfold workload. rewrite length_map.
    rewrite <- (map_seq_nth (fun s => (2 * List.length s + 2)%nat) sentences []).
    f_equal. apply map_ext. intros r. unfold store_get.
    rewrite (map_nth init), potential_init. lia. }
  destruct (loop_ends_any model sentences batch_size Hb Hm
              (list_sum (map (fun s => 2 * List.length s + 2)%nat sentences) + 1)
              _ _ ltac:(rewrite Hw; lia) Hinit)
    as (store' & Hrun & [Dlen _ _ Dconf]).
  exists (map arcs store'). split; [|split].
  - intros fuel Hf. unfold minibatch_parse. now rewrite (Hrun fuel Hf).
  - now rewrite length_map.
  - intros i Hi. exists (store_get store' i). split; [apply Dconf|].
    unfold store_get. apply (map_nth arcs store' (init []) i).
Qed.

Lemma minibatch_parse_any_model_witness :
  exists result,
    (forall fuel,
        (list_sum (map (fun s => 2 * List.length s + 2)
                       [[("a", "t")]; [("b", "t"); ("c", "t")]]%string) + 1
         <= fuel)%nat ->
        minibatch_parse fuel [[("a", "t")]; [("b", "t"); ("c", "t")]]%string
                        (constant_model (left_arc_id, None)) 2 =
        Some (Return result)) /\
    List.length result =
      List.length [[("a", "t")]; [("b", "t"); ("c", "t")]]%string /\
    (forall i, (i < List.length [[("a", "t")]; [("b", "t"); ("c", "t")]]%string)%nat ->
       exists q,
         configuration (nth i [[("a", "t")]; [("b", "t"); ("c", "t")]]%string []) q /\
         nth i result [] = arcs q).
Proof.
  apply minibatch_parse_any_model.
  - lia.
  - intros s [<- | [<- | []]]; discriminate.
  - intros pps. unfold constant_model. apply length_map.
Defined.
